(** * Nice tick values for a numeric axis

    A shallow embedding of [src/util/scale/util/arithmetic.ts] and
    [src/util/scale/getNiceTickValues.ts].

    A JavaScript [number] is an IEEE 754 binary64 value.  It is modelled by
    [spec_float] of the standard library at precision 53 and maximal
    exponent 1024, so that every [+], [-], [*], [/] of the source is the
    correctly rounded (nearest, ties to even) operation, with signed zeros,
    infinities and NaN. *)

From Stdlib Require Import ZArith List Bool Lia.
From Stdlib Require Import Floats.SpecFloat.
Import ListNotations.

Local Open Scope Z_scope.

(** ** JavaScript numbers *)

Module JS.

Definition prec : Z := 53.
Definition emax : Z := 1024.

Definition number : Type := spec_float.

Definition NaN : number := S754_nan.
Definition Infinity : number := S754_infinity false.
Definition NegInfinity : number := S754_infinity true.
Definition zero : number := S754_zero false.

(** The number nearest to the integer [z] (exact when [|z| <= 2^53]). *)
Definition ofZ (z : Z) : number := binary_normalize prec emax z 0 false.

Definition one : number := ofZ 1.
Definition two : number := ofZ 2.

Definition add : number -> number -> number := SFadd prec emax.
Definition sub : number -> number -> number := SFsub prec emax.
Definition mul : number -> number -> number := SFmul prec emax.
Definition div : number -> number -> number := SFdiv prec emax.

(** Comparisons; each one is [false] as soon as an operand is NaN, and
    [eq] (the [===] of the source on numbers) identifies [+0] and [-0]. *)
Definition lt (x y : number) : bool := SFltb x y.
Definition le (x y : number) : bool := SFleb x y.
Definition gt (x y : number) : bool := SFltb y x.
Definition ge (x y : number) : bool := SFleb y x.
Definition eq (x y : number) : bool := SFeqb x y.
Definition ne (x y : number) : bool := negb (SFeqb x y).

(** [spec_float] also holds pairs of a mantissa and an exponent that no
    double has; [is_double] tells the values that are doubles (every zero,
    infinity and NaN is one). *)
Definition is_double (x : number) : bool := valid_binary prec emax x.

(** [Number.isFinite]. *)
Definition isFinite (x : number) : bool :=
  match x with
  | S754_zero _ | S754_finite _ _ _ => true
  | S754_infinity _ | S754_nan => false
  end.

Definition abs : number -> number := SFabs.

(** The decimal literal [m / 10^k] of the source text.  For [|m| <= 2^53]
    and [0 <= k <= 22] both operands of the division are exact, so the
    quotient is the correctly rounded value of the literal. *)
Definition decimal (m : Z) (k : Z) : number := div (ofZ m) (ofZ (10 ^ k)).

(** The literals [0.05] and [0.1]. *)
Definition lit_0_05 : number := decimal 5 2.
Definition lit_0_1 : number := decimal 1 1.

(** [Math.floor]: the largest integer not above [x]; [x] itself when it is
    a zero, an infinity or NaN. *)
Definition floor (x : number) : number :=
  match x with
  | S754_finite s m e =>
      if 0 <=? e then x
      else
        let q := Z.shiftr (Zpos m) (- e) in
        let exact := Z.shiftl q (- e) =? Zpos m in
        if s then binary_normalize prec emax (- (if exact then q else q + 1)) 0 true
        else binary_normalize prec emax q 0 false
  | _ => x
  end.

(** [Math.ceil]: the smallest integer not below [x]; a negative [x] above
    [-1] gives [-0]. *)
Definition ceil (x : number) : number :=
  match x with
  | S754_finite s m e =>
      if 0 <=? e then x
      else
        let q := Z.shiftr (Zpos m) (- e) in
        let exact := Z.shiftl q (- e) =? Zpos m in
        if s then binary_normalize prec emax (- q) 0 true
        else binary_normalize prec emax (if exact then q else q + 1) 0 false
  | _ => x
  end.

(** [Math.round]: the nearest integer, a tie going towards +Infinity; the
    sign of a zero result is the sign of [x]. *)
Definition round (x : number) : number :=
  match x with
  | S754_finite s m e =>
      if 0 <=? e then x
      else
        let d := Z.shiftl 1 (- e) in
        let n := (2 * cond_Zopp s (Zpos m) + d) / (2 * d) in
        binary_normalize prec emax n 0 s
  | _ => x
  end.

(** [Number.isInteger]. *)
Definition isInteger (x : number) : bool :=
  match x with
  | S754_zero _ => true
  | S754_finite _ m e =>
      if 0 <=? e then true
      else Z.shiftl (Z.shiftr (Zpos m) (- e)) (- e) =? Zpos m
  | _ => false
  end.

(** The remainder operator [%]: exact, with the sign of the dividend. *)
Definition rem (x y : number) : number :=
  match x, y with
  | S754_nan, _ | _, S754_nan => NaN
  | S754_infinity _, _ => NaN
  | _, S754_zero _ => NaN
  | S754_zero _, _ => x
  | S754_finite _ _ _, S754_infinity _ => x
  | S754_finite sx mx ex, S754_finite _ my ey =>
      let e := Z.min ex ey in
      let X := Z.shiftl (Zpos mx) (ex - e) in
      let Y := Z.shiftl (Zpos my) (ey - e) in
      binary_normalize prec emax (cond_Zopp sx (Z.rem X Y)) e sx
  end.

(** [10 ** k] for an integral exponent.  ECMAScript leaves the last bits of
    [**] to the implementation: the model takes the double nearest to the
    power of ten, and an engine may return a neighbour of that double where
    the power is not exact.  The theorems stated for all inputs use of the
    power only that it is a double that is not negative; the others evaluate
    the code at the inputs they name.  Above [10^308] the result overflows to
    Infinity and below [10^-324] it underflows to zero, which the two outer
    tests make explicit. *)
Definition pow10Z (k : Z) : number :=
  if 400 <? k then Infinity
  else if k <? -400 then zero
  else if 0 <=? k then ofZ (10 ^ k)
  else div one (S754_finite false (Z.to_pos (10 ^ (- k))) 0).

(** The integral value of a number that holds an integer. *)
Definition toZ (x : number) : Z :=
  match x with
  | S754_finite s m e => cond_Zopp s (if 0 <=? e then Z.shiftl (Zpos m) e else Z.shiftr (Zpos m) (- e))
  | _ => 0
  end.

(** [10 ** k] for a number [k].  The source only raises ten to a digit
    count minus one, which is an integer or not finite; a fractional
    exponent is outside this model and is given NaN. *)
Definition pow10 (k : number) : number :=
  match k with
  | S754_nan => NaN
  | S754_infinity false => Infinity
  | S754_infinity true => zero
  | S754_zero _ => one
  | S754_finite _ _ _ => if isInteger k then pow10Z (toZ k) else NaN
  end.

(** [x >= 10^k], decided exactly on the integers behind a positive finite
    number [m * 2^e]. *)
Definition ge_pow10 (m : positive) (e : Z) (k : Z) : bool :=
  let num := Zpos m * 2 ^ (Z.max e 0) * 10 ^ (Z.max (- k) 0) in
  let den := 2 ^ (Z.max (- e) 0) * 10 ^ (Z.max k 0) in
  den <=? num.

(** The largest [k], searched downwards from [k], with [10^k <= m * 2^e]. *)
Fixpoint log10_search (fuel : nat) (m : positive) (e : Z) (k : Z) : Z :=
  match fuel with
  | O => k
  | S fuel' => if ge_pow10 m e k then k else log10_search fuel' m e (k - 1)
  end.

(** An integer above the decimal logarithm of [m * 2^e], from its binary
    exponent: [m * 2^e < 2^d] and [log10 2 < 0.30103]. *)
Definition log10_upper (m : positive) (e : Z) : Z :=
  (Zpos (digits2_pos m) + e) * 30103 / 100000 + 1.

(** [Math.floor(Math.log10(x))].  ECMAScript leaves the last bits of
    [Math.log10] to the implementation; the model takes the integer part of
    the exact logarithm.  An engine returns a rounded logarithm, which
    reaches the next integer when [x] lies within a rounding error below a
    power of ten: there the code counts one digit more than this model.  The
    theorems stated for all inputs do not depend on the value of the digit
    count. *)
Definition floor_log10 (x : number) : number :=
  match x with
  | S754_nan => NaN
  | S754_zero _ => NegInfinity
  | S754_infinity s => if s then NaN else Infinity
  | S754_finite true _ _ => NaN
  | S754_finite false m e => ofZ (log10_search 700 m e (log10_upper m e))
  end.

(** Modelled from the spec: [range] of [./util/utils], which is not among
    the sources.  The spec has [range(0, n)] give the [n] slots, or the
    [n] consecutive indices from zero, of a tick array. *)
Definition range (b e : Z) : list number :=
  map (fun i => ofZ (b + Z.of_nat i)) (seq 0 (Z.to_nat (e - b))).

End JS.

(** ** [util/arithmetic.ts] *)

Module Arithmetic.
Import JS.

(** [getDigitCount]: the digit count of a number, [1] for zero. *)
Definition getDigitCount (value : number) : number :=
  if eq value zero then one
  else add (floor_log10 (abs value)) one.

(** The loop of [rangeStep]; [fuel] is what is left of the [100000]
    iterations that [i] counts. *)
Fixpoint rangeStep_loop (fuel : nat) (num end_ step : number) : list number :=
  match fuel with
  | O => []
  | S fuel' =>
      if lt num end_ then num :: rangeStep_loop fuel' (add num step) end_ step
      else []
  end.

Definition rangeStep_cap : nat := Z.to_nat 100000.

(** [rangeStep]: the data in [[start, end_)] with a fixed step. *)
Definition rangeStep (start end_ step : number) : list number :=
  rangeStep_loop rangeStep_cap start end_ step.

End Arithmetic.

(** ** [getNiceTickValues.ts] *)

Module Ticks.
Import JS Arithmetic.

(** [tickCount] is a count of ticks: it is an integer here, and [ofZ]
    gives the number that the arithmetic of the source works on. *)

Definition getValidInterval (d : number * number) : number * number :=
  let '(min, max) := d in
  if gt min max then (max, min) else (min, max).

Definition getFormatStep (roughStep : number) (allowDecimals : bool)
    (correctionFactor : number) : number :=
  if le roughStep zero || negb (isFinite roughStep) then zero
  else
    let digitCount := getDigitCount roughStep in
    let pow10 := JS.pow10 (sub digitCount one) in
    let stepRatio := div roughStep pow10 in
    let stepRatioScale := if ne digitCount one then lit_0_05 else lit_0_1 in
    let stepRatioAmend := add (ceil (div stepRatio stepRatioScale)) correctionFactor in
    let niceStep := mul (mul stepRatioAmend stepRatioScale) pow10 in
    if negb allowDecimals then ceil niceStep else niceStep.

Definition getTickOfSingleValue (value : number) (tickCount : Z)
    (allowDecimals : bool) : list number :=
  if tickCount <=? 1 then [value]
  else
    let tc := ofZ tickCount in
    let '(step, middle) :=
      if allowDecimals && lt (abs value) one && ne value zero then
        let step := JS.pow10 (sub (getDigitCount value) one) in
        (step, mul (floor (div value step)) step)
      else if negb allowDecimals || isInteger value then (one, floor value)
      else if eq value zero then (one, floor (div (sub tc one) two))
      else (one, value) in
    let middleIndex := floor (div (sub tc one) two) in
    map (fun n => add middle (mul (sub n middleIndex) step)) (range 0 tickCount).

Record StepResult : Type := mkStep
  { step : number; tickMin : number; tickMax : number }.

(** [calculateStep].  The source recurses on [correctionFactor + 1] with no
    bound on the depth; [fuel] bounds the depth here, and [None] says that
    the recursion went deeper than [fuel]. *)
Fixpoint calculateStep (fuel : nat) (min max : number) (tickCount : Z)
    (allowDecimals : bool) (correctionFactor : number) : option StepResult :=
  match fuel with
  | O => None
  | S fuel' =>
      let tc := ofZ tickCount in
      let roughStep := div (sub max min) (sub tc one) in
      if negb (isFinite roughStep) then Some (mkStep zero zero zero)
      else
        let step := getFormatStep roughStep allowDecimals correctionFactor in
        let middle :=
          if le min zero && ge max zero then zero
          else
            let middle := div (add min max) two in
            sub middle (rem (add (rem middle step) step) step) in
        let belowCount := ceil (div (sub middle min) step) in
        let upCount := ceil (div (sub max middle) step) in
        let scaleCount := add (add belowCount upCount) one in
        if gt scaleCount tc then
          calculateStep fuel' min max tickCount allowDecimals (add correctionFactor one)
        else
          let '(belowCount, upCount) :=
            if lt scaleCount tc then
              if gt max zero then (belowCount, add upCount (sub tc scaleCount))
              else (add belowCount (sub tc scaleCount), upCount)
            else (belowCount, upCount) in
          Some (mkStep step
                  (sub middle (mul belowCount step))
                  (add middle (mul upCount step)))
  end.

(** [getNiceTickValues]; [None] when [calculateStep] recursed deeper than
    [fuel]. *)
Definition getNiceTickValues (fuel : nat) (domain : number * number)
    (tickCount : Z) (allowDecimals : bool) : option (list number) :=
  let '(min, max) := domain in
  let count := Z.max tickCount 2 in
  let '(cormin, cormax) := getValidInterval (min, max) in
  if eq cormin NegInfinity || eq cormax Infinity then
    let values :=
      if eq cormax Infinity
      then cormin :: map (fun _ => Infinity) (range 0 (tickCount - 1))
      else map (fun _ => NegInfinity) (range 0 (tickCount - 1)) ++ [cormax] in
    Some (if gt min max then rev values else values)
  else if eq cormin cormax then
    Some (getTickOfSingleValue cormin tickCount allowDecimals)
  else
    match calculateStep fuel cormin cormax count allowDecimals zero with
    | None => None
    | Some r =>
        let epsilon := mul lit_0_1 (step r) in
        let values := rangeStep (tickMin r) (add (tickMax r) epsilon) (step r) in
        Some (if gt min max then rev values else values)
    end.

Definition getTickValuesFixedDomain (domain : number * number)
    (tickCount : Z) (allowDecimals : bool) : list number :=
  let '(min, max) := domain in
  let '(cormin, cormax) := getValidInterval (min, max) in
  if eq cormin NegInfinity || eq cormax Infinity then [min; max]
  else if eq cormin cormax then [cormin]
  else
    let count := Z.max tickCount 2 in
    let step :=
      getFormatStep (div (sub cormax cormin) (sub (ofZ count) one)) allowDecimals zero in
    let values := rangeStep cormin cormax step ++ [cormax] in
    let values := if negb allowDecimals then map round values else values in
    if gt min max then rev values else values.

End Ticks.

(** ** Auxiliary definitions for the statements *)

Module Props.
Import JS Arithmetic Ticks.

(** [start] with [step] added [k] times, as the loop of [rangeStep] does. *)
Fixpoint addn (start step : number) (k : nat) : number :=
  match k with
  | O => start
  | S k' => add (addn start step k') step
  end.

(** The parts of the body of [calculateStep]. *)
Definition roughStepOf (min max : number) (tickCount : Z) : number :=
  div (sub max min) (sub (ofZ tickCount) one).

Definition middleOf (min max step : number) : number :=
  if le min zero && ge max zero then zero
  else
    let middle := div (add min max) two in
    sub middle (rem (add (rem middle step) step) step).

Definition scaleCountOf (min max step : number) : number :=
  let middle := middleOf min max step in
  add (add (ceil (div (sub middle min) step)) (ceil (div (sub max middle) step))) one.

(** Some element of [l] is [===] to [v]. *)
Definition contains (l : list number) (v : number) : bool :=
  existsb (fun x => eq x v) l.

(** Every element of [l] lies in [[lo, hi]]. *)
Definition all_within (lo hi : number) (l : list number) : bool :=
  forallb (fun v => le lo v && le v hi) l.

(** The numbers of the examples. *)
Definition minSubnormal : number := S754_finite false 1 (-1074).
Definition negMinSubnormal : number := S754_finite true 1 (-1074).

(** Each element of [l] is [<=] the next one. *)
Fixpoint nondecreasing (l : list number) : bool :=
  match l with
  | a :: (b :: _) as t => le a b && nondecreasing t
  | _ => true
  end.

(** The largest finite double and its opposite. *)
Definition maxDouble : number := S754_finite false (2 ^ 53 - 1) 971.
Definition negMaxDouble : number := S754_finite true (2 ^ 53 - 1) 971.

End Props.

(** ** Rounding, on integers

    The definitions below restate what [binary_round_aux] and
    [binary_normalize] of the standard library compute, on plain integers,
    so that order and monotonicity can be proved with [lia].  The lemmas
    further down prove that they agree with the library. *)

Module Rounding.
Import JS.

(** The integer nearest to [N / P], a tie going to the even one. *)
Definition rne (N P : Z) : Z :=
  let q := N / P in
  let r := N mod P in
  if 2 * r <? P then q
  else if P <? 2 * r then q + 1
  else if Z.even q then q else q + 1.

(** The integer nearest to [M * 2^t]. *)
Definition rne2 (M t : Z) : Z :=
  if 0 <=? t then M * 2 ^ t else rne M (2 ^ (- t)).

(** The exponent of a double whose value has its leading bit at [e - 1]. *)
Definition fexp64 (e : Z) : Z := Z.max (e - 53) (-1074).

(** The number of binary digits of [M > 0]. *)
Definition dig (M : Z) : Z := Z.log2 M + 1.

(** Exponent and mantissa of the double nearest to [M * 2^c], before the
    carry of a mantissa rounded up to [2^53]. *)
Definition Rexp (M c : Z) : Z := fexp64 (dig M + c).
Definition Rman (M c : Z) : Z := rne2 M (c - Rexp M c).

(** The value of an infinity, counted in units of [2^-1074]. *)
Definition top : Z := 2 ^ 2098.

(** The double nearest to [M * 2^c], in units of [2^-1074]; [top] on
    overflow. *)
Definition RV (M c : Z) : Z := Z.min (Rman M c * 2 ^ (Rexp M c + 1074)) top.

Definition RZ (M c : Z) : Z :=
  match M with
  | Z0 => 0
  | Zpos _ => RV M c
  | Zneg _ => - RV (- M) c
  end.

(** Rounding of a number of units of [2^-1074], and of [2^-2148]. *)
Definition rnd (V : Z) : Z := RZ V (-1074).
Definition rnd2 (W : Z) : Z := RZ W (-2148).

(** The record [mrs] of a right shift stands for the rational [N / P]:
    quotient, round bit and sticky bit. *)
Definition Rep (N P : Z) (mrs : shr_record) : Prop :=
  shr_m mrs = N / P /\
  shr_r mrs = (P <=? 2 * (N mod P)) /\
  shr_s mrs = negb ((N mod P =? 0) || (2 * (N mod P) =? P)).

(** The last two steps of [binary_round_aux]: a mantissa rounded up to
    [2^53] moves to the next exponent, then the overflow test. *)
Definition carry (m E : Z) : Z * Z :=
  if 2 ^ 53 <=? m then (m / 2, E + 1) else (m, E).

Definition finish (s : bool) (me : Z * Z) : number :=
  match fst me with
  | Z0 => S754_zero s
  | Zpos p => if snd me <=? 971 then S754_finite s p (snd me) else S754_infinity s
  | Zneg _ => S754_nan
  end.

Definition round_pos (s : bool) (M c : Z) : number :=
  finish s (carry (Rman M c) (Rexp M c)).

(** The value of a double in units of [2^-1074]: an integer.  An infinity
    is worth [top], which is above every finite double. *)
Definition val (x : number) : Z :=
  match x with
  | S754_zero _ => 0
  | S754_nan => 0
  | S754_infinity s => cond_Zopp s top
  | S754_finite s m e => cond_Zopp s (Zpos m * 2 ^ (e + 1074))
  end.

(** A double that is not NaN. *)
Definition wf (x : number) : Prop := is_double x = true /\ x <> S754_nan.

(** The sign bit is clear, or the number is NaN. *)
Definition sign_ok (x : number) : bool :=
  match x with
  | S754_zero s | S754_infinity s | S754_finite s _ _ => negb s
  | S754_nan => true
  end.

(** [Math.ceil] on units of [2^-1074]. *)
Definition ceilZ (V : Z) : Z := - ((- V) / 2 ^ 1074) * 2 ^ 1074.


(** *** Quotients *)

(** [a / b < 2^beta], for positive [a] and [b] *)
Definition qlt (a b beta : Z) : bool :=
  a * 2 ^ Z.max (- beta) 0 <? b * 2 ^ Z.max beta 0.

(** the number of binary digits of the integer part of [a / b], negative
    when the quotient is a small fraction *)
Definition qdig (a b : Z) : Z :=
  let t := dig a - dig b in
  if qlt a b t then t else t + 1.

Definition Qexp (a b : Z) : Z := fexp64 (qdig a b).
Definition Qman (a b : Z) : Z :=
  rne (a * 2 ^ Z.max (- Qexp a b) 0) (b * 2 ^ Z.max (Qexp a b) 0).

(** the double nearest to [a / b], in units of [2^-1074], for [a] and [b]
    counted in the same unit *)
Definition RQ (a b : Z) : Z := Z.min (Qman a b * 2 ^ (Qexp a b + 1074)) top.

(** *** The correction factors of the recursion *)

(** [2^53], where adding one to a double stops changing it *)
Definition two53 : number := ofZ (2 ^ 53).

(** the correction factors that the recursion from [0] can reach *)
Definition reachable_cf (cf : number) : Prop :=
  is_double cf = true /\ isFinite cf = true /\ 0 <= val cf <= val two53.

(** [Math.floor] and [Math.round] on units of [2^-1074]. *)
Definition floorZ (V : Z) : Z := V / 2 ^ 1074 * 2 ^ 1074.
Definition roundZ (V : Z) : Z := (2 * V + 2 ^ 1074) / (2 * 2 ^ 1074) * 2 ^ 1074.

End Rounding.

Import JS Arithmetic Ticks Props Rounding.

Ltac zbool :=
  repeat match goal with
  | |- context [?a =? ?b] => destruct (Z.eqb_spec a b)
  | |- context [?a <=? ?b] => destruct (Z.leb_spec a b)
  | |- context [?a <? ?b] => destruct (Z.ltb_spec a b)
  end; cbn [negb orb andb]; try reflexivity; try lia.

(** ** Order of numbers *)

Lemma SFcompare_antisym (x y : number) :
  SFcompare y x = option_map CompOpp (SFcompare x y).
Proof.
  destruct x as [sx|sx| |sx mx ex], y as [sy|sy| |sy my ey]; simpl;
    try reflexivity;
    try (destruct sx; reflexivity);
    try (destruct sy; reflexivity);
    try (destruct sx, sy; reflexivity).
  fold (Pos.compare mx my). fold (Pos.compare my mx).
  rewrite (Pos.compare_antisym mx my), (Z.compare_antisym ex ey).
  destruct sx, sy; simpl; try reflexivity;
    destruct (ex ?= ey); simpl; try reflexivity.
Qed.

Lemma eq_sym_number (x y : number) : eq x y = eq y x.
Proof.
  unfold eq, SFeqb. rewrite (SFcompare_antisym y x).
  destruct (SFcompare y x) as [[| |]|]; reflexivity.
Qed.

Lemma compare_total (x y : number) :
  x <> S754_nan -> y <> S754_nan -> exists c, SFcompare x y = Some c.
Proof.
  intros Hx Hy.
  destruct x as [sx|sx| |sx mx ex], y as [sy|sy| |sy my ey]; simpl;
    try congruence; eexists; reflexivity.
Qed.

Lemma isFinite_not_nan (x : number) : isFinite x = true -> x <> S754_nan.
Proof. destruct x; simpl; congruence. Qed.

(** Two finite numbers that are not [===] are strictly ordered, one way
    only. *)
Lemma finite_ne_cases (a b : number) :
  isFinite a = true -> isFinite b = true -> eq a b = false ->
  (gt a b = true /\ gt b a = false) \/ (gt a b = false /\ gt b a = true).
Proof.
  intros Ha Hb Hne.
  destruct (compare_total a b (isFinite_not_nan _ Ha) (isFinite_not_nan _ Hb))
    as [c Hc].
  unfold gt, SFltb, eq, SFeqb in *.
  rewrite (SFcompare_antisym a b), Hc in *. simpl.
  destruct c; simpl; auto; discriminate.
Qed.

Lemma finite_lt_cases (a b : number) :
  isFinite a = true -> isFinite b = true -> eq a b = false ->
  (gt a b = true /\ lt b a = true) \/ (gt a b = false /\ lt a b = true).
Proof.
  intros Ha Hb Hne.
  destruct (finite_ne_cases a b Ha Hb Hne) as [[H1 H2]|[H1 H2]]; [left|right];
    split; try assumption.
Qed.

Lemma eq_infinity_finite (x : number) (s : bool) :
  isFinite x = true -> eq x (S754_infinity s) = false.
Proof. destruct x as [sx|sx| |sx m e]; try discriminate; destruct s; reflexivity. Qed.

Lemma lt_le (x y : number) : lt x y = true -> le x y = true.
Proof.
  unfold lt, le, SFltb, SFleb. destruct (SFcompare x y) as [[| |]|]; congruence.
Qed.

Lemma lt_not_nan (x y : number) : lt x y = true -> x <> S754_nan /\ y <> S754_nan.
Proof.
  unfold lt, SFltb. destruct x, y; simpl; try discriminate; split; discriminate.
Qed.

Lemma lt_pinf (y : number) : lt (S754_infinity false) y = false.
Proof. destruct y as [s|[|]| |s m e]; reflexivity. Qed.

Lemma ltb_nan_l (x : number) : SFltb S754_nan x = false.
Proof. reflexivity. Qed.

Lemma ltb_nan_r (x : number) : SFltb x S754_nan = false.
Proof. destruct x; reflexivity. Qed.

Lemma le_refl_finite (x : number) : isFinite x = true -> le x x = true.
Proof.
  destruct x as [s|s| |s m e]; try discriminate; intros _; [reflexivity|].
  unfold le, SFleb. cbn [SFcompare].
  rewrite Z.compare_refl. fold (Pos.compare m m). rewrite Pos.compare_refl.
  destruct s; reflexivity.
Qed.

Lemma div_by_zero_not_finite (x : number) : isFinite (div x zero) = false.
Proof. destruct x; reflexivity. Qed.

(** ** Rounding to the nearest integer *)

Lemma rne_between (N P : Z) : 0 < P -> N / P <= rne N P <= N / P + 1.
Proof.
  intros HP. unfold rne.
  destruct (2 * (N mod P) <? P); [lia|].
  destruct (P <? 2 * (N mod P)); [lia|].
  destruct (Z.even (N / P)); lia.
Qed.

Lemma rne_exact (a P : Z) : 0 < P -> rne (a * P) P = a.
Proof.
  intros HP. unfold rne.
  rewrite Z.mod_mul, Z.div_mul by lia.
  destruct (2 * 0 <? P) eqn:E; [reflexivity|].
  apply Z.ltb_ge in E. lia.
Qed.

Lemma rne_mono (N1 N2 P : Z) : 0 < P -> N1 <= N2 -> rne N1 P <= rne N2 P.
Proof.
  intros HP HN.
  assert (Hq : N1 / P <= N2 / P) by (apply Z.div_le_mono; lia).
  destruct (Z.eq_dec (N1 / P) (N2 / P)) as [Heq|Hneq].
  - assert (Hr : N1 mod P <= N2 mod P).
    { pose proof (Z.div_mod N1 P ltac:(lia)).
      pose proof (Z.div_mod N2 P ltac:(lia)). rewrite Heq in *. lia. }
    unfold rne. rewrite Heq.
    destruct (2 * (N1 mod P) <? P) eqn:E1;
    destruct (2 * (N2 mod P) <? P) eqn:E2;
    destruct (P <? 2 * (N1 mod P)) eqn:E3;
    destruct (P <? 2 * (N2 mod P)) eqn:E4;
    destruct (Z.even (N2 / P)); lia.
  - pose proof (rne_between N1 P HP). pose proof (rne_between N2 P HP). lia.
Qed.

Lemma rne_scale (N P j : Z) : 0 < P -> 0 < j -> rne (N * j) (P * j) = rne N P.
Proof.
  intros HP Hj. unfold rne.
  rewrite Z.div_mul_cancel_r by lia.
  rewrite Z.mul_mod_distr_r by lia.
  replace (2 * (N mod P * j) <? P * j) with (2 * (N mod P) <? P).
  2:{ destruct (2 * (N mod P) <? P) eqn:E; symmetry;
      [apply Z.ltb_lt in E; apply Z.ltb_lt; nia
      |apply Z.ltb_ge in E; apply Z.ltb_ge; nia]. }
  replace (P * j <? 2 * (N mod P * j)) with (P <? 2 * (N mod P)).
  2:{ destruct (P <? 2 * (N mod P)) eqn:E; symmetry;
      [apply Z.ltb_lt in E; apply Z.ltb_lt; nia
      |apply Z.ltb_ge in E; apply Z.ltb_ge; nia]. }
  reflexivity.
Qed.

Lemma rne_nonneg (N P : Z) : 0 < P -> 0 <= N -> 0 <= rne N P.
Proof.
  intros HP HN. pose proof (rne_between N P HP).
  pose proof (Z.div_pos N P HN HP). lia.
Qed.

Lemma rne_upper (N P B : Z) : 0 < P -> N <= B * P -> rne N P <= B.
Proof.
  intros HP H. rewrite <- (rne_exact B P HP). now apply rne_mono.
Qed.

Lemma rne_lower (N P B : Z) : 0 < P -> B * P <= N -> B <= rne N P.
Proof.
  intros HP H. rewrite <- (rne_exact B P HP). now apply rne_mono.
Qed.

Lemma rne_ratio_le (N1 P1 N2 P2 : Z) :
  0 < P1 -> 0 < P2 -> N1 * P2 <= N2 * P1 -> rne N1 P1 <= rne N2 P2.
Proof.
  intros H1 H2 H.
  rewrite <- (rne_scale N1 P1 P2 H1 H2), <- (rne_scale N2 P2 P1 H2 H1).
  rewrite (Z.mul_comm P2 P1). apply rne_mono; [lia|assumption].
Qed.

Lemma rne_ratio (N1 P1 N2 P2 : Z) :
  0 < P1 -> 0 < P2 -> N1 * P2 = N2 * P1 -> rne N1 P1 = rne N2 P2.
Proof.
  intros H1 H2 H. apply Z.le_antisymm; apply rne_ratio_le; lia.
Qed.

Lemma rne2_nonneg (M t : Z) : 0 <= M -> 0 <= rne2 M t.
Proof.
  intros HM. unfold rne2. destruct (0 <=? t) eqn:E.
  - apply Z.leb_le in E. apply Z.mul_nonneg_nonneg; [lia|]. apply Z.pow_nonneg; lia.
  - apply Z.leb_gt in E. apply rne_nonneg; [|lia]. apply Z.pow_pos_nonneg; lia.
Qed.

Lemma rne2_mono (M1 M2 t : Z) : M1 <= M2 -> rne2 M1 t <= rne2 M2 t.
Proof.
  intros H. unfold rne2. destruct (0 <=? t) eqn:E.
  - apply Z.leb_le in E. apply Z.mul_le_mono_nonneg_r; [|assumption].
    apply Z.pow_nonneg; lia.
  - apply Z.leb_gt in E. apply rne_mono; [|assumption].
    apply Z.pow_pos_nonneg; lia.
Qed.

Lemma rne2_shift (M t j : Z) : 0 <= j -> rne2 (M * 2 ^ j) (t - j) = rne2 M t.
Proof.
  intros Hj. unfold rne2.
  destruct (0 <=? t - j) eqn:E1; destruct (0 <=? t) eqn:E2;
    try apply Z.leb_le in E1; try apply Z.leb_le in E2;
    try apply Z.leb_gt in E1; try apply Z.leb_gt in E2.
  - rewrite <- Z.mul_assoc, <- Z.pow_add_r by lia. f_equal. f_equal. lia.
  - lia.
  - replace (M * 2 ^ j) with ((M * 2 ^ t) * 2 ^ (- (t - j))).
    + apply rne_exact. apply Z.pow_pos_nonneg; lia.
    + rewrite <- Z.mul_assoc, <- Z.pow_add_r by lia. f_equal. f_equal. lia.
  - replace (2 ^ (- (t - j))) with (2 ^ (- t) * 2 ^ j).
    + apply rne_scale; apply Z.pow_pos_nonneg; lia.
    + rewrite <- Z.pow_add_r by lia. f_equal. lia.
Qed.

(** M < 2^a gives rne2 M t <= 2^(a+t) when a + t >= 0 *)
Lemma rne2_upper (M t a : Z) : 0 <= a -> 0 <= a + t -> M <= 2 ^ a -> rne2 M t <= 2 ^ (a + t).
Proof.
  intros Ha Hat HM. unfold rne2. destruct (0 <=? t) eqn:E.
  - apply Z.leb_le in E. rewrite Z.pow_add_r by lia.
    apply Z.mul_le_mono_nonneg_r; [apply Z.pow_nonneg; lia|assumption].
  - apply Z.leb_gt in E. apply rne_upper; [apply Z.pow_pos_nonneg; lia|].
    rewrite <- Z.pow_add_r by lia. replace (a + t + - t) with a by lia. assumption.
Qed.

Lemma rne2_lower (M t a : Z) : 0 <= a -> 0 <= a + t -> 2 ^ a <= M -> 2 ^ (a + t) <= rne2 M t.
Proof.
  intros Ha Hat HM. unfold rne2. destruct (0 <=? t) eqn:E.
  - apply Z.leb_le in E. rewrite Z.pow_add_r by lia.
    apply Z.mul_le_mono_nonneg_r; [apply Z.pow_nonneg; lia|assumption].
  - apply Z.leb_gt in E. apply rne_lower; [apply Z.pow_pos_nonneg; lia|].
    rewrite <- Z.pow_add_r by lia. replace (a + t + - t) with a by lia. assumption.
Qed.

(** below one unit: rne2 M t <= 1 when M <= 2^a and a + t <= 0 *)
Lemma rne2_small (M t a : Z) : 0 <= a -> a + t <= 0 -> M <= 2 ^ a -> rne2 M t <= 1.
Proof.
  intros Ha Hat HM. unfold rne2. destruct (0 <=? t) eqn:E.
  - apply Z.leb_le in E. assert (a = 0) by lia. assert (t = 0) by lia. subst. simpl in *. lia.
  - apply Z.leb_gt in E. apply rne_upper; [apply Z.pow_pos_nonneg; lia|].
    rewrite Z.mul_1_l. etransitivity; [eassumption|].
    apply Z.pow_le_mono_r; lia.
Qed.

Lemma rne2_as_rne (M t : Z) : t <= 0 -> rne2 M t = rne M (2 ^ (- t)).
Proof.
  intros H. unfold rne2. destruct (Z.leb_spec 0 t); [|reflexivity].
  assert (t = 0) by lia. subst t. simpl. rewrite Z.mul_1_r.
  rewrite <- (Z.mul_1_r M) at 2. symmetry. apply rne_exact. lia.
Qed.

Lemma pow_transfer_lt (a b al be al' be' : Z) :
  0 <= al -> 0 <= be -> 0 <= al' -> 0 <= be' -> al' - al = be' - be ->
  a * 2 ^ al < b * 2 ^ be -> a * 2 ^ al' < b * 2 ^ be'.
Proof.
  intros H1 H2 H3 H4 Hd H.
  destruct (Z_le_gt_dec al al') as [Hle|Hgt].
  - replace al' with (al + (al' - al)) by lia.
    replace be' with (be + (al' - al)) by lia.
    rewrite !Z.pow_add_r, !Z.mul_assoc by lia.
    apply Z.mul_lt_mono_pos_r; [apply Z.pow_pos_nonneg; lia|assumption].
  - replace al with (al' + (al - al')) in H by lia.
    replace be with (be' + (al - al')) in H by lia.
    rewrite !Z.pow_add_r, !Z.mul_assoc in H by lia.
    apply Z.mul_lt_mono_pos_r in H; [assumption|apply Z.pow_pos_nonneg; lia].
Qed.

Lemma pow_transfer_le (a b al be al' be' : Z) :
  0 <= al -> 0 <= be -> 0 <= al' -> 0 <= be' -> al' - al = be' - be ->
  a * 2 ^ al <= b * 2 ^ be -> a * 2 ^ al' <= b * 2 ^ be'.
Proof.
  intros H1 H2 H3 H4 Hd H.
  destruct (Z_le_gt_dec al al') as [Hle|Hgt].
  - replace al' with (al + (al' - al)) by lia.
    replace be' with (be + (al' - al)) by lia.
    rewrite !Z.pow_add_r, !Z.mul_assoc by lia.
    apply Z.mul_le_mono_nonneg_r; [apply Z.pow_nonneg; lia|assumption].
  - replace al with (al' + (al - al')) in H by lia.
    replace be with (be' + (al - al')) in H by lia.
    rewrite !Z.pow_add_r, !Z.mul_assoc in H by lia.
    apply Z.mul_le_mono_pos_r in H; [assumption|apply Z.pow_pos_nonneg; lia].
Qed.

(** ** Rounding to the nearest double

    The value [RV M c] that [M * 2^c] rounds to does not depend on how the
    number is split into mantissa and exponent, grows with [M], and is the
    number itself when a double holds it. *)

Lemma dig_bounds (M : Z) : 0 < M -> 2 ^ (dig M - 1) <= M < 2 ^ dig M.
Proof.
  intros H. unfold dig. replace (Z.log2 M + 1 - 1) with (Z.log2 M) by lia.
  replace (Z.log2 M + 1) with (Z.succ (Z.log2 M)) by lia.
  now apply Z.log2_spec.
Qed.

Lemma dig_pos (M : Z) : 0 < M -> 1 <= dig M.
Proof. intros H. unfold dig. pose proof (Z.log2_nonneg M). lia. Qed.

Lemma dig_mono (M1 M2 : Z) : M1 <= M2 -> dig M1 <= dig M2.
Proof. intros H. unfold dig. pose proof (Z.log2_le_mono M1 M2 H). lia. Qed.

Lemma dig_shift (M j : Z) : 0 < M -> 0 <= j -> dig (M * 2 ^ j) = dig M + j.
Proof. intros HM Hj. unfold dig. rewrite Z.log2_mul_pow2 by lia. lia. Qed.

(** characterisation of dig by bounds *)
Lemma dig_unique (M d : Z) : 0 < M -> 2 ^ (d - 1) <= M < 2 ^ d -> dig M = d.
Proof.
  intros HM [H1 H2]. unfold dig.
  assert (0 <= d - 1).
  { destruct (Z_lt_le_dec (d - 1) 0) as [Hn|Hn]; [|assumption].
    exfalso. assert (d <= 0) by lia.
    destruct (Z.eq_dec d 0) as [->|Hd]; [simpl in H2; lia|].
    rewrite Z.pow_neg_r in H2 by lia. lia. }
  rewrite (Z.log2_unique M (d - 1)); [lia|assumption|].
  replace (Z.succ (d - 1)) with d by lia. split; assumption.
Qed.

Lemma dig_le_53 (m : Z) : 0 < m -> m < 2 ^ 53 -> dig m <= 53.
Proof.
  intros H0 H. pose proof (dig_bounds m H0) as [Hl _].
  destruct (Z_le_gt_dec (dig m) 53) as [|Hgt]; [assumption|exfalso].
  assert (2 ^ 53 <= 2 ^ (dig m - 1)) by (apply Z.pow_le_mono_r; lia). lia.
Qed.

Lemma dig_mul (a b : Z) : 0 < a -> 0 < b -> dig a + dig b - 1 <= dig (a * b).
Proof.
  intros Ha Hb.
  pose proof (dig_bounds a Ha) as [Hla _]. pose proof (dig_bounds b Hb) as [Hlb _].
  pose proof (dig_pos a Ha). pose proof (dig_pos b Hb).
  assert (Hp : 2 ^ (dig a - 1 + (dig b - 1)) <= a * b).
  { rewrite Z.pow_add_r by lia. apply Z.mul_le_mono_nonneg; try assumption;
      apply Z.pow_nonneg; lia. }
  unfold dig at 3.
  pose proof (Z.log2_le_mono _ _ Hp) as Hl.
  rewrite Z.log2_pow2 in Hl by lia. lia.
Qed.

Lemma fexp64_mono (a b : Z) : a <= b -> fexp64 a <= fexp64 b.
Proof. unfold fexp64. lia. Qed.

Lemma Rexp_shift (M c j : Z) : 0 < M -> 0 <= j -> Rexp (M * 2 ^ j) (c - j) = Rexp M c.
Proof.
  intros HM Hj. unfold Rexp. rewrite dig_shift by assumption. f_equal. lia.
Qed.

Lemma Rman_shift (M c j : Z) : 0 < M -> 0 <= j -> Rman (M * 2 ^ j) (c - j) = Rman M c.
Proof.
  intros HM Hj. unfold Rman. rewrite Rexp_shift by assumption.
  replace (c - j - Rexp M c) with (c - Rexp M c - j) by lia.
  now apply rne2_shift.
Qed.

Lemma RV_shift (M c j : Z) : 0 < M -> 0 <= j -> RV (M * 2 ^ j) (c - j) = RV M c.
Proof.
  intros HM Hj. unfold RV. now rewrite Rman_shift, Rexp_shift.
Qed.

Lemma Rexp_ge (M c : Z) : -1074 <= Rexp M c /\ dig M + c - 53 <= Rexp M c.
Proof. unfold Rexp, fexp64. lia. Qed.

Lemma Rman_nonneg (M c : Z) : 0 < M -> 0 <= Rman M c.
Proof. intros H. apply rne2_nonneg. lia. Qed.

Lemma Rman_upper (M c : Z) : 0 < M -> Rman M c <= 2 ^ 53.
Proof.
  intros HM. unfold Rman. pose proof (Rexp_ge M c) as [H1 H2].
  pose proof (dig_bounds M HM) as [_ Hb]. pose proof (dig_pos M HM).
  destruct (Z_le_gt_dec 0 (dig M + (c - Rexp M c))) as [Hs|Hs].
  - etransitivity; [apply (rne2_upper M _ (dig M)); lia|].
    apply Z.pow_le_mono_r; lia.
  - etransitivity; [apply (rne2_small M _ (dig M)); lia|].
    change 1 with (2 ^ 0). apply Z.pow_le_mono_r; lia.
Qed.

Lemma Rman_lower (M c : Z) : 0 < M -> -1074 < Rexp M c -> 2 ^ 52 <= Rman M c.
Proof.
  intros HM HE. unfold Rman.
  assert (HEq : Rexp M c = dig M + c - 53) by (unfold Rexp, fexp64 in *; lia).
  pose proof (dig_bounds M HM) as [Hb _]. pose proof (dig_pos M HM).
  replace 52 with ((dig M - 1) + (c - Rexp M c)) by lia.
  apply rne2_lower; lia.
Qed.

Lemma top_pos : 0 < top.
Proof. unfold top. apply Z.pow_pos_nonneg; lia. Qed.

Lemma scaled_lt_top (m E : Z) :
  m < 2 ^ 53 -> -1074 <= E <= 971 -> m * 2 ^ (E + 1074) < top.
Proof.
  intros Hm HE.
  assert (0 < 2 ^ (E + 1074)) by (apply Z.pow_pos_nonneg; lia).
  apply Z.lt_le_trans with (2 ^ 53 * 2 ^ (E + 1074)).
  - apply Z.mul_lt_mono_pos_r; assumption.
  - rewrite <- Z.pow_add_r by lia. unfold top. apply Z.pow_le_mono_r; lia.
Qed.

Lemma scaled_ge_top (m E : Z) :
  2 ^ 52 <= m -> 972 <= E -> top <= m * 2 ^ (E + 1074).
Proof.
  intros Hm HE.
  assert (0 < 2 ^ (E + 1074)) by (apply Z.pow_pos_nonneg; lia).
  apply Z.le_trans with (2 ^ 52 * 2 ^ (E + 1074)).
  - rewrite <- Z.pow_add_r by lia. unfold top. apply Z.pow_le_mono_r; lia.
  - apply Z.mul_le_mono_nonneg_r; lia.
Qed.

Lemma RV_nonneg (M c : Z) : 0 < M -> 0 <= RV M c.
Proof.
  intros HM. unfold RV. pose proof top_pos. pose proof (Rman_nonneg M c HM).
  pose proof (Rexp_ge M c) as [H1 _].
  assert (0 <= 2 ^ (Rexp M c + 1074)) by (apply Z.pow_nonneg; lia).
  apply Z.min_glb; [|lia]. now apply Z.mul_nonneg_nonneg.
Qed.

Lemma RV_mono (M1 M2 c : Z) : 0 < M1 -> M1 <= M2 -> RV M1 c <= RV M2 c.
Proof.
  intros H1 H12. assert (H2 : 0 < M2) by lia.
  unfold RV. apply Z.min_le_compat_r.
  assert (HE : Rexp M1 c <= Rexp M2 c).
  { unfold Rexp. apply fexp64_mono. pose proof (dig_mono M1 M2 H12). lia. }
  pose proof (Rexp_ge M1 c) as [Hm1 _]. pose proof (Rexp_ge M2 c) as [Hm2 _].
  destruct (Z.eq_dec (Rexp M1 c) (Rexp M2 c)) as [Heq|Hne].
  - unfold Rman. rewrite Heq.
    apply Z.mul_le_mono_nonneg_r; [apply Z.pow_nonneg; lia|].
    now apply rne2_mono.
  - assert (Hlt : Rexp M1 c + 1 <= Rexp M2 c) by lia.
    pose proof (Rman_upper M1 c H1) as Hu.
    pose proof (Rman_lower M2 c H2 ltac:(lia)) as Hl.
    transitivity (2 ^ 53 * 2 ^ (Rexp M1 c + 1074)).
    { apply Z.mul_le_mono_nonneg_r; [apply Z.pow_nonneg; lia|assumption]. }
    transitivity (2 ^ 52 * 2 ^ (Rexp M2 c + 1074)).
    { rewrite <- !Z.pow_add_r by lia. apply Z.pow_le_mono_r; lia. }
    apply Z.mul_le_mono_nonneg_r; [apply Z.pow_nonneg; lia|assumption].
Qed.

Lemma RZ_mono (M1 M2 c : Z) : M1 <= M2 -> RZ M1 c <= RZ M2 c.
Proof.
  intros H. destruct M1 as [|p1|p1], M2 as [|p2|p2]; simpl; try lia.
  - apply RV_nonneg; lia.
  - apply RV_mono; lia.
  - pose proof (RV_nonneg (Zpos p1) c). lia.
  - pose proof (RV_nonneg (Zpos p1) c). pose proof (RV_nonneg (Zpos p2) c). lia.
  - pose proof (RV_mono (Zpos p2) (Zpos p1) c). lia.
Qed.

Lemma RZ_pos (M c : Z) : 0 < M -> RZ M c = RV M c.
Proof. destruct M; simpl; intros; try lia; reflexivity. Qed.

Lemma RZ_neg (M c : Z) : M < 0 -> RZ M c = - RV (- M) c.
Proof. destruct M; simpl; intros; try lia; reflexivity. Qed.

Lemma RZ_opp (M c : Z) : RZ (- M) c = - RZ M c.
Proof. destruct M; simpl; try reflexivity. now rewrite Z.opp_involutive. Qed.

Lemma RZ_cond_opp (s : bool) (M c : Z) : RZ (cond_Zopp s M) c = cond_Zopp s (RZ M c).
Proof. destruct s; simpl; [apply RZ_opp|reflexivity]. Qed.

Lemma RZ_shift (M c j : Z) : 0 <= j -> RZ (M * 2 ^ j) (c - j) = RZ M c.
Proof.
  intros Hj. assert (0 < 2 ^ j) by (apply Z.pow_pos_nonneg; lia).
  destruct (Z.lt_trichotomy M 0) as [Hn|[->|Hp]].
  - rewrite (RZ_neg (M * 2 ^ j)), (RZ_neg M) by nia.
    rewrite <- Z.mul_opp_l. f_equal. apply RV_shift; lia.
  - reflexivity.
  - rewrite (RZ_pos (M * 2 ^ j)), (RZ_pos M) by nia. apply RV_shift; lia.
Qed.

(** a representable value is left unchanged *)
Lemma RV_exact (M c : Z) :
  0 < M -> Rexp M c <= c -> M * 2 ^ (c + 1074) < top -> RV M c = M * 2 ^ (c + 1074).
Proof.
  intros HM HE Hlt. unfold RV, Rman, rne2.
  pose proof (Rexp_ge M c) as [H1 _].
  destruct (0 <=? c - Rexp M c) eqn:E; [|apply Z.leb_gt in E; lia].
  rewrite <- Z.mul_assoc, <- Z.pow_add_r by lia.
  replace (c - Rexp M c + (Rexp M c + 1074)) with (c + 1074) by lia.
  lia.
Qed.

Lemma rnd_mono (V1 V2 : Z) : V1 <= V2 -> rnd V1 <= rnd V2.
Proof. apply RZ_mono. Qed.

Lemma rnd2_mono (V1 V2 : Z) : V1 <= V2 -> rnd2 V1 <= rnd2 V2.
Proof. apply RZ_mono. Qed.

(** ** Rounding a quotient *)

Lemma qlt_true (a b beta : Z) :
  qlt a b beta = true <-> a * 2 ^ Z.max (- beta) 0 < b * 2 ^ Z.max beta 0.
Proof. unfold qlt. apply Z.ltb_lt. Qed.

Lemma qlt_false (a b beta : Z) :
  qlt a b beta = false <-> b * 2 ^ Z.max beta 0 <= a * 2 ^ Z.max (- beta) 0.
Proof. unfold qlt. apply Z.ltb_ge. Qed.

Lemma qlt_mono (a b beta beta' : Z) :
  0 < b -> beta <= beta' -> qlt a b beta = true -> qlt a b beta' = true.
Proof.
  intros Hb Hle H. apply qlt_true in H. apply qlt_true.
  apply (pow_transfer_lt a b (Z.max (- beta) 0) (Z.max beta 0 + (beta' - beta))); try lia.
  eapply Z.lt_le_trans; [exact H|].
  apply Z.mul_le_mono_nonneg_l; [lia|]. apply Z.pow_le_mono_r; lia.
Qed.

Lemma qlt_ratio (a1 b1 a2 b2 beta : Z) :
  0 < b1 -> 0 < b2 -> a1 * b2 <= a2 * b1 ->
  qlt a2 b2 beta = true -> qlt a1 b1 beta = true.
Proof.
  intros H1 H2 Hr H. apply qlt_true in H. apply qlt_true.
  assert (0 < 2 ^ Z.max (- beta) 0) by (apply Z.pow_pos_nonneg; lia).
  assert (0 < 2 ^ Z.max beta 0) by (apply Z.pow_pos_nonneg; lia).
  set (A := 2 ^ Z.max (- beta) 0) in *. set (B := 2 ^ Z.max beta 0) in *.
  apply (Z.mul_lt_mono_pos_r b2); [assumption|].
  apply Z.le_lt_trans with (a2 * A * b1); [nia|]. nia.
Qed.

Lemma qdig_spec (a b : Z) :
  0 < a -> 0 < b -> qlt a b (qdig a b) = true /\ qlt a b (qdig a b - 1) = false.
Proof.
  intros Ha Hb.
  pose proof (dig_bounds a Ha) as [Hla Hua]. pose proof (dig_bounds b Hb) as [Hlb Hub].
  pose proof (dig_pos a Ha). pose proof (dig_pos b Hb).
  set (t := dig a - dig b).
  assert (Hup : qlt a b (t + 1) = true).
  { apply qlt_true.
    apply Z.lt_le_trans with (2 ^ dig a * 2 ^ Z.max (- (t + 1)) 0).
    - apply Z.mul_lt_mono_pos_r; [apply Z.pow_pos_nonneg; lia|assumption].
    - apply Z.le_trans with (2 ^ (dig b - 1) * 2 ^ Z.max (t + 1) 0).
      + rewrite <- !Z.pow_add_r by lia. apply Z.pow_le_mono_r; unfold t; lia.
      + apply Z.mul_le_mono_nonneg_r; [apply Z.pow_nonneg; lia|assumption]. }
  assert (Hlo : qlt a b (t - 1) = false).
  { apply qlt_false.
    apply Z.le_trans with (2 ^ dig b * 2 ^ Z.max (t - 1) 0).
    - apply Z.mul_le_mono_nonneg_r; [apply Z.pow_nonneg; lia|lia].
    - apply Z.le_trans with (2 ^ (dig a - 1) * 2 ^ Z.max (- (t - 1)) 0).
      + rewrite <- !Z.pow_add_r by lia. apply Z.pow_le_mono_r; unfold t; lia.
      + apply Z.mul_le_mono_nonneg_r; [apply Z.pow_nonneg; lia|assumption]. }
  unfold qdig. fold t. destruct (qlt a b t) eqn:E.
  - split; assumption.
  - split; [assumption|]. now replace (t + 1 - 1) with t by lia.
Qed.

Lemma qdig_le (a b beta : Z) :
  0 < a -> 0 < b -> qlt a b beta = true -> qdig a b <= beta.
Proof.
  intros Ha Hb H. destruct (qdig_spec a b Ha Hb) as [_ H2].
  destruct (Z_le_gt_dec (qdig a b) beta) as [|Hgt]; [assumption|exfalso].
  rewrite (qlt_mono a b beta (qdig a b - 1) Hb ltac:(lia) H) in H2. discriminate.
Qed.

Lemma qdig_gt (a b beta : Z) :
  0 < a -> 0 < b -> qlt a b beta = false -> beta < qdig a b.
Proof.
  intros Ha Hb H. destruct (qdig_spec a b Ha Hb) as [H1 _].
  destruct (Z_lt_le_dec beta (qdig a b)) as [|Hle]; [assumption|exfalso].
  rewrite (qlt_mono a b (qdig a b) beta Hb Hle H1) in H. discriminate.
Qed.

Lemma qdig_mono (a1 b1 a2 b2 : Z) :
  0 < a1 -> 0 < b1 -> 0 < a2 -> 0 < b2 -> a1 * b2 <= a2 * b1 ->
  qdig a1 b1 <= qdig a2 b2.
Proof.
  intros Ha1 Hb1 Ha2 Hb2 Hr. apply qdig_le; try assumption.
  apply (qlt_ratio a1 b1 a2 b2); try assumption.
  now apply qdig_spec.
Qed.

Lemma Qexp_ge (a b : Z) : -1074 <= Qexp a b /\ qdig a b - 53 <= Qexp a b.
Proof. unfold Qexp, fexp64. lia. Qed.

Lemma Qman_nonneg (a b : Z) : 0 < a -> 0 < b -> 0 <= Qman a b.
Proof.
  intros Ha Hb. unfold Qman. apply rne_nonneg.
  - apply Z.mul_pos_pos; [assumption|apply Z.pow_pos_nonneg; lia].
  - apply Z.mul_nonneg_nonneg; [lia|apply Z.pow_nonneg; lia].
Qed.

Lemma Qman_upper (a b : Z) : 0 < a -> 0 < b -> Qman a b <= 2 ^ 53.
Proof.
  intros Ha Hb. unfold Qman. set (E := Qexp a b).
  pose proof (Qexp_ge a b) as [H1 H2]. fold E in H1, H2.
  destruct (qdig_spec a b Ha Hb) as [Hq _]. apply qlt_true in Hq.
  set (beta := qdig a b) in *.
  assert (HP : 0 < b * 2 ^ Z.max E 0)
    by (apply Z.mul_pos_pos; [assumption|apply Z.pow_pos_nonneg; lia]).
  destruct (Z_le_gt_dec 0 (beta - E)) as [Hs|Hs].
  - apply Z.le_trans with (2 ^ (beta - E)); [|apply Z.pow_le_mono_r; lia].
    apply rne_upper; [assumption|].
    rewrite (Z.mul_comm (2 ^ (beta - E))), <- Z.mul_assoc, <- Z.pow_add_r by lia.
    apply Z.lt_le_incl.
    apply (pow_transfer_lt a b (Z.max (- beta) 0) (Z.max beta 0)); try lia.
  - apply Z.le_trans with 1; [|lia].
    apply rne_upper; [assumption|]. rewrite Z.mul_1_l. apply Z.lt_le_incl.
    apply (pow_transfer_lt a b (Z.max (- beta) 0) (Z.max beta 0 + (E - beta))); try lia.
    eapply Z.lt_le_trans; [exact Hq|].
    apply Z.mul_le_mono_nonneg_l; [lia|]. apply Z.pow_le_mono_r; lia.
Qed.

Lemma Qman_lower (a b : Z) : 0 < a -> 0 < b -> -1074 < Qexp a b -> 2 ^ 52 <= Qman a b.
Proof.
  intros Ha Hb HE. unfold Qman. set (E := Qexp a b) in *.
  assert (HEq : E = qdig a b - 53) by (unfold E, Qexp, fexp64 in *; lia).
  destruct (qdig_spec a b Ha Hb) as [_ Hq]. apply qlt_false in Hq.
  set (beta := qdig a b) in *.
  apply rne_lower.
  - apply Z.mul_pos_pos; [assumption|apply Z.pow_pos_nonneg; lia].
  - rewrite (Z.mul_comm (2 ^ 52)), <- Z.mul_assoc, <- Z.pow_add_r by lia.
    apply (pow_transfer_le b a (Z.max (beta - 1) 0) (Z.max (- (beta - 1)) 0)); try lia.
Qed.

Lemma RQ_mono (a1 b1 a2 b2 : Z) :
  0 < a1 -> 0 < b1 -> 0 < a2 -> 0 < b2 -> a1 * b2 <= a2 * b1 ->
  RQ a1 b1 <= RQ a2 b2.
Proof.
  intros Ha1 Hb1 Ha2 Hb2 Hr. unfold RQ. apply Z.min_le_compat_r.
  pose proof (qdig_mono a1 b1 a2 b2 Ha1 Hb1 Ha2 Hb2 Hr) as Hd.
  assert (HE : Qexp a1 b1 <= Qexp a2 b2) by (unfold Qexp; now apply fexp64_mono).
  pose proof (Qexp_ge a1 b1) as [Hm1 _]. pose proof (Qexp_ge a2 b2) as [Hm2 _].
  destruct (Z.eq_dec (Qexp a1 b1) (Qexp a2 b2)) as [Heq|Hne].
  - unfold Qman. rewrite Heq. set (E := Qexp a2 b2) in *.
    apply Z.mul_le_mono_nonneg_r; [apply Z.pow_nonneg; lia|].
    assert (0 < 2 ^ Z.max (- E) 0) by (apply Z.pow_pos_nonneg; lia).
    assert (0 < 2 ^ Z.max E 0) by (apply Z.pow_pos_nonneg; lia).
    apply rne_ratio_le; try (apply Z.mul_pos_pos; assumption).
    set (A := 2 ^ Z.max (- E) 0) in *. set (B := 2 ^ Z.max E 0) in *.
    replace (a1 * A * (b2 * B)) with (a1 * b2 * (A * B)) by ring.
    replace (a2 * A * (b1 * B)) with (a2 * b1 * (A * B)) by ring.
    apply Z.mul_le_mono_nonneg_r; [nia|assumption].
  - pose proof (Qman_upper a1 b1 Ha1 Hb1) as Hu.
    pose proof (Qman_lower a2 b2 Ha2 Hb2 ltac:(lia)) as Hl.
    transitivity (2 ^ 53 * 2 ^ (Qexp a1 b1 + 1074)).
    { apply Z.mul_le_mono_nonneg_r; [apply Z.pow_nonneg; lia|assumption]. }
    transitivity (2 ^ 52 * 2 ^ (Qexp a2 b2 + 1074)).
    { rewrite <- !Z.pow_add_r by lia. apply Z.pow_le_mono_r; lia. }
    apply Z.mul_le_mono_nonneg_r; [apply Z.pow_nonneg; lia|assumption].
Qed.

(** ** The rounding of the library

    [binary_round_aux] shifts the mantissa right one bit at a time and keeps a
    round bit and a sticky bit; [Rep] is the invariant of that loop, and
    [bra_general] says what comes out. *)

Lemma fexp_eq (e : Z) : fexp prec emax e = fexp64 e.
Proof. reflexivity. Qed.

Lemma digits2_size (p : positive) : digits2_pos p = Pos.size p.
Proof. induction p; simpl; congruence. Qed.

Lemma digits2_dig (p : positive) : Zpos (digits2_pos p) = dig (Zpos p).
Proof.
  rewrite digits2_size. unfold dig. destruct p; simpl.
  - rewrite Pos.add_1_r. reflexivity.
  - rewrite Pos.add_1_r. reflexivity.
  - reflexivity.
Qed.

Lemma Zdigits2_dig (M : Z) : 0 < M -> Zdigits2 M = dig M.
Proof. destruct M; try lia. intros _. apply digits2_dig. Qed.

Lemma Zdigits2_nonneg_bound (q : Z) : 0 <= q -> 0 <= Zdigits2 q /\ q < 2 ^ Zdigits2 q.
Proof.
  intros H. destruct (Z.eq_dec q 0) as [->|Hq]; [simpl; lia|].
  rewrite Zdigits2_dig by lia. pose proof (dig_bounds q ltac:(lia)).
  pose proof (dig_pos q ltac:(lia)). lia.
Qed.

Lemma iter_xO (m d : positive) : Zpos (Pos.iter xO m d) = Zpos m * 2 ^ Zpos d.
Proof.
  induction d using Pos.peano_ind.
  - simpl. lia.
  - rewrite Pos.iter_succ. rewrite Pos2Z.inj_xO, IHd.
    rewrite Pos2Z.inj_succ, Z.pow_succ_r by lia. lia.
Qed.

Lemma shl_align_spec (m : positive) (e e' : Z) :
  exists m', shl_align m e e' = (m', Z.min e e') /\
             Zpos m' = Zpos m * 2 ^ (e - Z.min e e').
Proof.
  unfold shl_align. destruct (e' - e) eqn:E.
  - exists m. replace (Z.min e e') with e by lia. split; [reflexivity|].
    rewrite Z.sub_diag. simpl. lia.
  - exists m. replace (Z.min e e') with e by lia. split; [reflexivity|].
    rewrite Z.sub_diag. simpl. lia.
  - exists (Pos.iter xO m p). replace (Z.min e e') with e' by lia.
    split; [reflexivity|]. rewrite iter_xO. f_equal. f_equal. lia.
Qed.

Lemma shl_align_fst (m : positive) (e ez : Z) :
  ez <= e -> Zpos (fst (shl_align m e ez)) = Zpos m * 2 ^ (e - ez).
Proof.
  intros H. destruct (shl_align_spec m e ez) as [m' [H1 H2]].
  rewrite H1. cbn [fst]. rewrite H2. f_equal. f_equal. lia.
Qed.

Lemma iter_pos_iter {A : Type} (f : A -> A) (p : positive) (x : A) :
  iter_pos f p x = Pos.iter f x p.
Proof.
  revert x; induction p; intros x; simpl.
  - rewrite !IHp. now rewrite <- !Pos.iter_swap.
  - now rewrite !IHp.
  - reflexivity.
Qed.

Lemma shr_1_nonneg (m : Z) (r s : bool) :
  0 <= m ->
  shr_1 (Build_shr_record m r s) = Build_shr_record (Z.div2 m) (Z.odd m) (r || s).
Proof.
  intros H. destruct m as [|[p|p|]|p]; try reflexivity. lia.
Qed.

Lemma Rep_init (M : Z) : Rep M 1 (Build_shr_record M false false).
Proof.
  unfold Rep; simpl. rewrite Z.div_1_r, Z.mod_1_r. repeat split.
Qed.

Lemma Rep_shr_1 (N P : Z) (mrs : shr_record) :
  0 <= N -> 0 < P -> Rep N P mrs -> Rep N (2 * P) (shr_1 mrs).
Proof.
  intros HN HP [Hm [Hr Hs]]. destruct mrs as [m r s]; cbn [shr_m shr_r shr_s] in Hm, Hr, Hs.
  assert (Hq : 0 <= N / P) by (apply Z.div_pos; lia).
  pose proof (Z.mod_pos_bound N P HP) as Hb.
  pose proof (Z.div_mod N P ltac:(lia)) as HNe.
  pose proof (Z.div_mod (N / P) 2 ltac:(lia)) as Hqe.
  pose proof (Z.mod_pos_bound (N / P) 2 ltac:(lia)) as Ho.
  assert (Hd : N / (2 * P) = N / P / 2).
  { rewrite Z.mul_comm. symmetry. apply Z.div_div; lia. }
  assert (Hmod : N mod (2 * P) = (N / P) mod 2 * P + N mod P).
  { symmetry. apply (Z.mod_unique_pos N (2 * P) (N / P / 2)); nia. }
  rewrite shr_1_nonneg by lia.
  unfold Rep; cbn [shr_m shr_r shr_s]. rewrite Hd, Hmod. subst m r s.
  rewrite Z.div2_div. split; [reflexivity|].
  rewrite (Zmod_odd (N / P)).
  destruct (Z.odd (N / P)).
  - rewrite Z.mul_1_l. split; zbool.
  - rewrite Z.mul_0_l, Z.add_0_l. split; zbool.
Qed.

Lemma Rep_iter (N P : Z) (mrs : shr_record) (k : positive) :
  0 <= N -> 0 < P -> Rep N P mrs -> Rep N (P * 2 ^ Zpos k) (iter_pos shr_1 k mrs).
Proof.
  intros HN HP H. rewrite iter_pos_iter.
  induction k using Pos.peano_ind.
  - simpl. rewrite Z.mul_comm. change (2 ^ 1) with 2. now apply Rep_shr_1.
  - rewrite Pos.iter_succ, Pos2Z.inj_succ, Z.pow_succ_r by lia.
    replace (P * (2 * 2 ^ Zpos k)) with (2 * (P * 2 ^ Zpos k)) by lia.
    apply Rep_shr_1; [lia| |assumption].
    apply Z.mul_pos_pos; [lia|]. apply Z.pow_pos_nonneg; lia.
Qed.

Lemma Rep_round (N P : Z) (mrs : shr_record) :
  0 < P -> Rep N P mrs ->
  round_nearest_even (shr_m mrs) (loc_of_shr_record mrs) = rne N P.
Proof.
  intros HP [Hm [Hr Hs]]. destruct mrs as [m r s].
  cbn [shr_m shr_r shr_s] in Hm, Hr, Hs. cbn [shr_m].
  pose proof (Z.mod_pos_bound N P HP) as Hb.
  unfold rne. subst m r s. zbool.
Qed.

Lemma shr_Rep (N P : Z) (mrs : shr_record) (e k : Z) :
  0 <= N -> 0 < P -> 0 <= k -> Rep N P mrs ->
  exists mrs', shr mrs e k = (mrs', e + k) /\ Rep N (P * 2 ^ k) mrs'.
Proof.
  intros HN HP Hk H. unfold shr. destruct k as [|p|p]; try lia.
  - eexists; split; [rewrite Z.add_0_r; reflexivity|].
    now rewrite Z.mul_1_r.
  - eexists; split; [reflexivity|]. now apply Rep_iter.
Qed.

Lemma shr_noop (mrs : shr_record) (e k : Z) : k <= 0 -> shr mrs e k = (mrs, e).
Proof. intros H. unfold shr. destruct k; try reflexivity. lia. Qed.

Lemma new_location_Rep (D r q : Z) :
  0 < D -> 0 <= r < D -> 0 <= q ->
  Rep (q * D + r) D (shr_record_of_loc q (new_location D r)).
Proof.
  intros HD Hr Hq.
  assert (Hdiv : (q * D + r) / D = q).
  { rewrite Z.add_comm, Z.div_add by lia. rewrite Z.div_small by lia. lia. }
  assert (Hmod : (q * D + r) mod D = r).
  { rewrite Z.add_comm, Z.mod_add by lia. apply Z.mod_small; lia. }
  unfold Rep. rewrite Hdiv, Hmod.
  unfold new_location. destruct (Z.even D) eqn:Hev.
  - unfold new_location_even. destruct (Z.eqb_spec r 0) as [->|Hr0].
    + cbn. repeat split. symmetry. apply Z.leb_gt. lia.
    + destruct (Z.compare_spec (2 * r) D) as [H|H|H]; cbn [shr_record_of_loc shr_m shr_r shr_s];
        repeat split; zbool.
  - unfold new_location_odd. destruct (Z.eqb_spec r 0) as [->|Hr0].
    + cbn. repeat split. symmetry. apply Z.leb_gt. lia.
    + assert (Hodd : 2 * r <> D).
      { intros <-. rewrite Z.even_mul in Hev. discriminate. }
      destruct (Z.compare_spec (2 * r + 1) D) as [H|H|H]; cbn [shr_record_of_loc shr_m shr_r shr_s];
        repeat split; zbool.
Qed.

Lemma shr_record_sign (s : bool) (q e : Z) (l : location) :
  match binary_round_aux prec emax s q e l with
  | S754_zero s' | S754_infinity s' | S754_finite s' _ _ => s' = s
  | S754_nan => True
  end.
Proof.
  unfold binary_round_aux.
  destruct (shr_fexp prec emax q e l) as [mrs' e'].
  destruct (shr_fexp prec emax _ e' loc_Exact) as [mrs'' e''].
  destruct (shr_m mrs''); try reflexivity; try exact I.
  destruct (e'' <=? emax - prec); reflexivity.
Qed.

(** the shape, validity and value of a rounded mantissa once the carry is
    propagated and the overflow is tested *)
Lemma finish_carry_cases (s : bool) (m1 E : Z) :
  0 <= m1 <= 2 ^ 53 -> -1074 <= E -> (-1074 < E -> 2 ^ 52 <= m1) ->
  let r := finish s (carry m1 E) in
  is_double r = true /\
  val r = cond_Zopp s (Z.min (m1 * 2 ^ (E + 1074)) top) /\
  (r = S754_zero s \/ r = S754_infinity s \/ exists m e, r = S754_finite s m e).
Proof.
  intros [Hn Hu] Hemin Hl. cbv zeta.
  assert (Hpow : 0 < 2 ^ (E + 1074)) by (apply Z.pow_pos_nonneg; lia).
  unfold carry. destruct (Z.leb_spec (2 ^ 53) m1) as [Hc|Hc].
  - assert (Hm1 : m1 = 2 ^ 53) by lia. rewrite Hm1.
    change (2 ^ 53 / 2) with (2 ^ 52). unfold finish; cbn [fst snd].
    assert (Hval : 2 ^ 52 * 2 ^ (E + 1 + 1074) = 2 ^ 53 * 2 ^ (E + 1074)).
    { rewrite <- !Z.pow_add_r by lia. f_equal. lia. }
    change (2 ^ 52) with (Zpos 4503599627370496) in *.
    destruct (Z.leb_spec (E + 1) 971) as [Hf|Hf].
    + split; [|split].
      * unfold is_double, valid_binary, bounded, canonical_mantissa.
        rewrite fexp_eq. change (Zpos (digits2_pos 4503599627370496)) with 53.
        apply andb_true_intro; split; [apply Z.eqb_eq; unfold fexp64; lia|].
        apply Z.leb_le. change (emax - prec) with 971. lia.
      * cbn [val]. f_equal. rewrite <- Hval.
        pose proof (scaled_lt_top (Zpos 4503599627370496) (E + 1) ltac:(reflexivity)).
        lia.
      * right; right. eauto.
    + split; [reflexivity|split].
      * cbn [val]. f_equal. rewrite <- Hval.
        pose proof (scaled_ge_top (Zpos 4503599627370496) (E + 1) ltac:(discriminate)).
        lia.
      * right; left; reflexivity.
  - unfold finish; cbn [fst snd]. destruct m1 as [|p|p] eqn:Ep; [| |lia].
    + split; [reflexivity|split]; [|left; reflexivity].
      cbn [val]. rewrite Z.mul_0_l. pose proof top_pos.
      rewrite Z.min_l by lia. destruct s; reflexivity.
    + destruct (Z.leb_spec E 971) as [Hf|Hf].
      * split; [|split].
        -- unfold is_double, valid_binary, bounded, canonical_mantissa.
           rewrite fexp_eq, digits2_dig.
           pose proof (dig_le_53 (Zpos p) ltac:(lia) Hc) as Hd.
           apply andb_true_intro; split.
           ++ apply Z.eqb_eq. unfold fexp64.
              destruct (Z.eq_dec E (-1074)) as [He|He]; [lia|].
              specialize (Hl ltac:(lia)).
              assert (dig (Zpos p) = 53); [|lia].
              apply dig_unique; [lia|]. split; [|assumption]. exact Hl.
           ++ apply Z.leb_le. change (emax - prec) with 971. lia.
        -- cbn [val]. f_equal.
           pose proof (scaled_lt_top (Zpos p) E Hc). lia.
        -- right; right; eauto.
      * split; [reflexivity|split]; [|right; left; reflexivity].
        cbn [val]. f_equal. specialize (Hl ltac:(lia)).
        pose proof (scaled_ge_top (Zpos p) E Hl). lia.
Qed.

(** [binary_round_aux] on a mantissa [q] and a location that stand for the
    rational [N / D] *)
Lemma bra_general (s : bool) (q e : Z) (l : location) (N D : Z) :
  0 <= N -> 0 < D -> Rep N D (shr_record_of_loc q l) ->
  e <= fexp64 (Zdigits2 q + e) ->
  let E := fexp64 (Zdigits2 q + e) in
  let m1 := rne N (D * 2 ^ (E - e)) in
  binary_round_aux prec emax s q e l = finish s (carry m1 E) /\
  0 <= m1 <= 2 ^ 53 /\ (-1074 < E -> 2 ^ 52 <= m1).
Proof.
  intros HN HD HRep HE. cbv zeta.
  set (E := fexp64 (Zdigits2 q + e)) in *.
  assert (Hq : q = N / D) by (destruct HRep as [H _]; destruct l as [|[| |]]; exact H).
  assert (Hq0 : 0 <= q) by (rewrite Hq; apply Z.div_pos; lia).
  pose proof (Zdigits2_nonneg_bound q Hq0) as [Hd0 Hdq].
  set (dq := Zdigits2 q) in *.
  assert (Hemin : -1074 <= E) by (unfold E, fexp64; lia).
  assert (HEd : dq + e - 53 <= E) by (unfold E, fexp64; lia).
  assert (HP : 0 < D * 2 ^ (E - e)).
  { apply Z.mul_pos_pos; [lia|]. apply Z.pow_pos_nonneg; lia. }
  assert (HNq : q * D <= N < (q + 1) * D).
  { rewrite Hq. pose proof (Z.div_mod N D ltac:(lia)).
    pose proof (Z.mod_pos_bound N D HD). nia. }
  set (m1 := rne N (D * 2 ^ (E - e))).
  assert (Hm1 : 0 <= m1 <= 2 ^ 53).
  { split; [apply rne_nonneg; lia|].
    assert (HNu : N <= 2 ^ dq * D) by nia.
    destruct (Z_le_gt_dec (E - e) dq) as [Hs|Hs].
    - apply Z.le_trans with (2 ^ (dq - (E - e))).
      + apply rne_upper; [assumption|].
        replace (2 ^ (dq - (E - e)) * (D * 2 ^ (E - e))) with (2 ^ dq * D); [assumption|].
        replace dq with ((dq - (E - e)) + (E - e)) at 1 by lia.
        rewrite Z.pow_add_r by lia. ring.
      + apply Z.pow_le_mono_r; lia.
    - apply Z.le_trans with 1; [|lia].
      apply rne_upper; [assumption|]. rewrite Z.mul_1_l.
      apply Z.le_trans with (2 ^ dq * D); [assumption|].
      rewrite (Z.mul_comm D). apply Z.mul_le_mono_nonneg_r; [lia|].
      apply Z.pow_le_mono_r; lia. }
  assert (Hlow : -1074 < E -> 2 ^ 52 <= m1).
  { intros Hn. assert (HEq : E = dq + e - 53) by (unfold E, fexp64 in *; lia).
    assert (Hq1 : 0 < q).
    { destruct (Z.eq_dec q 0) as [Hz|Hz]; [|lia].
      exfalso. unfold dq in HEq. rewrite Hz in HEq. simpl in HEq. lia. }
    unfold dq in *. rewrite Zdigits2_dig in * by assumption.
    pose proof (dig_bounds q Hq1) as [Hl _].
    apply rne_lower; [assumption|].
    apply Z.le_trans with (q * D); [|lia].
    replace (2 ^ 52 * (D * 2 ^ (E - e))) with (2 ^ (52 + (E - e)) * D)
      by (rewrite Z.pow_add_r by lia; ring).
    apply Z.mul_le_mono_nonneg_r; [lia|].
    replace (52 + (E - e)) with (dig q - 1) by lia. assumption. }
  split; [|split; assumption].
  unfold binary_round_aux, shr_fexp. rewrite fexp_eq. fold dq. fold E.
  destruct (shr_Rep N D _ e (E - e) HN HD ltac:(lia) HRep) as [mrs [Hshr HR]].
  rewrite Hshr. rewrite (Rep_round N _ mrs HP HR). fold m1.
  replace (e + (E - e)) with E by lia.
  rewrite fexp_eq. unfold carry.
  destruct (Z.leb_spec (2 ^ 53) m1) as [Hc|Hc].
  - assert (Hm1e : m1 = 2 ^ 53) by lia. rewrite Hm1e.
    replace (fexp64 (Zdigits2 (2 ^ 53) + E) - E) with 1
      by (change (Zdigits2 (2 ^ 53)) with 54; unfold fexp64; lia).
    reflexivity.
  - destruct (Z.eq_dec m1 0) as [H0|H0].
    + rewrite H0. rewrite shr_noop by (simpl; unfold fexp64; lia). reflexivity.
    + assert (Hp : 0 < m1) by lia.
      rewrite shr_noop.
      * reflexivity.
      * rewrite (Zdigits2_dig m1 Hp). pose proof (dig_le_53 m1 Hp Hc).
        unfold fexp64. lia.
Qed.

Lemma bra_exact (s : bool) (M e : Z) :
  0 < M -> e <= Rexp M e ->
  binary_round_aux prec emax s M e loc_Exact = round_pos s M e.
Proof.
  intros HM HE.
  assert (HE' : e <= fexp64 (Zdigits2 M + e)) by (rewrite Zdigits2_dig by lia; exact HE).
  destruct (bra_general s M e loc_Exact M 1 ltac:(lia) ltac:(lia) (Rep_init M) HE')
    as [H _].
  rewrite H. unfold round_pos. rewrite Zdigits2_dig by lia. fold (Rexp M e).
  f_equal. f_equal. unfold Rman. rewrite rne2_as_rne by lia.
  f_equal. rewrite Z.mul_1_l. f_equal. lia.
Qed.

Lemma binary_round_spec (s : bool) (m : positive) (e : Z) :
  binary_round prec emax s m e = round_pos s (Zpos m) e.
Proof.
  unfold binary_round. rewrite digits2_dig, fexp_eq. fold (Rexp (Zpos m) e).
  destruct (shl_align_spec m e (Rexp (Zpos m) e)) as [m' [H1 H2]].
  rewrite H1.
  set (j := e - Z.min e (Rexp (Zpos m) e)) in *.
  assert (Hj : 0 <= j) by lia.
  replace (Z.min e (Rexp (Zpos m) e)) with (e - j) by lia.
  rewrite H2.
  assert (HR : Rexp (Zpos m * 2 ^ j) (e - j) = Rexp (Zpos m) e)
    by (apply Rexp_shift; lia).
  rewrite bra_exact.
  - unfold round_pos. rewrite Rman_shift, HR by lia. reflexivity.
  - assert (0 < 2 ^ j) by (apply Z.pow_pos_nonneg; lia). nia.
  - rewrite HR. lia.
Qed.

Lemma binary_normalize_spec (M c : Z) (sz : bool) :
  binary_normalize prec emax M c sz =
  match M with
  | Z0 => S754_zero sz
  | Zpos _ => round_pos false M c
  | Zneg _ => round_pos true (- M) c
  end.
Proof. destruct M; simpl; try reflexivity; apply binary_round_spec. Qed.

Lemma round_pos_cases (s : bool) (M c : Z) :
  0 < M ->
  let r := round_pos s M c in
  is_double r = true /\
  val r = cond_Zopp s (RV M c) /\
  (r = S754_zero s \/ r = S754_infinity s \/ exists m e, r = S754_finite s m e).
Proof.
  intros HM. unfold round_pos, RV. apply finish_carry_cases.
  - split; [now apply Rman_nonneg|now apply Rman_upper].
  - apply Rexp_ge.
  - now apply Rman_lower.
Qed.

(** ** Doubles as integers

    A double is worth [val x] units of [2^-1074], and the order of doubles is
    the order of these integers. *)

Lemma valid_finite (s : bool) (m : positive) (e : Z) :
  is_double (S754_finite s m e) = true ->
  -1074 <= e <= 971 /\ Zpos m < 2 ^ 53 /\ (-1074 < e -> 2 ^ 52 <= Zpos m).
Proof.
  unfold is_double, valid_binary, bounded, canonical_mantissa. intros H.
  apply andb_prop in H. destruct H as [H1 H2].
  apply Z.eqb_eq in H1. apply Z.leb_le in H2. change (emax - prec) with 971 in H2.
  rewrite fexp_eq, digits2_dig in H1. unfold fexp64 in H1.
  pose proof (dig_bounds (Zpos m) ltac:(lia)) as [Hl Hu].
  pose proof (dig_pos (Zpos m) ltac:(lia)).
  split; [lia|]. split.
  - apply Z.lt_le_trans with (2 ^ dig (Zpos m)); [assumption|].
    apply Z.pow_le_mono_r; lia.
  - intros He. replace 52 with (dig (Zpos m) - 1) by lia. assumption.
Qed.

Lemma val_finite_bounds (s : bool) (m : positive) (e : Z) :
  is_double (S754_finite s m e) = true ->
  0 < Zpos m * 2 ^ (e + 1074) < top.
Proof.
  intros H. apply valid_finite in H. destruct H as [He [Hm _]].
  split.
  - apply Z.mul_pos_pos; [lia|]. apply Z.pow_pos_nonneg; lia.
  - apply scaled_lt_top; lia.
Qed.

Lemma val_range (x : spec_float) :
  is_double x = true -> - top <= val x <= top.
Proof.
  intros H. pose proof top_pos. destruct x as [s|s| |s m e]; cbn [val]; try lia.
  - destruct s; cbn [cond_Zopp]; lia.
  - pose proof (val_finite_bounds s m e H). destruct s; cbn [cond_Zopp]; lia.
Qed.

Lemma val_lt_top_finite (x : number) :
  is_double x = true -> isFinite x = true -> - top < val x < top.
Proof.
  intros Hv Hf. pose proof top_pos. destruct x as [s|s| |s m e]; try discriminate.
  - cbn. lia.
  - pose proof (val_finite_bounds s m e Hv). destruct s; cbn [val cond_Zopp]; lia.
Qed.

(** the order of two valid finite numbers of one sign is the order of their
    exponents, then of their mantissas *)
Lemma val_lex (m1 m2 : positive) (e1 e2 : Z) (s1 s2 : bool) :
  is_double (S754_finite s1 m1 e1) = true ->
  is_double (S754_finite s2 m2 e2) = true ->
  e1 < e2 -> Zpos m1 * 2 ^ (e1 + 1074) < Zpos m2 * 2 ^ (e2 + 1074).
Proof.
  intros H1 H2 He. apply valid_finite in H1, H2.
  destruct H1 as [He1 [Hm1 _]]. destruct H2 as [He2 [_ Hm2]].
  specialize (Hm2 ltac:(lia)).
  assert (0 < 2 ^ (e1 + 1074)) by (apply Z.pow_pos_nonneg; lia).
  assert (0 < 2 ^ (e2 + 1074)) by (apply Z.pow_pos_nonneg; lia).
  apply Z.lt_le_trans with (2 ^ 53 * 2 ^ (e1 + 1074)).
  - apply Z.mul_lt_mono_pos_r; assumption.
  - apply Z.le_trans with (2 ^ 52 * 2 ^ (e2 + 1074)).
    + rewrite <- !Z.pow_add_r by lia. apply Z.pow_le_mono_r; lia.
    + apply Z.mul_le_mono_nonneg_r; lia.
Qed.

Lemma mul_compare_r (a b p : Z) : 0 < p -> (a * p ?= b * p) = (a ?= b).
Proof.
  intros Hp. destruct (Z.compare_spec a b) as [H|H|H].
  - subst. apply Z.compare_refl.
  - apply Z.compare_lt_iff. nia.
  - apply Z.compare_gt_iff. nia.
Qed.

Lemma compare_finite_val (m1 m2 : positive) (e1 e2 : Z) (s1 s2 : bool) :
  is_double (S754_finite s1 m1 e1) = true ->
  is_double (S754_finite s2 m2 e2) = true ->
  match e1 ?= e2 with
  | Lt => Lt
  | Gt => Gt
  | Eq => Pos.compare_cont Eq m1 m2
  end = (Zpos m1 * 2 ^ (e1 + 1074) ?= Zpos m2 * 2 ^ (e2 + 1074)).
Proof.
  intros H1 H2. destruct (Z.compare_spec e1 e2) as [He|He|He].
  - subst e2. pose proof (valid_finite _ _ _ H1) as [He1 _].
    rewrite (mul_compare_r (Zpos m1) (Zpos m2)) by (apply Z.pow_pos_nonneg; lia).
    reflexivity.
  - symmetry. apply Z.compare_lt_iff. now apply (val_lex m1 m2 e1 e2 s1 s2).
  - symmetry. apply Z.compare_gt_iff. now apply (val_lex m2 m1 e2 e1 s2 s1).
Qed.

Lemma compare_val (x y : spec_float) :
  wf x -> wf y -> SFcompare x y = Some (val x ?= val y).
Proof.
  intros [Hx Hnx] [Hy Hny]. pose proof top_pos as Ht.
  destruct x as [sx|sx| |sx mx ex], y as [sy|sy| |sy my ey];
    try congruence; cbn [SFcompare val].
  - reflexivity.
  - f_equal. destruct sy; cbn [cond_Zopp]; symmetry;
      [apply Z.compare_gt_iff|apply Z.compare_lt_iff]; lia.
  - pose proof (val_finite_bounds sy my ey Hy).
    f_equal. destruct sy; cbn [cond_Zopp]; symmetry;
      [apply Z.compare_gt_iff|apply Z.compare_lt_iff]; lia.
  - f_equal. destruct sx; cbn [cond_Zopp]; symmetry;
      [apply Z.compare_lt_iff|apply Z.compare_gt_iff]; lia.
  - f_equal. destruct sx, sy; cbn [cond_Zopp]; symmetry;
      first [apply Z.compare_eq_iff|apply Z.compare_lt_iff|apply Z.compare_gt_iff]; lia.
  - pose proof (val_finite_bounds sy my ey Hy).
    f_equal. destruct sx, sy; cbn [cond_Zopp]; symmetry;
      first [apply Z.compare_lt_iff|apply Z.compare_gt_iff]; lia.
  - pose proof (val_finite_bounds sx mx ex Hx).
    f_equal. destruct sx; cbn [cond_Zopp]; symmetry;
      [apply Z.compare_lt_iff|apply Z.compare_gt_iff]; lia.
  - pose proof (val_finite_bounds sx mx ex Hx).
    f_equal. destruct sx, sy; cbn [cond_Zopp]; symmetry;
      first [apply Z.compare_lt_iff|apply Z.compare_gt_iff]; lia.
  - pose proof (val_finite_bounds sx mx ex Hx).
    pose proof (val_finite_bounds sy my ey Hy).
    f_equal. destruct sx, sy; cbn [cond_Zopp].
    + rewrite Z.compare_opp, (Z.compare_antisym (Zpos mx * 2 ^ (ex + 1074))).
      rewrite <- (compare_finite_val mx my ex ey true true Hx Hy).
      destruct (ex ?= ey); reflexivity.
    + symmetry. apply Z.compare_lt_iff. lia.
    + symmetry. apply Z.compare_gt_iff. lia.
    + apply (compare_finite_val mx my ex ey false false Hx Hy).
Qed.

Lemma SFleb_val (x y : spec_float) :
  wf x -> wf y -> SFleb x y = (val x <=? val y).
Proof.
  intros Hx Hy. unfold SFleb. rewrite (compare_val x y Hx Hy).
  unfold Z.leb. destruct (val x ?= val y); reflexivity.
Qed.

Lemma SFltb_val (x y : spec_float) :
  wf x -> wf y -> SFltb x y = (val x <? val y).
Proof.
  intros Hx Hy. unfold SFltb. rewrite (compare_val x y Hx Hy).
  unfold Z.ltb. destruct (val x ?= val y); reflexivity.
Qed.

Lemma wf_or_nan (x : number) : is_double x = true -> x = NaN \/ wf x.
Proof.
  intros H. destruct x; try (right; split; [assumption|discriminate]).
  now left.
Qed.

Lemma wf_finite (x : number) : wf x -> - top < val x < top -> isFinite x = true.
Proof.
  intros [_ Hn] H. destruct x as [s|s| |s m e]; try reflexivity; [|contradiction].
  destruct s; cbn [val cond_Zopp] in H; lia.
Qed.

Lemma sign_ok_val (x : number) :
  is_double x = true -> sign_ok x = true -> 0 <= val x.
Proof.
  intros Hv Hs. pose proof top_pos. destruct x as [s|s| |s m e]; cbn [val]; try lia.
  - cbn in Hs. apply negb_true_iff in Hs. subst. cbn. lia.
  - cbn in Hs. apply negb_true_iff in Hs. subst. cbn [cond_Zopp].
    pose proof (val_finite_bounds false m e Hv). lia.
Qed.

Lemma positive_shape (x : number) :
  is_double x = true -> isFinite x = true -> 0 < val x ->
  exists m e, x = S754_finite false m e.
Proof.
  intros V F H. destruct x as [s|s| |s m e]; try discriminate.
  destruct s; [|eauto]. pose proof (val_finite_bounds true m e V).
  cbn [val cond_Zopp] in H. lia.
Qed.

Lemma valid_Rexp (s : bool) (m : positive) (e : Z) :
  is_double (S754_finite s m e) = true -> Rexp (Zpos m) e = e.
Proof.
  unfold is_double, valid_binary, bounded, canonical_mantissa. intros H.
  apply andb_prop in H. destruct H as [H1 _]. apply Z.eqb_eq in H1.
  now rewrite fexp_eq, digits2_dig in H1.
Qed.

Lemma valid_digits (s : bool) (m : positive) (e : Z) :
  is_double (S754_finite s m e) = true ->
  dig (Zpos m) <= 53 /\ (dig (Zpos m) = 53 \/ e = -1074).
Proof.
  intros H. pose proof (valid_Rexp s m e H) as HR.
  unfold Rexp, fexp64 in HR. lia.
Qed.

Lemma RV_valid (s : bool) (m : positive) (e : Z) :
  is_double (S754_finite s m e) = true ->
  RV (Zpos m) e = Zpos m * 2 ^ (e + 1074).
Proof.
  intros H. apply RV_exact; [lia| |].
  - rewrite (valid_Rexp s m e H). lia.
  - apply (val_finite_bounds s m e H).
Qed.

(** the number of units of [2^-1074] in a valid finite number is rounded
    to itself *)
Lemma rnd_val (x : spec_float) :
  is_double x = true ->
  match x with S754_zero _ | S754_finite _ _ _ => rnd (val x) = val x | _ => True end.
Proof.
  intros H. destruct x as [s|s| |s m e]; try exact I; [reflexivity|].
  cbn [val]. unfold rnd. rewrite RZ_cond_opp. f_equal.
  pose proof (valid_finite s m e H) as [He _].
  assert (Hp : 0 < 2 ^ (e + 1074)) by (apply Z.pow_pos_nonneg; lia).
  rewrite RZ_pos by nia.
  replace (-1074) with (e - (e + 1074)) by lia.
  rewrite RV_shift by lia. apply (RV_valid s m e H).
Qed.

(** ** The operations on doubles

    Sum, product and quotient of finite doubles are the exact result,
    rounded; [Math.ceil] is the ceiling. *)

Lemma binary_normalize_val (M c : Z) (sz : bool) :
  let r := binary_normalize prec emax M c sz in
  wf r /\ val r = RZ M c /\
  (0 <= M -> sz = false -> sign_ok r = true).
Proof.
  cbv zeta. rewrite binary_normalize_spec. destruct M as [|p|p].
  - repeat split; try discriminate. intros _ ->. reflexivity.
  - destruct (round_pos_cases false (Zpos p) c ltac:(lia)) as [Hv [Hval Hs]].
    repeat split; try assumption.
    + destruct Hs as [->|[->|[m [e ->]]]]; discriminate.
    + intros _ _. destruct Hs as [->|[->|[m [e ->]]]]; reflexivity.
  - change (- Z.neg p) with (Z.pos p).
    destruct (round_pos_cases true (Zpos p) c ltac:(lia)) as [Hv [Hval Hs]].
    repeat split; try assumption.
    + destruct Hs as [->|[->|[m [e ->]]]]; discriminate.
    + intros H. lia.
Qed.

(** the integer [Q] with [|Q| < 2^53] is a double *)
Lemma normalize_small (Q : Z) (sz : bool) :
  - 2 ^ 53 < Q < 2 ^ 53 ->
  wf (binary_normalize prec emax Q 0 sz) /\
  val (binary_normalize prec emax Q 0 sz) = Q * 2 ^ 1074.
Proof.
  intros HQ. destruct (binary_normalize_val Q 0 sz) as [Hwf [Hval _]].
  split; [assumption|]. rewrite Hval.
  assert (Hpos : forall P, 0 < P < 2 ^ 53 -> RV P 0 = P * 2 ^ 1074).
  { intros P HP. apply (RV_exact P 0); [lia| |].
    - pose proof (dig_le_53 P ltac:(lia) ltac:(lia)). unfold Rexp, fexp64. lia.
    - apply (scaled_lt_top P 0); lia. }
  destruct (Z.lt_trichotomy Q 0) as [Hn|[->|Hp]].
  - rewrite RZ_neg by lia. rewrite Hpos by lia. ring.
  - reflexivity.
  - rewrite RZ_pos by lia. apply Hpos. lia.
Qed.

Lemma ofZ_wf (z : Z) : wf (ofZ z).
Proof. apply binary_normalize_val. Qed.

Lemma ofZ_sign_ok (z : Z) : 0 <= z -> sign_ok (ofZ z) = true.
Proof.
  intros H. destruct (binary_normalize_val z 0 false) as [_ [_ Hs]].
  now apply Hs.
Qed.

Lemma scaled_val (s : bool) (m : positive) (e ez : Z) :
  -1074 <= ez <= e ->
  cond_Zopp s (Zpos m * 2 ^ (e - ez)) * 2 ^ (ez + 1074)
  = cond_Zopp s (Zpos m * 2 ^ (e + 1074)).
Proof.
  intros H.
  replace (e + 1074) with ((e - ez) + (ez + 1074)) by lia.
  rewrite (Z.pow_add_r 2 (e - ez) (ez + 1074)) by lia.
  destruct s; cbn [cond_Zopp]; ring.
Qed.

(** the sum of two valid finite numbers is their exact sum, rounded *)
Lemma add_finite_val (x y : spec_float) :
  is_double x = true -> is_double y = true ->
  isFinite x = true -> isFinite y = true ->
  wf (SFadd prec emax x y) /\
  val (SFadd prec emax x y) = rnd (val x + val y).
Proof.
  intros Hx Hy Fx Fy.
  destruct x as [sx|sx| |sx mx ex], y as [sy|sy| |sy my ey]; try discriminate.
  - split; [destruct sx, sy; (split; [reflexivity|discriminate])|].
    destruct sx, sy; reflexivity.
  - split; [split; [assumption|discriminate]|].
    cbn [SFadd]. change (val (S754_zero sx)) with 0.
    rewrite Z.add_0_l. symmetry. apply (rnd_val _ Hy).
  - split; [split; [assumption|discriminate]|].
    cbn [SFadd]. change (val (S754_zero sy)) with 0.
    rewrite Z.add_0_r. symmetry. apply (rnd_val _ Hx).
  - cbn [SFadd]. cbv zeta.
    pose proof (valid_finite _ _ _ Hx) as [Hex _].
    pose proof (valid_finite _ _ _ Hy) as [Hey _].
    set (ez := Z.min ex ey).
    rewrite !shl_align_fst by (unfold ez; lia).
    match goal with |- context [binary_normalize _ _ ?M _ _] => set (S := M) end.
    destruct (binary_normalize_val S ez false) as [Hwf [Hval _]].
    split; [assumption|]. rewrite Hval. unfold rnd.
    replace (-1074) with (ez - (ez + 1074)) by lia.
    rewrite <- (RZ_shift S ez (ez + 1074)) by (unfold ez; lia).
    f_equal. unfold S. rewrite Z.mul_add_distr_r.
    rewrite !scaled_val by (unfold ez; lia). reflexivity.
Qed.

Lemma add_val (x y : number) :
  is_double x = true -> is_double y = true ->
  isFinite x = true -> isFinite y = true ->
  wf (add x y) /\ val (add x y) = rnd (val x + val y).
Proof. apply add_finite_val. Qed.

Lemma add_valid (x y : number) :
  is_double x = true -> is_double y = true -> is_double (add x y) = true.
Proof.
  intros Hx Hy.
  destruct x as [sx|sx| |sx mx ex] eqn:Ex, y as [sy|sy| |sy my ey] eqn:Ey;
    try reflexivity; try assumption;
    try (destruct sx, sy; reflexivity).
  rewrite <- Ex, <- Ey. apply add_finite_val; subst; auto.
Qed.

Lemma add_sign_ok (x y : number) :
  sign_ok x = true -> sign_ok y = true -> sign_ok (add x y) = true.
Proof.
  destruct x as [sx|sx| |sx mx ex], y as [sy|sy| |sy my ey]; cbn [sign_ok];
    intros Hx Hy; try reflexivity;
    try (apply negb_true_iff in Hx); try (apply negb_true_iff in Hy); subst;
    try reflexivity.
  unfold add. cbn [SFadd]. cbv zeta. cbn [cond_Zopp].
  match goal with |- context [binary_normalize _ _ ?Q ?e _] =>
    destruct (binary_normalize_val Q e false) as [_ [_ H]] end.
  apply H; [lia|reflexivity].
Qed.

Lemma add_sign_ok_gen (x y : number) :
  sign_ok x = true -> sign_ok y = true \/ y = S754_zero true ->
  sign_ok (add x y) = true.
Proof.
  intros Hx [Hy| ->]; [now apply add_sign_ok|].
  destruct x as [sx|sx| |sx mx ex]; cbn [sign_ok] in *; try reflexivity;
    try assumption.
  apply negb_true_iff in Hx. subst. reflexivity.
Qed.

Lemma cond_Zopp_mul (s1 s2 : bool) (a b : Z) :
  cond_Zopp s1 a * cond_Zopp s2 b = cond_Zopp (xorb s1 s2) (a * b).
Proof. destruct s1, s2; cbn [cond_Zopp xorb]; ring. Qed.

(** the product of two valid finite numbers is their exact product,
    rounded *)
Lemma mul_finite_val (x y : spec_float) :
  is_double x = true -> is_double y = true ->
  isFinite x = true -> isFinite y = true ->
  wf (SFmul prec emax x y) /\
  val (SFmul prec emax x y) = rnd2 (val x * val y).
Proof.
  intros Hx Hy Fx Fy.
  destruct x as [sx|sx| |sx mx ex], y as [sy|sy| |sy my ey]; try discriminate.
  - split; [split; [reflexivity|discriminate]|]. reflexivity.
  - split; [split; [reflexivity|discriminate]|]. reflexivity.
  - split; [split; [reflexivity|discriminate]|].
    cbn [SFmul val]. now rewrite Z.mul_0_r.
  - cbn [SFmul].
    pose proof (valid_finite _ _ _ Hx) as [Hex _].
    pose proof (valid_finite _ _ _ Hy) as [Hey _].
    pose proof (valid_digits _ _ _ Hx) as [Hdx Hnx].
    pose proof (valid_digits _ _ _ Hy) as [Hdy Hny].
    pose proof (dig_pos (Zpos mx) ltac:(lia)).
    pose proof (dig_pos (Zpos my) ltac:(lia)).
    pose proof (dig_mul (Zpos mx) (Zpos my) ltac:(lia) ltac:(lia)) as Hd.
    rewrite Pos2Z.inj_mul.
    rewrite bra_exact; [|lia|unfold Rexp, fexp64; lia].
    destruct (round_pos_cases (xorb sx sy) (Zpos mx * Zpos my) (ex + ey) ltac:(lia))
      as [Hv [Hval Hs]].
    split; [split; [assumption|]|].
    + destruct Hs as [->|[->|[m [e ->]]]]; discriminate.
    + rewrite Hval. cbn [val]. rewrite cond_Zopp_mul. unfold rnd2.
      rewrite RZ_cond_opp. f_equal.
      assert (Hp1 : 0 < 2 ^ (ex + 1074)) by (apply Z.pow_pos_nonneg; lia).
      assert (Hp2 : 0 < 2 ^ (ey + 1074)) by (apply Z.pow_pos_nonneg; lia).
      rewrite RZ_pos by nia.
      replace (Zpos mx * 2 ^ (ex + 1074) * (Zpos my * 2 ^ (ey + 1074)))
        with (Zpos mx * Zpos my * 2 ^ (ex + ey + 2148)).
      2:{ replace (ex + ey + 2148) with ((ex + 1074) + (ey + 1074)) by lia.
          rewrite Z.pow_add_r by lia. ring. }
      replace (-2148) with (ex + ey - (ex + ey + 2148)) by lia.
      rewrite RV_shift by lia. reflexivity.
Qed.

Lemma mul_val (x y : number) :
  is_double x = true -> is_double y = true ->
  isFinite x = true -> isFinite y = true ->
  wf (mul x y) /\ val (mul x y) = rnd2 (val x * val y).
Proof. apply mul_finite_val. Qed.

Lemma mul_valid (x y : number) :
  is_double x = true -> is_double y = true -> is_double (mul x y) = true.
Proof.
  intros Hx Hy.
  destruct x as [sx|sx| |sx mx ex] eqn:Ex, y as [sy|sy| |sy my ey] eqn:Ey;
    try reflexivity.
  rewrite <- Ex, <- Ey. apply mul_finite_val; subst; auto.
Qed.

Lemma mul_sign_ok (x y : number) :
  sign_ok x = true -> sign_ok y = true -> sign_ok (mul x y) = true.
Proof.
  destruct x as [sx|sx| |sx mx ex], y as [sy|sy| |sy my ey]; cbn [sign_ok];
    intros Hx Hy; try reflexivity;
    try (apply negb_true_iff in Hx); try (apply negb_true_iff in Hy); subst;
    try reflexivity.
  unfold mul. cbn [SFmul].
  match goal with |- context [binary_round_aux _ _ ?s ?q ?e ?l] =>
    pose proof (shr_record_sign s q e l) as H;
    destruct (binary_round_aux prec emax s q e l) end;
  cbn [sign_ok]; try reflexivity; rewrite H; reflexivity.
Qed.

Lemma div_core_valid (s : bool) (m1 m2 : positive) (e1 e2 : Z) :
  let '(q, e', l) := SFdiv_core_binary prec emax (Zpos m1) e1 (Zpos m2) e2 in
  is_double (binary_round_aux prec emax s q e' l) = true /\
  binary_round_aux prec emax s q e' l <> S754_nan.
Proof.
  unfold SFdiv_core_binary.
  rewrite !Zdigits2_dig by lia. rewrite fexp_eq.
  set (d1 := dig (Zpos m1)). set (d2 := dig (Zpos m2)).
  set (e' := Z.min (fexp64 (d1 + e1 - (d2 + e2))) (e1 - e2)).
  set (sh := e1 - e2 - e').
  assert (Hsh : 0 <= sh) by (unfold sh, e'; lia).
  set (m' := match sh with Zpos _ => Z.shiftl (Zpos m1) sh | Z0 => Zpos m1 | Zneg _ => 0 end).
  assert (Hm' : m' = Zpos m1 * 2 ^ sh).
  { unfold m'. destruct sh; [simpl; lia|apply Z.shiftl_mul_pow2; lia|lia]. }
  clearbody m'.
  pose proof (Z_div_mod m' (Zpos m2) ltac:(lia)) as Hde.
  destruct (Z.div_eucl m' (Zpos m2)) as [q r]. destruct Hde as [Hde Hr].
  assert (Hp : 0 < 2 ^ sh) by (apply Z.pow_pos_nonneg; lia).
  assert (Hm'pos : 0 < m') by nia.
  assert (Hq0 : 0 <= q) by nia.
  pose proof (new_location_Rep (Zpos m2) r q ltac:(lia) Hr Hq0) as HRep.
  assert (HE : e' <= fexp64 (Zdigits2 q + e')).
  { pose proof (dig_bounds (Zpos m1) ltac:(lia)) as [Hl1 _].
    pose proof (dig_bounds (Zpos m2) ltac:(lia)) as [_ Hu2].
    pose proof (dig_pos (Zpos m1) ltac:(lia)). pose proof (dig_pos (Zpos m2) ltac:(lia)).
    fold d1 in Hl1, H. fold d2 in Hu2, H0.
    assert (Hlow : 2 ^ (d1 - 1 + sh) <= m').
    { rewrite Hm', Z.pow_add_r by lia. apply Z.mul_le_mono_nonneg_r; lia. }
    destruct (Z.eq_dec q 0) as [Hq|Hq].
    - subst q. cbn [Zdigits2]. rewrite Z.add_0_l.
      assert (Hlt : m' < Zpos m2) by lia.
      assert (Hd : d1 - 1 + sh < d2).
      { apply (Z.pow_lt_mono_r_iff 2); lia. }
      unfold fexp64. unfold e', fexp64, sh in *. lia.
    - rewrite Zdigits2_dig by lia.
      assert (Hdq : d1 + sh - d2 <= dig q).
      { destruct (Z_lt_le_dec (d1 - 1 + sh - d2) 0) as [Hn|Hn].
        - pose proof (dig_pos q ltac:(lia)). lia.
        - assert (Hq2 : 2 ^ (d1 - 1 + sh - d2) <= q).
          { assert (2 ^ (d1 - 1 + sh - d2) * Zpos m2 < (q + 1) * Zpos m2); [|nia].
            apply Z.le_lt_trans with (2 ^ (d1 - 1 + sh - d2) * 2 ^ d2).
            - apply Z.mul_le_mono_nonneg_l; [apply Z.pow_nonneg|]; lia.
            - rewrite <- Z.pow_add_r by lia.
              replace (d1 - 1 + sh - d2 + d2) with (d1 - 1 + sh) by lia. nia. }
          pose proof (Z.log2_le_mono _ _ Hq2) as Hl.
          rewrite Z.log2_pow2 in Hl by lia. unfold dig. lia. }
      unfold e', fexp64, sh in *. lia. }
  replace m' with (q * Zpos m2 + r) in * by lia.
  destruct (bra_general s q e' (new_location (Zpos m2) r) (q * Zpos m2 + r) (Zpos m2)
              ltac:(lia) ltac:(lia) HRep HE) as [Heq [Hb Hl]].
  rewrite Heq.
  assert (Hemin : -1074 <= fexp64 (Zdigits2 q + e')) by (unfold fexp64; lia).
  destruct (finish_carry_cases s _ _ Hb Hemin Hl) as [Hv [_ Hs]].
  split; [assumption|].
  destruct Hs as [->|[->|[m [e ->]]]]; discriminate.
Qed.

Lemma div_valid (x y : spec_float) : is_double (SFdiv prec emax x y) = true.
Proof.
  destruct x as [sx|sx| |sx mx ex], y as [sy|sy| |sy my ey]; try reflexivity.
  cbn [SFdiv].
  pose proof (div_core_valid (xorb sx sy) mx my ex ey) as H.
  destruct (SFdiv_core_binary prec emax (Zpos mx) ex (Zpos my) ey) as [[q e'] l].
  apply H.
Qed.

Lemma div_sign_ok (x y : spec_float) :
  sign_ok x = true -> sign_ok y = true -> sign_ok (SFdiv prec emax x y) = true.
Proof.
  destruct x as [sx|sx| |sx mx ex], y as [sy|sy| |sy my ey]; cbn [sign_ok SFdiv];
    try reflexivity; intros Hx Hy;
    try (apply negb_true_iff in Hx); try (apply negb_true_iff in Hy); subst;
    try reflexivity.
  destruct (SFdiv_core_binary prec emax (Zpos mx) ex (Zpos my) ey) as [[q e'] l].
  pose proof (shr_record_sign (xorb false false) q e' l) as H.
  destruct (binary_round_aux prec emax (xorb false false) q e' l); cbn [sign_ok];
    try reflexivity; rewrite H; reflexivity.
Qed.

(** the quotient of two valid finite numbers that are not zero is their
    exact quotient, rounded *)
Lemma div_finite_val (sx sy : bool) (mx my : positive) (ex ey : Z) :
  is_double (S754_finite sx mx ex) = true ->
  is_double (S754_finite sy my ey) = true ->
  let r := div (S754_finite sx mx ex) (S754_finite sy my ey) in
  wf r /\
  val r = cond_Zopp (xorb sx sy)
            (RQ (Zpos mx * 2 ^ (ex + 1074)) (Zpos my * 2 ^ (ey + 1074))).
Proof.
  intros Hx Hy. cbv zeta. unfold div. cbn [SFdiv].
  pose proof (valid_finite _ _ _ Hx) as [Hex _].
  pose proof (valid_finite _ _ _ Hy) as [Hey _].
  set (u := ex + 1074). set (v := ey + 1074).
  assert (Hu : 0 <= u) by (unfold u; lia). assert (Hv : 0 <= v) by (unfold v; lia).
  set (a := Zpos mx * 2 ^ u). set (b := Zpos my * 2 ^ v).
  assert (Ha : 0 < a) by (apply Z.mul_pos_pos; [lia|apply Z.pow_pos_nonneg; lia]).
  assert (Hb : 0 < b) by (apply Z.mul_pos_pos; [lia|apply Z.pow_pos_nonneg; lia]).
  unfold SFdiv_core_binary.
  rewrite !Zdigits2_dig by lia. rewrite fexp_eq.
  set (d1 := dig (Zpos mx)). set (d2 := dig (Zpos my)).
  set (e' := Z.min (fexp64 (d1 + ex - (d2 + ey))) (ex - ey)).
  set (sh := ex - ey - e').
  assert (Hsh : 0 <= sh) by (unfold sh, e'; lia).
  set (m' := match sh with Zpos _ => Z.shiftl (Zpos mx) sh | Z0 => Zpos mx | Zneg _ => 0 end).
  assert (Hm' : m' = Zpos mx * 2 ^ sh).
  { unfold m'. destruct sh; [simpl; lia|apply Z.shiftl_mul_pow2; lia|lia]. }
  clearbody m'.
  pose proof (Z_div_mod m' (Zpos my) ltac:(lia)) as Hde.
  destruct (Z.div_eucl m' (Zpos my)) as [q r]. destruct Hde as [Hde Hr].
  assert (Hp : 0 < 2 ^ sh) by (apply Z.pow_pos_nonneg; lia).
  assert (Hm'pos : 0 < m') by nia.
  assert (Hq0 : 0 <= q) by nia.
  pose proof (new_location_Rep (Zpos my) r q ltac:(lia) Hr Hq0) as HRep.
  pose proof (dig_bounds (Zpos mx) ltac:(lia)) as [Hl1 _].
  pose proof (dig_bounds (Zpos my) ltac:(lia)) as [_ Hu2].
  pose proof (dig_pos (Zpos mx) ltac:(lia)) as Hd1.
  pose proof (dig_pos (Zpos my) ltac:(lia)) as Hd2.
  fold d1 in Hl1, Hd1. fold d2 in Hu2, Hd2.
  assert (Hlow : 2 ^ (d1 - 1 + sh) <= m').
  { rewrite Hm', Z.pow_add_r by lia. apply Z.mul_le_mono_nonneg_r; lia. }
  (* the exponent the library rounds at is the one of the exact quotient *)
  assert (HEq : fexp64 (Zdigits2 q + e') = Qexp a b /\ e' <= fexp64 (Zdigits2 q + e')).
  { destruct (Z.eq_dec q 0) as [Hq|Hq].
    - subst q. cbn [Zdigits2]. rewrite Z.add_0_l.
      assert (Hlt : m' < Zpos my) by lia.
      assert (Hd : d1 - 1 + sh < d2) by (apply (Z.pow_lt_mono_r_iff 2); lia).
      assert (He' : e' <= -1074) by (unfold e', fexp64, sh in *; lia).
      assert (Hql : qlt a b e' = true).
      { apply qlt_true. unfold a, b.
        rewrite <- !Z.mul_assoc, <- !Z.pow_add_r by lia.
        assert (H0 : Zpos mx * 2 ^ sh < Zpos my * 2 ^ 0) by (rewrite Z.mul_1_r; lia).
        refine (pow_transfer_lt _ _ _ _ _ _ _ _ _ _ _ H0); unfold u, v, sh; lia. }
      pose proof (qdig_le a b e' Ha Hb Hql).
      unfold Qexp, fexp64. lia.
    - assert (Hq1 : 0 < q) by lia. rewrite Zdigits2_dig by lia.
      pose proof (dig_bounds q Hq1) as [Hlq Huq]. pose proof (dig_pos q Hq1) as Hdq.
      assert (HN : 2 ^ (dig q - 1) * Zpos my <= m' < 2 ^ dig q * Zpos my) by nia.
      assert (Hb1 : qlt a b (dig q + e') = true).
      { apply qlt_true. unfold a, b.
        rewrite <- !Z.mul_assoc, <- !Z.pow_add_r by lia.
        assert (H0 : Zpos mx * 2 ^ sh < Zpos my * 2 ^ dig q) by lia.
        refine (pow_transfer_lt _ _ _ _ _ _ _ _ _ _ _ H0); unfold u, v, sh; lia. }
      assert (Hb2 : qlt a b (dig q + e' - 1) = false).
      { apply qlt_false. unfold a, b.
        rewrite <- !Z.mul_assoc, <- !Z.pow_add_r by lia.
        assert (H0 : Zpos my * 2 ^ (dig q - 1) <= Zpos mx * 2 ^ sh) by lia.
        refine (pow_transfer_le _ _ _ _ _ _ _ _ _ _ _ H0); unfold u, v, sh; lia. }
      pose proof (qdig_le a b _ Ha Hb Hb1). pose proof (qdig_gt a b _ Ha Hb Hb2).
      assert (Hqd : qdig a b = dig q + e') by lia.
      unfold Qexp. rewrite Hqd. split; [reflexivity|].
      assert (Hdq' : d1 + sh - d2 <= dig q).
      { destruct (Z_lt_le_dec (d1 - 1 + sh - d2) 0) as [Hn|Hn]; [lia|].
        assert (Hq2 : 2 ^ (d1 - 1 + sh - d2) <= q).
        { assert (2 ^ (d1 - 1 + sh - d2) * Zpos my < (q + 1) * Zpos my); [|nia].
          apply Z.le_lt_trans with (2 ^ (d1 - 1 + sh - d2) * 2 ^ d2).
          - apply Z.mul_le_mono_nonneg_l; [apply Z.pow_nonneg|]; lia.
          - rewrite <- Z.pow_add_r by lia.
            replace (d1 - 1 + sh - d2 + d2) with (d1 - 1 + sh) by lia. nia. }
        pose proof (Z.log2_le_mono _ _ Hq2) as Hl.
        rewrite Z.log2_pow2 in Hl by lia. unfold dig. lia. }
      unfold e', fexp64, sh in *. lia. }
  destruct HEq as [HEq HE].
  replace m' with (q * Zpos my + r) in * by lia.
  destruct (bra_general (xorb sx sy) q e' (new_location (Zpos my) r)
              (q * Zpos my + r) (Zpos my) ltac:(lia) ltac:(lia) HRep HE)
    as [Heq [Hbd Hl]].
  rewrite Heq.
  assert (Hemin : -1074 <= fexp64 (Zdigits2 q + e')) by (unfold fexp64; lia).
  destruct (finish_carry_cases (xorb sx sy) _ _ Hbd Hemin Hl) as [Hvd [Hval Hs]].
  split; [split; [assumption|]|].
  - destruct Hs as [->|[->|[m [e ->]]]]; discriminate.
  - rewrite Hval. f_equal. unfold RQ. rewrite HEq. f_equal. f_equal.
    unfold Qman. set (E := Qexp a b) in *.
    assert (0 < 2 ^ (E - e')) by (apply Z.pow_pos_nonneg; lia).
    assert (0 < 2 ^ Z.max E 0) by (apply Z.pow_pos_nonneg; lia).
    apply rne_ratio; try (apply Z.mul_pos_pos; lia).
    rewrite Hm'. unfold a, b.
    replace (Zpos mx * 2 ^ sh * (Zpos my * 2 ^ v * 2 ^ Z.max E 0))
      with (Zpos mx * Zpos my * 2 ^ (sh + v + Z.max E 0))
      by (rewrite !Z.pow_add_r by lia; ring).
    replace (Zpos mx * 2 ^ u * 2 ^ Z.max (- E) 0 * (Zpos my * 2 ^ (E - e')))
      with (Zpos mx * Zpos my * 2 ^ (u + Z.max (- E) 0 + (E - e')))
      by (rewrite !Z.pow_add_r by lia; ring).
    f_equal. f_equal. unfold u, v, sh. lia.
Qed.

Lemma ceilZ_mono (V1 V2 : Z) : V1 <= V2 -> ceilZ V1 <= ceilZ V2.
Proof.
  intros H. unfold ceilZ.
  assert (Hp : 0 < 2 ^ 1074) by (apply Z.pow_pos_nonneg; lia).
  pose proof (Z.div_le_mono (- V2) (- V1) (2 ^ 1074) Hp ltac:(lia)). nia.
Qed.

Lemma ceilZ_multiple (a : Z) : ceilZ (a * 2 ^ 1074) = a * 2 ^ 1074.
Proof.
  unfold ceilZ. rewrite <- Z.mul_opp_l, Z.div_mul by (apply Z.pow_nonzero; lia).
  now rewrite Z.opp_involutive.
Qed.

Lemma ceilZ_top : ceilZ top = top /\ ceilZ (- top) = - top.
Proof.
  replace top with (2 ^ 1024 * 2 ^ 1074) by (unfold top; rewrite <- Z.pow_add_r by lia; reflexivity).
  rewrite <- Z.mul_opp_l. now rewrite !ceilZ_multiple.
Qed.

Lemma shiftr_div (m k : Z) : 0 <= k -> Z.shiftr m k = m / 2 ^ k.
Proof. intros. now apply Z.shiftr_div_pow2. Qed.

Lemma ceil_spec (x : number) :
  is_double x = true -> x <> S754_nan ->
  wf (ceil x) /\ val (ceil x) = ceilZ (val x).
Proof.
  intros Hx Hn. destruct x as [s|s| |s m e]; try congruence.
  - split; [split; [reflexivity|discriminate]|reflexivity].
  - split; [split; [reflexivity|discriminate]|].
    cbn [ceil val]. destruct ceilZ_top. destruct s; cbn [cond_Zopp]; congruence.
  - cbn [ceil]. pose proof (valid_finite s m e Hx) as [He [Hm _]].
    destruct (Z.leb_spec 0 e) as [Hpos|Hneg].
    + split; [split; [assumption|discriminate]|].
      cbn [val].
      replace (cond_Zopp s (Zpos m * 2 ^ (e + 1074)))
        with (cond_Zopp s (Zpos m * 2 ^ e) * 2 ^ 1074).
      * now rewrite ceilZ_multiple.
      * rewrite Z.pow_add_r by lia. destruct s; cbn [cond_Zopp]; ring.
    + cbv zeta. rewrite shiftr_div by lia.
      set (k := - e) in *. set (q := Zpos m / 2 ^ k).
      assert (Hk : 0 < 2 ^ k) by (apply Z.pow_pos_nonneg; lia).
      assert (H2k : 2 <= 2 ^ k).
      { change 2 with (2 ^ 1) at 1. apply Z.pow_le_mono_r; lia. }
      pose proof (Z.div_mod (Zpos m) (2 ^ k) ltac:(lia)) as Hdm.
      pose proof (Z.mod_pos_bound (Zpos m) (2 ^ k) Hk) as Hmb.
      fold q in Hdm.
      assert (Hq : 0 <= q < 2 ^ 52) by (change (2 ^ 53) with (2 * 2 ^ 52) in Hm; nia).
      assert (Hval : val (S754_finite s m e) = cond_Zopp s (Zpos m) * 2 ^ (1074 - k)).
      { cbn [val]. replace (e + 1074) with (1074 - k) by lia.
        destruct s; cbn [cond_Zopp]; ring. }
      assert (Hc : forall a, ceilZ (a * 2 ^ (1074 - k)) = - ((- a) / 2 ^ k) * 2 ^ 1074).
      { intros a. unfold ceilZ. f_equal. f_equal.
        replace (2 ^ 1074) with (2 ^ k * 2 ^ (1074 - k))
          by (rewrite <- Z.pow_add_r by lia; f_equal; lia).
        rewrite <- Z.mul_opp_l. apply Z.div_mul_cancel_r; [lia|].
        apply Z.pow_nonzero; lia. }
      rewrite Hval, Hc. rewrite Z.shiftl_mul_pow2 by lia.
      change (2 ^ 52) with 4503599627370496 in Hq.
      destruct s; cbn [cond_Zopp].
      * rewrite Z.opp_involutive. fold q.
        destruct (normalize_small (- q) true ltac:(lia)) as [Hwf Hv].
        split; [assumption|]. rewrite Hv. ring.
      * destruct (Z.eqb_spec (q * 2 ^ k) (Zpos m)) as [Hex|Hex].
        -- destruct (normalize_small q false ltac:(lia)) as [Hwf Hv].
           split; [assumption|]. rewrite Hv.
           rewrite Z_div_zero_opp_full by lia. fold q. ring.
        -- destruct (normalize_small (q + 1) false ltac:(lia)) as [Hwf Hv].
           split; [assumption|]. rewrite Hv.
           rewrite Z_div_nz_opp_full by lia. fold q. ring.
Qed.

Lemma ceil_valid (x : number) :
  is_double x = true -> is_double (ceil x) = true.
Proof.
  intros H. destruct x as [s|s| |s m e]; try reflexivity.
  apply (ceil_spec _ H). discriminate.
Qed.

Lemma ceil_sign_ok (x : number) : sign_ok x = true -> sign_ok (ceil x) = true.
Proof.
  destruct x as [s|s| |s m e]; try (intros H; exact H).
  cbn [sign_ok ceil]. intros Hs. apply negb_true_iff in Hs. subst s.
  destruct (0 <=? e); [reflexivity|]. cbv zeta.
  match goal with |- context [binary_normalize _ _ ?Q _ _] => set (q := Q) end.
  destruct (binary_normalize_val q 0 false) as [_ [_ H]]. apply H; [|reflexivity].
  unfold q. pose proof (Z.shiftr_nonneg (Zpos m) (- e)).
  destruct (_ =? _); lia.
Qed.

Lemma pow10Z_valid (k : Z) : is_double (pow10Z k) = true /\ sign_ok (pow10Z k) = true.
Proof.
  unfold pow10Z.
  destruct (400 <? k); [split; reflexivity|].
  destruct (k <? -400); [split; reflexivity|].
  destruct (Z.leb_spec 0 k).
  - split; [apply ofZ_wf|]. apply ofZ_sign_ok. apply Z.pow_nonneg. lia.
  - split; [apply div_valid|]. apply div_sign_ok; reflexivity.
Qed.

Lemma pow10_valid (k : number) : is_double (pow10 k) = true /\ sign_ok (pow10 k) = true.
Proof.
  destruct k as [s|s| |s m e]; cbn [pow10].
  - split; reflexivity.
  - destruct s; split; reflexivity.
  - split; reflexivity.
  - destruct (isInteger _); [apply pow10Z_valid|split; reflexivity].
Qed.

Lemma lit_valid :
  wf lit_0_05 /\ wf lit_0_1 /\ sign_ok lit_0_05 = true /\ sign_ok lit_0_1 = true /\
  isFinite lit_0_05 = true /\ isFinite lit_0_1 = true.
Proof.
  repeat split; try discriminate; vm_compute; reflexivity.
Qed.

(** ** Monotone operations *)






(** adding a step that is not negative to a finite double does not go
    down *)
Lemma add_step_ge (num step : number) :
  is_double num = true -> isFinite num = true ->
  is_double step = true -> sign_ok step = true ->
  add num step = NaN \/ (wf (add num step) /\ val num <= val (add num step)).
Proof.
  intros Vn Fn Vs Ss. pose proof (sign_ok_val step Vs Ss) as Hs0.
  destruct (isFinite step) eqn:Fs.
  - right. destruct (add_finite_val num step Vn Vs Fn Fs) as [W V].
    split; [exact W|]. unfold add. rewrite V.
    assert (Hr : rnd (val num) = val num).
    { pose proof (rnd_val num Vn) as H. destruct num; try discriminate; exact H. }
    rewrite <- Hr at 1. apply rnd_mono. lia.
  - destruct step as [ss|ss| |ss ms es]; try discriminate.
    + right. cbn in Ss. apply negb_true_iff in Ss. subst ss.
      pose proof (val_lt_top_finite num Vn Fn).
      destruct num; try discriminate;
        (split; [split; [reflexivity|discriminate]|]; cbn [add SFadd val cond_Zopp] in *; lia).
    + left. destruct num; reflexivity.
Qed.

(** [c + x] between [c + a] and [c + b] *)
Lemma add_between (c a x b : number) :
  is_double c = true -> isFinite c = true ->
  is_double a = true -> isFinite a = true ->
  is_double x = true -> isFinite x = true ->
  is_double b = true -> isFinite b = true ->
  val a <= val x <= val b ->
  isFinite (add c a) = true -> isFinite (add c b) = true ->
  is_double (add c x) = true /\ isFinite (add c x) = true /\
  val (add c a) <= val (add c x) <= val (add c b).
Proof.
  intros Vc Fc Va Fa Vx Fx Vb Fb Hx Fca Fcb.
  destruct (add_val c a Vc Va Fc Fa) as [Wa Ea].
  destruct (add_val c x Vc Vx Fc Fx) as [Wx Ex].
  destruct (add_val c b Vc Vb Fc Fb) as [Wb Eb].
  pose proof (val_lt_top_finite _ (proj1 Wa) Fca) as Ra.
  pose proof (val_lt_top_finite _ (proj1 Wb) Fcb) as Rb.
  assert (Hr : val (add c a) <= val (add c x) <= val (add c b)).
  { rewrite Ea, Ex, Eb. split; apply rnd_mono; lia. }
  split; [apply Wx|]. split; [|assumption].
  apply wf_finite; [assumption|lia].
Qed.

(** [x * s] between [a * s] and [b * s], for [s >= 0] *)
Lemma mul_between (s a x b : number) :
  is_double s = true -> isFinite s = true -> 0 <= val s ->
  is_double a = true -> isFinite a = true ->
  is_double x = true -> isFinite x = true ->
  is_double b = true -> isFinite b = true ->
  val a <= val x <= val b ->
  isFinite (mul a s) = true -> isFinite (mul b s) = true ->
  is_double (mul x s) = true /\ isFinite (mul x s) = true /\
  val (mul a s) <= val (mul x s) <= val (mul b s).
Proof.
  intros Vs Fs Hs Va Fa Vx Fx Vb Fb Hx Fca Fcb.
  destruct (mul_val a s Va Vs Fa Fs) as [Wa Ea].
  destruct (mul_val x s Vx Vs Fx Fs) as [Wx Ex].
  destruct (mul_val b s Vb Vs Fb Fs) as [Wb Eb].
  pose proof (val_lt_top_finite _ (proj1 Wa) Fca) as Ra.
  pose proof (val_lt_top_finite _ (proj1 Wb) Fcb) as Rb.
  assert (Hr : val (mul a s) <= val (mul x s) <= val (mul b s)).
  { rewrite Ea, Ex, Eb. split; apply rnd2_mono; nia. }
  split; [apply Wx|]. split; [|assumption].
  apply wf_finite; [assumption|lia].
Qed.

(** [c / x] between [c / b] and [c / a], for positive numbers *)
Lemma div_between (c a x b : number) :
  is_double c = true -> isFinite c = true -> 0 < val c ->
  is_double a = true -> isFinite a = true ->
  is_double x = true -> isFinite x = true ->
  is_double b = true -> isFinite b = true ->
  0 < val a -> val a <= val x <= val b ->
  is_double (div c x) = true /\ div c x <> NaN /\
  val (div c b) <= val (div c x) <= val (div c a).
Proof.
  intros Vc Fc Hc Va Fa Vx Fx Vb Fb Ha Hx.
  destruct (positive_shape c Vc Fc Hc) as [mc [ec ->]].
  destruct (positive_shape a Va Fa Ha) as [ma [ea ->]].
  destruct (positive_shape x Vx Fx ltac:(lia)) as [mx [ex ->]].
  destruct (positive_shape b Vb Fb ltac:(lia)) as [mb [eb ->]].
  destruct (div_finite_val false false mc ma ec ea Vc Va) as [Wa Ea].
  destruct (div_finite_val false false mc mx ec ex Vc Vx) as [Wx Ex].
  destruct (div_finite_val false false mc mb ec eb Vc Vb) as [Wb Eb].
  cbv zeta in *. rewrite Ea, Ex, Eb. cbn [xorb cond_Zopp].
  cbn [val cond_Zopp] in Hx, Ha, Hc.
  split; [apply Wx|]. split; [apply Wx|].
  split; apply RQ_mono; try lia; nia.
Qed.

(** ** [rangeStep] *)

Lemma rangeStep_loop_length (fuel : nat) (num end_ step : number) :
  (length (rangeStep_loop fuel num end_ step) <= fuel)%nat.
Proof.
  revert num; induction fuel as [|fuel IH]; intros num; simpl.
  - apply Nat.le_refl.
  - destruct (lt num end_); simpl.
    + apply le_n_S, IH.
    + apply Nat.le_0_l.
Qed.

Lemma addn_shift (start step : number) (k : nat) :
  addn (add start step) step k = addn start step (S k).
Proof.
  induction k as [|k IH]; simpl; [reflexivity|]. now rewrite IH.
Qed.

Lemma rangeStep_loop_nth (fuel : nat) (num end_ step : number) (k : nat) (v : number) :
  nth_error (rangeStep_loop fuel num end_ step) k = Some v ->
  v = addn num step k /\ lt v end_ = true.
Proof.
  revert num k; induction fuel as [|fuel IH]; intros num k; simpl.
  - destruct k; discriminate.
  - destruct (lt num end_) eqn:Hlt.
    + destruct k as [|k]; simpl.
      * intros [= <-]. now split.
      * intros H. apply IH in H. now rewrite addn_shift in H.
    + destruct k; discriminate.
Qed.

Lemma rangeStep_loop_stop (fuel : nat) (num end_ step : number) :
  (length (rangeStep_loop fuel num end_ step) < fuel)%nat ->
  lt (addn num step (length (rangeStep_loop fuel num end_ step))) end_ = false.
Proof.
  revert num; induction fuel as [|fuel IH]; intros num; simpl.
  - intros H; inversion H.
  - destruct (lt num end_) eqn:Hlt; simpl.
    + intros H. apply Nat.succ_lt_mono in H. apply IH in H.
      now rewrite addn_shift in H.
    + now intros _.
Qed.

Lemma rangeStep_cap_pos : exists n, rangeStep_cap = S n.
Proof.
  assert (H : Z.of_nat rangeStep_cap = 100000)
    by (unfold rangeStep_cap; apply Z2Nat.id; discriminate).
  revert H. generalize rangeStep_cap as c. intros [|n] H; [discriminate|eauto].
Qed.

Lemma rangeStep_head (start end_ step : number) :
  lt start end_ = true ->
  exists rest, rangeStep start end_ step = start :: rest.
Proof.
  intros H. unfold rangeStep. destruct rangeStep_cap_pos as [n ->].
  cbn [rangeStep_loop]. rewrite H. eauto.
Qed.

(** C8.  [rangeStep start end_ step] never holds more than 100000 elements;
    its element of index [k] is [start] with [step] added [k] times, and is
    strictly below [end_]; and when the cap is not reached the next value of
    that sequence is not below [end_].  This holds for every [step], zero,
    negative and NaN included. *)
Theorem rangeStep_spec (start end_ step : number) :
  let l := rangeStep start end_ step in
  Z.of_nat (length l) <= 100000 /\
  (forall k v, nth_error l k = Some v ->
     v = addn start step k /\ lt v end_ = true) /\
  (Z.of_nat (length l) < 100000 ->
     lt (addn start step (length l)) end_ = false).
Proof.
  unfold rangeStep.
  assert (Hcap : Z.of_nat rangeStep_cap = 100000)
    by (unfold rangeStep_cap; apply Z2Nat.id; discriminate).
  revert Hcap. generalize rangeStep_cap as cap. intros cap Hcap.
  cbv zeta. rewrite <- Hcap. split; [|split].
  - apply inj_le, rangeStep_loop_length.
  - intros k v H. exact (rangeStep_loop_nth _ _ _ _ _ _ H).
  - intros H. apply rangeStep_loop_stop. now apply Nat2Z.inj_lt.
Qed.

(** every tick that [rangeStep] emits from a start that is not below [lo],
    with a step that is not negative, lies between [lo] and [hi] *)
Lemma rangeStep_loop_within (lo hi step : number) :
  is_double lo = true -> isFinite lo = true ->
  is_double step = true -> sign_ok step = true ->
  forall (fuel : nat) (num : number),
    num = NaN \/ (wf num /\ val lo <= val num) ->
    all_within lo hi (rangeStep_loop fuel num hi step) = true.
Proof.
  intros Hlo Flo Hst Sst.
  assert (Wlo : wf lo) by (split; [assumption|destruct lo; discriminate]).
  pose proof (val_lt_top_finite lo Hlo Flo) as Rlo.
  induction fuel as [|fuel IH]; intros num Hnum; [reflexivity|].
  cbn [rangeStep_loop]. destruct (lt num hi) eqn:Hlt; [|reflexivity].
  destruct (lt_not_nan _ _ Hlt) as [Hnn _].
  destruct Hnum as [Hnan|[Wnum Hval]]; [contradiction|].
  unfold all_within in *. cbn [forallb].
  rewrite (lt_le _ _ Hlt), andb_true_r.
  unfold le at 1. rewrite (SFleb_val lo num Wlo Wnum).
  apply andb_true_intro; split; [apply Z.leb_le; assumption|].
  apply IH.
  destruct Wnum as [Vnum _].
  assert (Fnum : isFinite num = true).
  { destruct num as [sn|sn| |sn mn en]; try reflexivity; [|contradiction].
    destruct sn; [cbn [val cond_Zopp] in Hval; lia|].
    rewrite lt_pinf in Hlt. discriminate. }
  destruct (add_step_ge num step Vnum Fnum Hst Sst) as [H|[W V]]; [now left|].
  right. split; [exact W|lia].
Qed.

Lemma all_within_rev (lo hi : number) (l : list number) :
  all_within lo hi (rev l) = all_within lo hi l.
Proof.
  unfold all_within. induction l as [|x l IH]; [reflexivity|].
  cbn [rev forallb]. rewrite forallb_app, IH. cbn [forallb].
  rewrite andb_true_r. apply andb_comm.
Qed.

(** ** [getFormatStep] *)


Lemma getFormatStep_valid (roughStep : number) (allowDecimals : bool) (cf : number) :
  is_double cf = true -> is_double (getFormatStep roughStep allowDecimals cf) = true.
Proof.
  intros Hc. unfold getFormatStep.
  destruct (le roughStep zero || negb (isFinite roughStep)); [reflexivity|].
  cbv zeta.
  set (p := pow10 (sub (getDigitCount roughStep) one)).
  set (scale := if ne (getDigitCount roughStep) one then lit_0_05 else lit_0_1).
  assert (Hsc : is_double scale = true).
  { unfold scale. destruct lit_valid as [[? _] [[? _] _]]. destruct (ne _ _); assumption. }
  destruct (pow10_valid (sub (getDigitCount roughStep) one)) as [Hp _]. fold p in Hp.
  assert (H : is_double (mul (mul (add (ceil (div (div roughStep p) scale)) cf) scale) p) = true).
  { repeat apply mul_valid; try assumption. apply add_valid; [|assumption].
    apply ceil_valid, div_valid. }
  destruct (negb allowDecimals); [now apply ceil_valid|assumption].
Qed.

Lemma getFormatStep_sign_ok_gen (roughStep : number) (allowDecimals : bool) (cf : number) :
  sign_ok cf = true \/ cf = S754_zero true ->
  sign_ok (getFormatStep roughStep allowDecimals cf) = true.
Proof.
  intros Hc. unfold getFormatStep.
  destruct (le roughStep zero) eqn:Hle; [reflexivity|].
  destruct (isFinite roughStep) eqn:Hf; [|reflexivity]. cbn [orb negb]. cbv zeta.
  assert (Hr : sign_ok roughStep = true).
  { destruct roughStep as [s|s| |s m e]; try discriminate.
    destruct s; [discriminate|reflexivity]. }
  set (p := pow10 (sub (getDigitCount roughStep) one)).
  set (scale := if ne (getDigitCount roughStep) one then lit_0_05 else lit_0_1).
  assert (Hsc : sign_ok scale = true).
  { unfold scale. destruct lit_valid as [_ [_ [? [? _]]]]. destruct (ne _ _); assumption. }
  destruct (pow10_valid (sub (getDigitCount roughStep) one)) as [_ Hp]. fold p in Hp.
  assert (H : sign_ok (mul (mul (add (ceil (div (div roughStep p) scale)) cf) scale) p) = true).
  { repeat apply mul_sign_ok; try assumption. apply add_sign_ok_gen; [|assumption].
    apply ceil_sign_ok. repeat apply div_sign_ok; assumption. }
  destruct (negb allowDecimals); [now apply ceil_sign_ok|assumption].
Qed.

Lemma getFormatStep_sign_ok (roughStep : number) (allowDecimals : bool) (cf : number) :
  sign_ok cf = true -> sign_ok (getFormatStep roughStep allowDecimals cf) = true.
Proof. intros H. apply getFormatStep_sign_ok_gen. now left. Qed.

Lemma sign_ok_not_lt_zero (x : number) : sign_ok x = true -> lt x zero = false.
Proof.
  destruct x as [s|s| |s m e]; cbn [sign_ok]; intros H; try reflexivity;
    apply negb_true_iff in H; subst; reflexivity.
Qed.





(** ** [calculateStep] *)

Lemma calculateStep_unfold (fuel : nat) (min max : number) (tickCount : Z)
    (allowDecimals : bool) (cf : number) :
  calculateStep (S fuel) min max tickCount allowDecimals cf =
  let tc := ofZ tickCount in
  let roughStep := roughStepOf min max tickCount in
  if negb (isFinite roughStep) then Some (mkStep zero zero zero)
  else
    let step := getFormatStep roughStep allowDecimals cf in
    let middle := middleOf min max step in
    let belowCount := ceil (div (sub middle min) step) in
    let upCount := ceil (div (sub max middle) step) in
    let scaleCount := scaleCountOf min max step in
    if gt scaleCount tc then
      calculateStep fuel min max tickCount allowDecimals (add cf one)
    else
      let '(belowCount, upCount) :=
        if lt scaleCount tc then
          if gt max zero then (belowCount, add upCount (sub tc scaleCount))
          else (add belowCount (sub tc scaleCount), upCount)
        else (belowCount, upCount) in
      Some (mkStep step
              (sub middle (mul belowCount step))
              (add middle (mul upCount step))).
Proof. reflexivity. Qed.

Lemma calculateStep_guard (fuel : nat) (min max : number) (tickCount : Z)
    (allowDecimals : bool) (cf : number) :
  isFinite (roughStepOf min max tickCount) = false ->
  calculateStep (S fuel) min max tickCount allowDecimals cf
    = Some (mkStep zero zero zero).
Proof.
  intros H. rewrite calculateStep_unfold. cbv zeta. rewrite H. reflexivity.
Qed.

(** C9.  When [(max - min) / (tickCount - 1)] is not finite, [calculateStep]
    returns the zero-step sentinel at once: a depth of one call is enough,
    so it did not recurse.  A [tickCount] of one is such a case, whatever
    the bounds. *)
Theorem calculateStep_nonfinite_sentinel (fuel : nat) (min max : number)
    (tickCount : Z) (allowDecimals : bool) (cf : number) :
  isFinite (div (sub max min) (sub (ofZ tickCount) one)) = false ->
  calculateStep (S fuel) min max tickCount allowDecimals cf
    = Some (mkStep zero zero zero).
Proof. apply calculateStep_guard. Qed.

Lemma calculateStep_nonfinite_sentinel_witness :
  isFinite (div (sub one zero) (sub (ofZ 1) one)) = false /\
  calculateStep 1 zero one 1 true zero = Some (mkStep zero zero zero).
Proof.
  split; [vm_compute; reflexivity|].
  apply (calculateStep_nonfinite_sentinel 0 zero one 1 true zero).
  vm_compute; reflexivity.
Defined.

(** One tick: the divisor [tickCount - 1] is zero and the rough step is
    not finite, whatever the bounds. *)
Lemma calculateStep_one_tick (fuel : nat) (min max : number)
    (allowDecimals : bool) (cf : number) :
  calculateStep (S fuel) min max 1 allowDecimals cf
    = Some (mkStep zero zero zero).
Proof.
  apply calculateStep_guard. unfold roughStepOf.
  replace (sub (ofZ 1) one) with zero by (vm_compute; reflexivity).
  apply div_by_zero_not_finite.
Qed.

Lemma calculateStep_recurse (fuel : nat) (min max : number) (tickCount : Z)
    (allowDecimals : bool) (cf : number) :
  isFinite (roughStepOf min max tickCount) = true ->
  gt (scaleCountOf min max
        (getFormatStep (roughStepOf min max tickCount) allowDecimals cf))
     (ofZ tickCount) = true ->
  calculateStep (S fuel) min max tickCount allowDecimals cf
    = calculateStep fuel min max tickCount allowDecimals (add cf one).
Proof.
  intros Hfin Hgt. rewrite calculateStep_unfold. cbv zeta.
  rewrite Hfin, Hgt. reflexivity.
Qed.

(** *** The recursion for two ticks around zero *)

Lemma reachable_zero : reachable_cf zero.
Proof. repeat split; try reflexivity; vm_compute; discriminate. Qed.

Lemma reachable_succ (cf : number) : reachable_cf cf -> reachable_cf (add cf one).
Proof.
  intros [V [F [H0 H1]]].
  assert (C1 : is_double one = true /\ isFinite one = true)
    by (split; vm_compute; reflexivity).
  assert (C2 : is_double two53 = true /\ isFinite two53 = true)
    by (split; vm_compute; reflexivity).
  destruct (add_val cf one V (proj1 C1) F (proj2 C1)) as [W E].
  assert (Hb : 0 <= val (add cf one) <= val two53).
  { rewrite E. split.
    - change 0 with (rnd 0). apply rnd_mono.
      assert (0 <= val one) by (vm_compute; discriminate). lia.
    - replace (val two53) with (val (add two53 one)) by (vm_compute; reflexivity).
      destruct (add_val two53 one (proj1 C2) (proj1 C1) (proj2 C2) (proj2 C1)) as [_ ->].
      apply rnd_mono. lia. }
  split; [apply W|]. split; [|assumption].
  apply wf_finite; [assumption|].
  assert (val two53 < top) by (vm_compute; reflexivity).
  pose proof top_pos. lia.
Qed.

Lemma getFormatStep_two (cf : number) :
  getFormatStep two true cf = mul (mul (add (ofZ 20) cf) lit_0_1) one.
Proof.
  unfold getFormatStep.
  replace (le two zero || negb (isFinite two)) with false by reflexivity.
  cbv zeta.
  replace (getDigitCount two) with one by (vm_compute; reflexivity).
  replace (ne one one) with false by reflexivity.
  replace (pow10 (sub one one)) with one by (vm_compute; reflexivity).
  replace (ceil (div (div two one) lit_0_1)) with (ofZ 20) by (vm_compute; reflexivity).
  reflexivity.
Qed.

(** the step for two ticks on [[-1, 1]] stays between [2] and about
    [9 * 10^14] *)
Lemma step_two_bounds (cf : number) :
  reachable_cf cf ->
  let step := getFormatStep two true cf in
  is_double step = true /\ isFinite step = true /\
  val two <= val step <= val (getFormatStep two true two53).
Proof.
  intros [V [F H]]. cbv zeta. rewrite !getFormatStep_two.
  set (c20 := ofZ 20).
  assert (C1 : is_double c20 = true /\ isFinite c20 = true)
    by (split; vm_compute; reflexivity).
  assert (C2 : is_double two53 = true /\ isFinite two53 = true)
    by (split; vm_compute; reflexivity).
  assert (C3 : isFinite (add c20 zero) = true /\ isFinite (add c20 two53) = true)
    by (split; vm_compute; reflexivity).
  destruct (add_between c20 zero cf two53 (proj1 C1) (proj2 C1) eq_refl eq_refl
              V F (proj1 C2) (proj2 C2) H (proj1 C3) (proj2 C3)) as [VX [FX HX]].
  assert (C4 : is_double lit_0_1 = true /\ isFinite lit_0_1 = true /\ 0 <= val lit_0_1)
    by (repeat split; vm_compute; try reflexivity; discriminate).
  assert (C5 : is_double (add c20 zero) = true /\ is_double (add c20 two53) = true)
    by (split; vm_compute; reflexivity).
  assert (C6 : isFinite (mul (add c20 zero) lit_0_1) = true /\
               isFinite (mul (add c20 two53) lit_0_1) = true)
    by (split; vm_compute; reflexivity).
  destruct (mul_between lit_0_1 (add c20 zero) (add c20 cf) (add c20 two53)
              (proj1 C4) (proj1 (proj2 C4)) (proj2 (proj2 C4))
              (proj1 C5) (proj1 C3) VX FX (proj2 C5) (proj2 C3) HX
              (proj1 C6) (proj2 C6)) as [VY [FY HY]].
  assert (C7 : is_double one = true /\ isFinite one = true /\ 0 <= val one)
    by (repeat split; vm_compute; try reflexivity; discriminate).
  assert (C8 : is_double (mul (add c20 zero) lit_0_1) = true /\
               is_double (mul (add c20 two53) lit_0_1) = true)
    by (split; vm_compute; reflexivity).
  assert (C9 : isFinite (mul (mul (add c20 zero) lit_0_1) one) = true /\
               isFinite (mul (mul (add c20 two53) lit_0_1) one) = true)
    by (split; vm_compute; reflexivity).
  destruct (mul_between one (mul (add c20 zero) lit_0_1)
              (mul (add c20 cf) lit_0_1) (mul (add c20 two53) lit_0_1)
              (proj1 C7) (proj1 (proj2 C7)) (proj2 (proj2 C7))
              (proj1 C8) (proj1 C6) VY FY (proj2 C8) (proj2 C6) HY
              (proj1 C9) (proj2 C9)) as [VZ [FZ HZ]].
  split; [assumption|]. split; [assumption|].
  replace (val two) with (val (mul (mul (add c20 zero) lit_0_1) one))
    by (vm_compute; reflexivity).
  exact HZ.
Qed.

Lemma scaleCountOf_two (step : number) :
  scaleCountOf (ofZ (-1)) (ofZ 1) step
  = add (add (ceil (div one step)) (ceil (div one step))) one.
Proof.
  unfold scaleCountOf, middleOf.
  replace (le (ofZ (-1)) zero && ge (ofZ 1) zero) with true by reflexivity.
  cbv zeta.
  replace (sub zero (ofZ (-1))) with one by reflexivity.
  replace (sub (ofZ 1) zero) with one by reflexivity.
  reflexivity.
Qed.

(** between [2] and that bound, [ceil(1 / step)] is worth one *)
Lemma count_is_one (step : number) :
  is_double step = true -> isFinite step = true ->
  val two <= val step <= val (getFormatStep two true two53) ->
  let count := ceil (div one step) in
  is_double count = true /\ isFinite count = true /\ val count = val one.
Proof.
  intros V F H. cbv zeta.
  set (hi := getFormatStep two true two53) in *.
  assert (Chi : is_double hi = true /\ isFinite hi = true)
    by (split; vm_compute; reflexivity).
  assert (C1 : is_double one = true /\ isFinite one = true /\ 0 < val one)
    by (repeat split; vm_compute; reflexivity).
  assert (C2 : is_double two = true /\ isFinite two = true /\ 0 < val two)
    by (repeat split; vm_compute; reflexivity).
  destruct (div_between one two step hi
              (proj1 C1) (proj1 (proj2 C1)) (proj2 (proj2 C1))
              (proj1 C2) (proj1 (proj2 C2)) V F (proj1 Chi) (proj2 Chi)
              (proj2 (proj2 C2)) H) as [VD [ND HD]].
  destruct (ceil_spec (div one step) VD ND) as [WC EC].
  assert (Hv : val (ceil (div one step)) = val one).
  { rewrite EC. apply Z.le_antisymm.
    - replace (val one) with (ceilZ (val (div one two))) by (vm_compute; reflexivity).
      apply ceilZ_mono. lia.
    - replace (val one) with (val (ceil (div one hi))) by (vm_compute; reflexivity).
      assert (C3 : is_double (div one hi) = true) by (vm_compute; reflexivity).
      assert (C4 : div one hi <> S754_nan) by (vm_compute; discriminate).
      destruct (ceil_spec (div one hi) C3 C4) as [_ ->].
      apply ceilZ_mono. lia. }
  split; [apply WC|]. split; [|assumption].
  apply wf_finite; [assumption|]. rewrite Hv. vm_compute. split; reflexivity.
Qed.

Lemma two_ticks_scaleCount (cf : number) :
  reachable_cf cf ->
  gt (scaleCountOf (ofZ (-1)) (ofZ 1)
        (getFormatStep (roughStepOf (ofZ (-1)) (ofZ 1) 2) true cf))
     (ofZ 2) = true.
Proof.
  intros Hcf.
  replace (roughStepOf (ofZ (-1)) (ofZ 1) 2) with two by (vm_compute; reflexivity).
  destruct (step_two_bounds cf Hcf) as [Vs [Fs Hs]].
  set (step := getFormatStep two true cf) in *.
  rewrite scaleCountOf_two.
  destruct (count_is_one step Vs Fs Hs) as [VB [FB EB]].
  set (B := ceil (div one step)) in *.
  assert (C1 : is_double one = true /\ isFinite one = true)
    by (split; vm_compute; reflexivity).
  assert (C2 : is_double (add one one) = true /\ isFinite (add one one) = true)
    by (split; vm_compute; reflexivity).
  destruct (add_val B B VB VB FB FB) as [W2 E2].
  assert (E2' : val (add B B) = val (add one one)).
  { rewrite E2, EB.
    destruct (add_val one one (proj1 C1) (proj1 C1) (proj2 C1) (proj2 C1)) as [_ ->].
    reflexivity. }
  assert (F2 : isFinite (add B B) = true).
  { apply wf_finite; [assumption|]. rewrite E2'. vm_compute. split; reflexivity. }
  destruct (add_val (add B B) one (proj1 W2) (proj1 C1) F2 (proj2 C1)) as [W3 E3].
  assert (E3' : val (add (add B B) one) = val (add (add one one) one)).
  { rewrite E3, E2'.
    destruct (add_val (add one one) one (proj1 C2) (proj1 C1) (proj2 C2) (proj2 C1)) as [_ ->].
    reflexivity. }
  unfold gt. rewrite SFltb_val; [|split; [vm_compute; reflexivity|vm_compute; discriminate]|assumption].
  rewrite E3'. vm_compute. reflexivity.
Qed.

Lemma calculateStep_two_ticks_loop (fuel : nat) (cf : number) :
  reachable_cf cf ->
  calculateStep fuel (ofZ (-1)) (ofZ 1) 2 true cf = None.
Proof.
  revert cf. induction fuel as [|fuel IH]; intros cf Hcf; [reflexivity|].
  rewrite calculateStep_recurse.
  - apply IH. now apply reachable_succ.
  - vm_compute; reflexivity.
  - now apply two_ticks_scaleCount.
Qed.

(** C1 fails on the code: [calculateStep(-1, 1, 2, true, 0)], the call that
    [getNiceTickValues([-1, 1], 2)] makes, has finite bounds with
    [min < max] and a tick count of two, and its recursion never ends.  At
    every correction factor the step lies between 2 and 9 * 10^14, both
    counts are one, and [scaleCount] is three: no depth gives a result. *)
Theorem calculateStep_two_ticks_diverges (fuel : nat) :
  lt (ofZ (-1)) (ofZ 1) = true /\
  calculateStep fuel (ofZ (-1)) (ofZ 1) 2 true zero = None /\
  getNiceTickValues fuel (ofZ (-1), ofZ 1) 2 true = None.
Proof.
  split; [reflexivity|].
  assert (H : calculateStep fuel (ofZ (-1)) (ofZ 1) 2 true zero = None)
    by (apply calculateStep_two_ticks_loop, reachable_zero).
  split; [exact H|].
  unfold getNiceTickValues, getValidInterval.
  replace (gt (ofZ (-1)) (ofZ 1)) with false by reflexivity.
  replace (eq (ofZ (-1)) NegInfinity || eq (ofZ 1) Infinity) with false by reflexivity.
  replace (eq (ofZ (-1)) (ofZ 1)) with false by reflexivity.
  change (Z.max 2 2) with 2. now rewrite H.
Qed.

(** *** The recursion on an underflowing rough step *)

(** Between the two smallest numbers around zero the rough step for six
    ticks underflows to zero, [getFormatStep] answers zero whatever the
    correction factor, and both counts are infinite: every call recurses. *)
Lemma subnormal_scaleCount (cf : number) :
  gt (scaleCountOf negMinSubnormal minSubnormal
        (getFormatStep (roughStepOf negMinSubnormal minSubnormal 6) true cf))
     (ofZ 6) = true.
Proof.
  replace (roughStepOf negMinSubnormal minSubnormal 6) with zero
    by (vm_compute; reflexivity).
  change (getFormatStep zero true cf) with zero.
  vm_compute. reflexivity.
Qed.

(** [calculateStep(-5e-324, 5e-324, 6, true, 0)] is a call on finite
    bounds with [min < max] and a tick count above two whose recursion
    never ends: no depth is enough for a result. *)
Lemma calculateStep_subnormal_diverges :
  lt negMinSubnormal minSubnormal = true /\
  forall (fuel : nat) (cf : number),
    calculateStep fuel negMinSubnormal minSubnormal 6 true cf = None.
Proof.
  split; [reflexivity|].
  induction fuel as [|fuel IH]; intros cf; [reflexivity|].
  rewrite calculateStep_recurse.
  - apply IH.
  - vm_compute; reflexivity.
  - apply subnormal_scaleCount.
Qed.

(** ** [getNiceTickValues] *)

(** C2.  [getNiceTickValues([0, 100], 6)]: the step solver answers at its
    first call with step 20 and the range [0 .. 100], and the ticks are
    [0, 20, 40, 60, 80, 100]. *)
Theorem getNiceTickValues_0_100 (fuel : nat) :
  calculateStep (S fuel) (ofZ 0) (ofZ 100) 6 true zero
    = Some (mkStep (ofZ 20) (ofZ 0) (ofZ 100)) /\
  getNiceTickValues (S fuel) (ofZ 0, ofZ 100) 6 true
    = Some (map ofZ [0; 20; 40; 60; 80; 100]).
Proof. split; vm_compute; reflexivity. Qed.

(** C6 as stated fails: the ticks of [getNiceTickValues([5, 5], 4)] are not
    [3, 4, 5, 6]. *)
Lemma getNiceTickValues_5_5_not_centered :
  getNiceTickValues 1 (ofZ 5, ofZ 5) 4 true <> Some (map ofZ [3; 4; 5; 6]).
Proof. vm_compute. discriminate. Qed.

(** C6, amended.  [getNiceTickValues([5, 5], 4)] is the four ticks
    [4, 5, 6, 7] of step one: the value 5 sits at the middle index
    [floor((4 - 1) / 2) = 1]. *)
Theorem getNiceTickValues_5_5 (fuel : nat) :
  getNiceTickValues fuel (ofZ 5, ofZ 5) 4 true = Some (map ofZ [4; 5; 6; 7]) /\
  floor (div (sub (ofZ 4) one) two) = ofZ 1.
Proof. split; vm_compute; reflexivity. Qed.

(** C7.  An infinite lower bound: the finite bound stays in place and the
    other three slots hold the infinite value; swapping the bounds reverses
    the array. *)
Theorem getNiceTickValues_infinite (fuel : nat) :
  getNiceTickValues fuel (NegInfinity, ofZ 5) 4 true
    = Some [NegInfinity; NegInfinity; NegInfinity; ofZ 5] /\
  getNiceTickValues fuel (ofZ 5, NegInfinity) 4 true
    = Some [ofZ 5; NegInfinity; NegInfinity; NegInfinity].
Proof. split; vm_compute; reflexivity. Qed.

(** C3 fails on the code: with the bounds [-0.6] and [0.4] and six ticks the
    solver returns at its first call, six ticks come back, and none of them
    is zero (the fourth is [-2^-54]). *)
Theorem getNiceTickValues_misses_zero (fuel : nat) :
  let min := decimal (-6) 1 in
  let max := decimal 4 1 in
  isFinite min = true /\ isFinite max = true /\ lt min max = true /\
  le min zero = true /\ le zero max = true /\
  exists ticks,
    getNiceTickValues (S fuel) (min, max) 6 true = Some ticks /\
    length ticks = 6%nat /\
    nth_error ticks 3 = Some (S754_finite true 4503599627370496 (-106)) /\
    contains ticks zero = false.
Proof.
  cbv zeta. repeat (split; [vm_compute; reflexivity|]).
  eexists. split; [vm_compute; reflexivity|].
  repeat split.
Qed.

(** C5.  For finite bounds that differ, swapping them reverses the ticks;
    this holds at every depth of the step solver, also when it does not
    answer. *)
Theorem getNiceTickValues_reverse (fuel : nat) (a b : number) (tickCount : Z)
    (allowDecimals : bool) :
  isFinite a = true -> isFinite b = true -> eq a b = false ->
  getNiceTickValues fuel (a, b) tickCount allowDecimals
    = option_map (@rev number) (getNiceTickValues fuel (b, a) tickCount allowDecimals).
Proof.
  intros Ha Hb Hne.
  assert (Hne' : eq b a = false) by (now rewrite eq_sym_number).
  unfold getNiceTickValues, getValidInterval.
  destruct (finite_ne_cases a b Ha Hb Hne) as [[H1 H2]|[H1 H2]];
    rewrite H1, H2.
  - rewrite Hne'.
    destruct (eq b NegInfinity || eq a Infinity); [reflexivity|].
    destruct (calculateStep fuel b a (Z.max tickCount 2) allowDecimals zero);
      reflexivity.
  - rewrite Hne.
    destruct (eq a NegInfinity || eq b Infinity);
      [simpl; now rewrite rev_involutive|].
    destruct (calculateStep fuel a b (Z.max tickCount 2) allowDecimals zero);
      simpl; [now rewrite rev_involutive|reflexivity].
Qed.

Lemma getNiceTickValues_reverse_witness :
  getNiceTickValues 1 (ofZ 0, ofZ 100) 6 true
    = option_map (@rev number) (getNiceTickValues 1 (ofZ 100, ofZ 0) 6 true).
Proof.
  apply (getNiceTickValues_reverse 1 (ofZ 0) (ofZ 100) 6 true);
    vm_compute; reflexivity.
Defined.

(** ** [getTickValuesFixedDomain] *)

(** C4.  The documentation of [getTickValuesFixedDomain] says that the ticks
    are constrained to the interval [[min, max]], and the claim says so for
    both values of [allowDecimals].  On [[0, 0.5]] with three ticks and
    [allowDecimals] false the code returns [[0, 1]]: the appended maximum
    [0.5] is rounded with the other ticks, and the last tick [1] lies above
    the maximum, outside the domain. *)
Theorem getTickValuesFixedDomain_leaves_domain :
  let ticks := getTickValuesFixedDomain (zero, decimal 5 1) 3 false in
  ticks = [zero; one] /\
  all_within zero (decimal 5 1) ticks = false /\
  gt (last ticks NaN) (decimal 5 1) = true.
Proof. vm_compute. repeat split; reflexivity. Qed.

(** the ticks of the fixed domain before the reversal *)
Lemma fixed_ticks_within (lo hi step : number) :
  is_double lo = true -> isFinite lo = true -> isFinite hi = true ->
  lt lo hi = true ->
  is_double step = true -> sign_ok step = true ->
  let values := rangeStep lo hi step ++ [hi] in
  all_within lo hi values = true /\ last values NaN = hi /\
  last (rev values) NaN = lo.
Proof.
  intros Vlo Flo Fhi Hlt Vs Ss. cbv zeta.
  assert (Wlo : wf lo) by (split; [assumption|destruct lo; discriminate]).
  split; [|split].
  - unfold all_within. rewrite forallb_app. apply andb_true_intro; split.
    + apply (rangeStep_loop_within lo hi step Vlo Flo Vs Ss).
      right. split; [assumption|lia].
    + cbn [forallb]. rewrite (lt_le _ _ Hlt), (le_refl_finite hi Fhi). reflexivity.
  - apply last_last.
  - destruct (rangeStep_head lo hi step Hlt) as [rest ->].
    rewrite rev_app_distr. cbn [rev app].
    rewrite app_comm_cons. apply last_last.
Qed.

(** X22.  With decimals allowed, the ticks of [getTickValuesFixedDomain] on
    two finite bounds that differ all lie between the smaller and the larger
    bound, and the last tick is [max] itself, whichever way round the bounds
    were given: on this path the ticks are constrained to the domain, as the
    documentation of the function says. *)
Theorem getTickValuesFixedDomain_within (min max : number) (tickCount : Z) :
  is_double min = true -> is_double max = true ->
  isFinite min = true -> isFinite max = true -> eq min max = false ->
  let ticks := getTickValuesFixedDomain (min, max) tickCount true in
  let '(lo, hi) := getValidInterval (min, max) in
  all_within lo hi ticks = true /\ last ticks NaN = max.
Proof.
  intros Vmin Vmax Fmin Fmax Hne. cbv zeta.
  unfold getTickValuesFixedDomain, getValidInterval, NegInfinity, Infinity.
  destruct (finite_lt_cases min max Fmin Fmax Hne) as [[Hgt Hlt]|[Hgt Hlt]];
    rewrite Hgt.
  - rewrite (eq_infinity_finite max true Fmax), (eq_infinity_finite min false Fmin).
    cbn [orb]. rewrite eq_sym_number, Hne. cbn [negb].
    set (step := getFormatStep _ true zero).
    destruct (fixed_ticks_within max min step Vmax Fmax Fmin Hlt
                (getFormatStep_valid _ true zero eq_refl)
                (getFormatStep_sign_ok _ true zero eq_refl)) as [H1 [_ H3]].
    split; [|exact H3]. now rewrite all_within_rev.
  - rewrite (eq_infinity_finite min true Fmin), (eq_infinity_finite max false Fmax).
    cbn [orb]. rewrite Hne. cbn [negb].
    set (step := getFormatStep _ true zero).
    destruct (fixed_ticks_within min max step Vmin Fmin Fmax Hlt
                (getFormatStep_valid _ true zero eq_refl)
                (getFormatStep_sign_ok _ true zero eq_refl)) as [H1 [H2 _]].
    split; assumption.
Qed.

Lemma getTickValuesFixedDomain_within_witness :
  all_within (ofZ 0) (ofZ 100) (getTickValuesFixedDomain (ofZ 100, ofZ 0) 6 true) = true /\
  last (getTickValuesFixedDomain (ofZ 100, ofZ 0) 6 true) NaN = ofZ 0.
Proof.
  apply (getTickValuesFixedDomain_within (ofZ 100) (ofZ 0) 6);
    vm_compute; reflexivity.
Defined.

(** * Further properties of the tick functions *)

(** ** [getValidInterval] *)

Lemma lt_asym (x y : number) : lt x y = true -> lt y x = false.
Proof.
  unfold lt, SFltb. rewrite (SFcompare_antisym x y).
  destruct (SFcompare x y) as [[]|]; cbn; congruence.
Qed.

Lemma not_gt_le (x y : number) :
  x <> NaN -> y <> NaN -> gt x y = false -> le x y = true.
Proof.
  intros Hx Hy. unfold gt, le, SFltb, SFleb.
  destruct (compare_total x y Hx Hy) as [c Hc].
  rewrite (SFcompare_antisym x y), Hc. destruct c; cbn; congruence.
Qed.

Lemma wf_or_nan_cases (x : number) : x = NaN \/ x <> NaN.
Proof. destruct x; [right|right|left|right]; try reflexivity; discriminate. Qed.

(** X1.  [getValidInterval] returns the pair as given or swapped, never
    with the first component above the second; unless a bound is NaN the
    first is at most the second. *)
Theorem getValidInterval_ordered (min max : number) :
  let '(lo, hi) := getValidInterval (min, max) in
  ((lo, hi) = (min, max) \/ (lo, hi) = (max, min)) /\
  gt lo hi = false /\
  (le lo hi = true \/ min = NaN \/ max = NaN).
Proof.
  unfold getValidInterval. destruct (gt min max) eqn:H.
  - split; [now right|]. split.
    + unfold gt in *. now apply lt_asym.
    + left. unfold gt in H. now apply lt_le.
  - split; [now left|]. split; [assumption|].
    destruct (wf_or_nan_cases min) as [->|Nmin]; [right; now left|].
    destruct (wf_or_nan_cases max) as [->|Nmax]; [right; now right|].
    left. now apply not_gt_le.
Qed.

(** X2.  [getValidInterval] leaves its own result unchanged. *)
Theorem getValidInterval_idempotent (d : number * number) :
  getValidInterval (getValidInterval d) = getValidInterval d.
Proof.
  destruct d as [min max]. unfold getValidInterval.
  destruct (gt min max) eqn:H.
  - cbv beta iota. change (gt max min) with (lt min max).
    now rewrite (lt_asym max min H).
  - cbv beta iota. now rewrite H.
Qed.

(** ** [rangeStep] *)

Lemma wf_intro (x : number) : is_double x = true -> x <> NaN -> wf x.
Proof. intros; split; assumption. Qed.

Lemma add_nan_r (x : number) : add x NaN = NaN.
Proof. destruct x; reflexivity. Qed.

Lemma rnd_val_finite (x : number) :
  is_double x = true -> isFinite x = true -> rnd (val x) = val x.
Proof.
  intros V F. pose proof (rnd_val x V) as H.
  destruct x; try discriminate; exact H.
Qed.

Lemma val_zero : val zero = 0.
Proof. reflexivity. Qed.

Lemma zero_wf : wf zero.
Proof. split; [reflexivity|discriminate]. Qed.

(** Adding a step that is not negative does not take a number down. *)
Lemma add_step_up (num step : number) :
  wf num -> val num < top -> wf step -> 0 <= val step ->
  add num step = NaN \/ (wf (add num step) /\ val num <= val (add num step)).
Proof.
  intros [Vn Nn] Hn [Vs Ns] Hs.
  destruct num as [sn|sn| |sn mn en]; try congruence.
  - destruct (isFinite step) eqn:Fs.
    + right. destruct (add_val (S754_zero sn) step Vn Vs eq_refl Fs) as [W V].
      split; [exact W|]. rewrite V.
      rewrite <- (rnd_val_finite (S754_zero sn) Vn eq_refl) at 1.
      apply rnd_mono. lia.
    + destruct step as [ss|ss| |ss ms es]; try discriminate; try congruence.
      right. destruct ss; cbn [val cond_Zopp] in Hs; [pose proof top_pos; lia|].
      split; [split; [reflexivity|discriminate]|].
      cbn [add SFadd val cond_Zopp]. pose proof top_pos. lia.
  - destruct sn; [|cbn [val cond_Zopp] in Hn; lia].
    destruct step as [ss|ss| |ss ms es]; try congruence.
    + right. split; [split; [reflexivity|discriminate]|]. cbn. lia.
    + destruct ss; [cbn [val cond_Zopp] in Hs; pose proof top_pos; lia|].
      now left.
    + right. split; [split; [reflexivity|discriminate]|]. cbn. lia.
  - destruct (isFinite step) eqn:Fs.
    + right. destruct (add_val (S754_finite sn mn en) step Vn Vs eq_refl Fs) as [W V].
      split; [exact W|]. rewrite V.
      rewrite <- (rnd_val_finite (S754_finite sn mn en) Vn eq_refl) at 1.
      apply rnd_mono. lia.
    + destruct step as [ss|ss| |ss ms es]; try discriminate; try congruence.
      right. destruct ss; cbn [val cond_Zopp] in Hs; [pose proof top_pos; lia|].
      split; [split; [reflexivity|discriminate]|].
      cbn [add SFadd]. pose proof (val_range _ Vn). exact (proj2 H).
Qed.

(** Adding a step that is not positive does not take a number up. *)
Lemma add_step_down (num step : number) :
  wf num -> val num < top -> wf step -> val step <= 0 ->
  wf (add num step) /\ val (add num step) <= val num.
Proof.
  intros [Vn Nn] Hn [Vs Ns] Hs.
  destruct num as [sn|sn| |sn mn en]; try congruence.
  - destruct (isFinite step) eqn:Fs.
    + destruct (add_val (S754_zero sn) step Vn Vs eq_refl Fs) as [W V].
      split; [exact W|]. rewrite V.
      rewrite <- (rnd_val_finite (S754_zero sn) Vn eq_refl) at 2.
      apply rnd_mono. lia.
    + destruct step as [ss|ss| |ss ms es]; try discriminate; try congruence.
      destruct ss; cbn [val cond_Zopp] in Hs; [|pose proof top_pos; lia].
      split; [split; [reflexivity|discriminate]|].
      cbn [add SFadd val cond_Zopp]. pose proof top_pos. lia.
  - destruct sn; [|cbn [val cond_Zopp] in Hn; lia].
    destruct step as [ss|ss| |ss ms es]; try congruence.
    + split; [split; [reflexivity|discriminate]|]. cbn. lia.
    + destruct ss; [|cbn [val cond_Zopp] in Hs; pose proof top_pos; lia].
      split; [split; [reflexivity|discriminate]|]. cbn. lia.
    + split; [split; [reflexivity|discriminate]|]. cbn. lia.
  - destruct (isFinite step) eqn:Fs.
    + destruct (add_val (S754_finite sn mn en) step Vn Vs eq_refl Fs) as [W V].
      split; [exact W|]. rewrite V.
      rewrite <- (rnd_val_finite (S754_finite sn mn en) Vn eq_refl) at 2.
      apply rnd_mono. lia.
    + destruct step as [ss|ss| |ss ms es]; try discriminate; try congruence.
      destruct ss; cbn [val cond_Zopp] in Hs; [|pose proof top_pos; lia].
      split; [split; [reflexivity|discriminate]|].
      cbn [add SFadd]. pose proof (val_range _ Vn). exact (proj1 H).
Qed.

Lemma rangeStep_loop_cons (fuel : nat) (num end_ step b : number) (t : list number) :
  rangeStep_loop fuel num end_ step = b :: t -> b = num /\ lt num end_ = true.
Proof.
  destruct fuel as [|fuel]; [discriminate|]. cbn [rangeStep_loop].
  destruct (lt num end_); [|discriminate].
  intros H. injection H as <- _. now split.
Qed.

(** A number that is not negative: NaN, or of value at least zero. *)
Lemma not_negative_cases (x : number) :
  is_double x = true -> lt x zero = false ->
  x = NaN \/ (wf x /\ 0 <= val x).
Proof.
  intros V H. destruct (wf_or_nan x V) as [->|W]; [now left|right].
  split; [assumption|]. unfold lt in H.
  rewrite (SFltb_val x zero W zero_wf) in H. apply Z.ltb_ge in H.
  now rewrite val_zero in H.
Qed.

Lemma lt_val_top (x y : number) :
  is_double x = true -> lt x y = true -> wf x /\ val x < top.
Proof.
  intros V H. destruct (lt_not_nan _ _ H) as [Hx _].
  split; [now split|].
  destruct x as [s|s| |s m e]; try congruence.
  - cbn. pose proof top_pos. lia.
  - destruct s; [cbn; pose proof top_pos; lia|]. now rewrite lt_pinf in H.
  - pose proof (val_lt_top_finite _ V eq_refl). lia.
Qed.

Lemma nondecreasing_cons (a b : number) (t : list number) :
  nondecreasing (a :: b :: t) = le a b && nondecreasing (b :: t).
Proof. reflexivity. Qed.

Lemma rangeStep_loop_sorted (end_ step : number) :
  step = NaN \/ (wf step /\ 0 <= val step) ->
  forall (fuel : nat) (num : number),
    is_double num = true ->
    nondecreasing (rangeStep_loop fuel num end_ step) = true.
Proof.
  intros Hs. induction fuel as [|fuel IH]; intros num Vn; [reflexivity|].
  cbn [rangeStep_loop]. destruct (lt num end_) eqn:Hlt; [|reflexivity].
  destruct (lt_val_top _ _ Vn Hlt) as [Wn Hn].
  destruct (rangeStep_loop fuel (add num step) end_ step) as [|b t] eqn:E;
    [reflexivity|].
  destruct (rangeStep_loop_cons _ _ _ _ _ _ E) as [-> Hlt2].
  destruct (lt_not_nan _ _ Hlt2) as [Hnn _].
  destruct Hs as [->|[Ws H0]]; [now rewrite add_nan_r in Hnn|].
  destruct (add_step_up num step Wn Hn Ws H0) as [Hnan|[W V]];
    [contradiction|].
  rewrite nondecreasing_cons. unfold le at 1. rewrite (SFleb_val _ _ Wn W).
  apply andb_true_intro; split; [now apply Z.leb_le|].
  rewrite <- E. apply IH. exact (proj1 W).
Qed.

(** X3.  With a step that is not negative, [rangeStep] returns its values
    in non-decreasing order: the rounded additions never go down. *)
Theorem rangeStep_nondecreasing (start end_ step : number) :
  is_double start = true -> is_double step = true ->
  lt step zero = false ->
  nondecreasing (rangeStep start end_ step) = true.
Proof.
  intros Vs Vt Ht. unfold rangeStep.
  apply rangeStep_loop_sorted; [|assumption].
  now apply not_negative_cases.
Qed.

Lemma rangeStep_nondecreasing_witness :
  nondecreasing (rangeStep (ofZ 0) (ofZ 10) (ofZ 3)) = true.
Proof.
  apply (rangeStep_nondecreasing (ofZ 0) (ofZ 10) (ofZ 3));
    vm_compute; reflexivity.
Defined.

Lemma rangeStep_loop_full (start end_ step : number) :
  wf start -> wf end_ -> val start < val end_ ->
  wf step -> val step <= 0 ->
  forall (fuel : nat) (num : number),
    wf num -> val num <= val start ->
    length (rangeStep_loop fuel num end_ step) = fuel /\
    forallb (fun v => le v start) (rangeStep_loop fuel num end_ step) = true.
Proof.
  intros Ws We Hse Wt Ht. induction fuel as [|fuel IH]; intros num Wn Hn;
    [now split|].
  cbn [rangeStep_loop]. unfold lt at 1. unfold lt at 1.
  rewrite (SFltb_val _ _ Wn We).
  destruct (Z.ltb_spec (val num) (val end_)) as [_|Hge]; [|lia].
  pose proof (val_range _ (proj1 We)) as Re.
  destruct (add_step_down num step Wn ltac:(lia) Wt Ht) as [W V].
  destruct (IH (add num step) W ltac:(lia)) as [IH1 IH2].
  cbn [length forallb]. rewrite IH1, IH2.
  unfold le. rewrite (SFleb_val _ _ Wn Ws).
  split; [reflexivity|]. rewrite andb_true_r. now apply Z.leb_le.
Qed.

(** X4.  With [start < end_] and a step that is zero or negative, the loop
    of [rangeStep] only ends at its bound: it returns exactly 100000
    values, none above [start]. *)
Theorem rangeStep_step_not_positive (start end_ step : number) :
  is_double start = true -> is_double end_ = true -> is_double step = true ->
  lt start end_ = true -> le step zero = true ->
  let l := rangeStep start end_ step in
  Z.of_nat (length l) = 100000 /\ forallb (fun v => le v start) l = true.
Proof.
  intros Vs Ve Vt Hlt Hle. cbv zeta.
  destruct (lt_not_nan _ _ Hlt) as [Ns Ne].
  assert (Ws : wf start) by now split.
  assert (We : wf end_) by now split.
  assert (Wt : wf step).
  { split; [assumption|]. intros ->. discriminate. }
  unfold lt in Hlt. rewrite (SFltb_val _ _ Ws We) in Hlt. apply Z.ltb_lt in Hlt.
  unfold le in Hle. rewrite (SFleb_val _ _ Wt zero_wf), val_zero in Hle.
  apply Z.leb_le in Hle.
  unfold rangeStep.
  destruct (rangeStep_loop_full start end_ step Ws We Hlt Wt Hle
              rangeStep_cap start Ws ltac:(lia)) as [H1 H2].
  split; [|exact H2]. rewrite H1. reflexivity.
Qed.

Lemma rangeStep_step_not_positive_witness :
  Z.of_nat (length (rangeStep (ofZ 0) (ofZ 1) zero)) = 100000 /\
  forallb (fun v => le v (ofZ 0)) (rangeStep (ofZ 0) (ofZ 1) zero) = true.
Proof.
  apply (rangeStep_step_not_positive (ofZ 0) (ofZ 1) zero);
    vm_compute; reflexivity.
Defined.

(** ** [calculateStep] *)

Lemma sub_as_add (x y : number) : sub x y = add x (SFopp y).
Proof.
  destruct x as [sx|sx| |sx mx ex], y as [sy|sy| |sy my ey];
    try reflexivity;
    destruct sx, sy; reflexivity.
Qed.

Lemma opp_valid (x : number) : is_double (SFopp x) = is_double x.
Proof. destruct x; reflexivity. Qed.

Lemma sub_valid (x y : number) :
  is_double x = true -> is_double y = true -> is_double (sub x y) = true.
Proof.
  intros Hx Hy. rewrite sub_as_add. apply add_valid; [assumption|].
  now rewrite opp_valid.
Qed.

Lemma rem_valid (x y : number) : is_double x = true -> is_double (rem x y) = true.
Proof.
  intros Hx. destruct x as [sx|sx| |sx mx ex], y as [sy|sy| |sy my ey];
    try reflexivity; try assumption.
  cbn [rem]. apply binary_normalize_val.
Qed.

Lemma sign_ok_cases (x : number) :
  is_double x = true -> sign_ok x = true -> x = NaN \/ (wf x /\ 0 <= val x).
Proof.
  intros V S. destruct (wf_or_nan x V) as [->|W]; [now left|right].
  split; [assumption|]. now apply sign_ok_val.
Qed.

Lemma calculateStep_shape (fuel : nat) :
  forall (min max : number) (tickCount : Z) (allowDecimals : bool)
         (cf : number) (r : StepResult),
    is_double cf = true -> sign_ok cf = true ->
    calculateStep fuel min max tickCount allowDecimals cf = Some r ->
    is_double (step r) = true /\ sign_ok (step r) = true /\
    is_double (tickMin r) = true.
Proof.
  induction fuel as [|fuel IH]; intros min max tc ad cf r Vc Sc H;
    [discriminate|].
  rewrite calculateStep_unfold in H. cbv zeta in H.
  destruct (isFinite (roughStepOf min max tc)).
  2:{ injection H as <-. now repeat split. }
  cbn [negb] in H.
  set (st := getFormatStep (roughStepOf min max tc) ad cf) in *.
  assert (Vst : is_double st = true) by now apply getFormatStep_valid.
  assert (Sst : sign_ok st = true) by now apply getFormatStep_sign_ok.
  destruct (gt (scaleCountOf min max st) (ofZ tc)).
  - apply (IH min max tc ad (add cf one) r); [| |exact H].
    + apply add_valid; [assumption|reflexivity].
    + apply add_sign_ok; [assumption|reflexivity].
  - assert (Vm : is_double (middleOf min max st) = true).
    { unfold middleOf. destruct (le min zero && ge max zero); [reflexivity|].
      apply sub_valid; [apply div_valid|].
      apply rem_valid. apply add_valid; [|assumption].
      apply rem_valid. apply div_valid. }
    assert (Vsc : is_double (scaleCountOf min max st) = true).
    { unfold scaleCountOf. cbv zeta.
      repeat apply add_valid; try reflexivity; apply ceil_valid, div_valid. }
    assert (Vd : is_double (sub (ofZ tc) (scaleCountOf min max st)) = true).
    { apply sub_valid; [apply ofZ_wf|assumption]. }
    destruct (lt (scaleCountOf min max st) (ofZ tc));
      [destruct (gt max zero)|]; injection H as <-; cbn [step tickMin];
      (split; [assumption|split; [assumption|]]);
      apply sub_valid; try assumption; apply mul_valid; try assumption;
      repeat apply add_valid; try assumption; apply ceil_valid, div_valid.
Qed.

(** X5.  Whenever [calculateStep], started with correction factor zero,
    returns, the step of its result is not negative. *)
Theorem calculateStep_step_not_negative (fuel : nat) (min max : number)
    (tickCount : Z) (allowDecimals : bool) (r : StepResult) :
  calculateStep fuel min max tickCount allowDecimals zero = Some r ->
  lt (step r) zero = false.
Proof.
  intros H. apply sign_ok_not_lt_zero.
  now apply (calculateStep_shape fuel min max tickCount allowDecimals zero r).
Qed.

Lemma calculateStep_step_not_negative_witness :
  calculateStep 1 (ofZ 0) (ofZ 100) 6 true zero
    = Some (mkStep (ofZ 20) (ofZ 0) (ofZ 100)) /\
  lt (step (mkStep (ofZ 20) (ofZ 0) (ofZ 100))) zero = false.
Proof.
  assert (H : calculateStep 1 (ofZ 0) (ofZ 100) 6 true zero
                = Some (mkStep (ofZ 20) (ofZ 0) (ofZ 100)))
    by (vm_compute; reflexivity).
  split; [exact H|].
  exact (calculateStep_step_not_negative 1 (ofZ 0) (ofZ 100) 6 true _ H).
Defined.

(** ** [getNiceTickValues] *)

Lemma range_length (b e : Z) : length (range b e) = Z.to_nat (e - b).
Proof. unfold range. now rewrite length_map, length_seq. Qed.

Lemma map_const_repeat {A B : Type} (c : B) (l : list A) :
  map (fun _ => c) l = repeat c (length l).
Proof. induction l as [|a l IH]; [reflexivity|]. cbn. now rewrite IH. Qed.

(** X6.  With [Infinity] as upper bound the ticks are the lower bound
    followed by [tickCount - 1] times [Infinity], and with [-Infinity] as
    lower bound [tickCount - 1] times [-Infinity] followed by the upper
    bound; the step solver is not called. *)
Theorem getNiceTickValues_unbounded (fuel : nat) (x : number) (tickCount : Z)
    (allowDecimals : bool) :
  1 <= tickCount ->
  let n := Z.to_nat (tickCount - 1) in
  getNiceTickValues fuel (x, Infinity) tickCount allowDecimals
    = Some (x :: repeat Infinity n) /\
  (eq x Infinity = false ->
   getNiceTickValues fuel (NegInfinity, x) tickCount allowDecimals
     = Some (repeat NegInfinity n ++ [x])).
Proof.
  intros _. cbv zeta. split.
  - unfold getNiceTickValues, getValidInterval.
    replace (gt x Infinity) with false by (destruct x as [| [] | |]; reflexivity).
    replace (eq Infinity Infinity) with true by reflexivity.
    rewrite orb_true_r, map_const_repeat, range_length.
    do 3 f_equal. lia.
  - intros Hx. unfold getNiceTickValues, getValidInterval.
    replace (gt NegInfinity x) with false by (destruct x as [| [] | |]; reflexivity).
    replace (eq NegInfinity NegInfinity) with true by reflexivity.
    rewrite Hx. cbn [orb]. rewrite map_const_repeat, range_length.
    do 3 f_equal. lia.
Qed.

Lemma getNiceTickValues_unbounded_witness :
  eq (ofZ 5) Infinity = false /\
  getNiceTickValues 0 (ofZ 5, Infinity) 4 true
    = Some [ofZ 5; Infinity; Infinity; Infinity] /\
  getNiceTickValues 0 (NegInfinity, ofZ 5) 4 true
    = Some [NegInfinity; NegInfinity; NegInfinity; ofZ 5].
Proof.
  split; [reflexivity|].
  destruct (getNiceTickValues_unbounded 0 (ofZ 5) 4 true ltac:(lia)) as [H1 H2].
  split; [exact H1|]. apply H2. reflexivity.
Defined.

Lemma div_not_finite (x y : number) : isFinite x = false -> isFinite (div x y) = false.
Proof.
  destruct x as [sx|sx| |sx mx ex]; try discriminate; intros _;
    destruct y; reflexivity.
Qed.

Lemma sentinel_ticks :
  rangeStep zero (add zero (mul lit_0_1 zero)) zero = [].
Proof. vm_compute. reflexivity. Qed.

Lemma lt_gt_cases (a b : number) :
  lt a b = true -> gt a b = false /\ gt b a = true /\ eq a b = false /\ eq b a = false.
Proof.
  intros H. split; [exact (lt_asym _ _ H)|]. split; [exact H|].
  assert (E : eq a b = false).
  { revert H. unfold lt, eq, SFltb, SFeqb.
    destruct (SFcompare a b) as [[]|]; congruence. }
  split; [exact E|]. now rewrite eq_sym_number.
Qed.

Lemma getNiceTickValues_no_step (fuel : nat) (min max : number) (tickCount : Z)
    (allowDecimals : bool) :
  let '(lo, hi) := getValidInterval (min, max) in
  eq lo NegInfinity = false -> eq hi Infinity = false -> eq lo hi = false ->
  isFinite (sub hi lo) = false ->
  getNiceTickValues (S fuel) (min, max) tickCount allowDecimals = Some [].
Proof.
  unfold getNiceTickValues, getValidInterval.
  destruct (gt min max); intros H1 H2 H4 Hw;
    rewrite H1, H2, H4; cbn [orb];
    rewrite calculateStep_guard by (apply div_not_finite, Hw);
    cbn [step tickMin tickMax]; rewrite sentinel_ticks; reflexivity.
Qed.

(** X7.  Two finite bounds whose difference overflows give no ticks at all,
    in either order: the guard of [calculateStep] returns the zero step and
    the range from 0 to 0 is empty. *)
Theorem getNiceTickValues_width_overflow (fuel : nat) (min max : number)
    (tickCount : Z) (allowDecimals : bool) :
  isFinite min = true -> isFinite max = true -> lt min max = true ->
  isFinite (sub max min) = false ->
  getNiceTickValues (S fuel) (min, max) tickCount allowDecimals = Some [] /\
  getNiceTickValues (S fuel) (max, min) tickCount allowDecimals = Some [].
Proof.
  intros Fmin Fmax Hlt Hw.
  destruct (lt_gt_cases _ _ Hlt) as [G1 [G2 [E1 E2]]].
  pose proof (eq_infinity_finite min true Fmin) as I1.
  pose proof (eq_infinity_finite max false Fmax) as I2.
  split.
  - pose proof (getNiceTickValues_no_step fuel min max tickCount allowDecimals) as H.
    unfold getValidInterval in H. rewrite G1 in H. apply H; assumption.
  - pose proof (getNiceTickValues_no_step fuel max min tickCount allowDecimals) as H.
    unfold getValidInterval in H. rewrite G2 in H. apply H; assumption.
Qed.

Lemma getNiceTickValues_width_overflow_witness :
  getNiceTickValues 1 (negMaxDouble, maxDouble) 6 true = Some [] /\
  getNiceTickValues 1 (maxDouble, negMaxDouble) 6 true = Some [].
Proof.
  apply (getNiceTickValues_width_overflow 0 negMaxDouble maxDouble 6 true);
    vm_compute; reflexivity.
Defined.

(** X8.  A NaN bound gives no ticks, unless the other bound is the
    infinity that the first test of [getNiceTickValues] looks for. *)
Theorem getNiceTickValues_nan_bound (fuel : nat) (x : number) (tickCount : Z)
    (allowDecimals : bool) :
  (eq x Infinity = false ->
   getNiceTickValues (S fuel) (NaN, x) tickCount allowDecimals = Some []) /\
  (eq x NegInfinity = false ->
   getNiceTickValues (S fuel) (x, NaN) tickCount allowDecimals = Some []).
Proof.
  split; intros Hx.
  - pose proof (getNiceTickValues_no_step fuel NaN x tickCount allowDecimals) as H.
    unfold getValidInterval in H. change (gt NaN x) with (lt x NaN) in H.
    unfold lt in H. rewrite ltb_nan_r in H.
    apply H; try assumption; destruct x; reflexivity.
  - pose proof (getNiceTickValues_no_step fuel x NaN tickCount allowDecimals) as H.
    unfold getValidInterval in H. change (gt x NaN) with (lt NaN x) in H.
    unfold lt in H. rewrite ltb_nan_l in H.
    apply H; try assumption; destruct x; reflexivity.
Qed.

Lemma getNiceTickValues_nan_bound_witness :
  getNiceTickValues 1 (NaN, ofZ 5) 6 true = Some [] /\
  getNiceTickValues 1 (ofZ 5, NaN) 6 true = Some [].
Proof.
  destruct (getNiceTickValues_nan_bound 0 (ofZ 5) 6 true) as [H1 H2].
  split; [apply H1|apply H2]; reflexivity.
Defined.

Lemma nondecreasing_repeat (c : number) (n : nat) :
  le c c = true -> nondecreasing (repeat c n) = true.
Proof.
  intros Hc. induction n as [|n IH]; [reflexivity|].
  destruct n as [|n]; [reflexivity|].
  change (repeat c (S (S n))) with (c :: c :: repeat c n).
  rewrite nondecreasing_cons, Hc. exact IH.
Qed.

Lemma nondecreasing_repeat_cons (x c : number) (n : nat) :
  le x c = true -> le c c = true -> nondecreasing (x :: repeat c n) = true.
Proof.
  intros Hx Hc. destruct n as [|n]; [reflexivity|].
  change (repeat c (S n)) with (c :: repeat c n).
  rewrite nondecreasing_cons, Hx.
  exact (nondecreasing_repeat c (S n) Hc).
Qed.

Lemma nondecreasing_repeat_snoc (x c : number) (n : nat) :
  le c x = true -> le c c = true -> nondecreasing (repeat c n ++ [x]) = true.
Proof.
  intros Hx Hc. induction n as [|n IH]; [reflexivity|].
  destruct n as [|n].
  - cbn [repeat app]. rewrite nondecreasing_cons, Hx. reflexivity.
  - change (repeat c (S (S n)) ++ [x]) with (c :: c :: (repeat c n ++ [x])).
    rewrite nondecreasing_cons, Hc. exact IH.
Qed.

(** X9.  For [min < max], whatever [getNiceTickValues] returns is in
    non-decreasing order. *)
Theorem getNiceTickValues_nondecreasing (fuel : nat) (min max : number)
    (tickCount : Z) (allowDecimals : bool) (ticks : list number) :
  lt min max = true ->
  getNiceTickValues fuel (min, max) tickCount allowDecimals = Some ticks ->
  nondecreasing ticks = true.
Proof.
  intros Hlt. destruct (lt_gt_cases _ _ Hlt) as [G1 [_ [E1 _]]].
  destruct (lt_not_nan _ _ Hlt) as [Nmin Nmax].
  unfold getNiceTickValues, getValidInterval. rewrite G1, E1.
  destruct (eq min NegInfinity || eq max Infinity) eqn:Hinf.
  - intros H; injection H as <-.
    destruct (eq max Infinity) eqn:Hmax.
    + rewrite map_const_repeat. apply nondecreasing_repeat_cons; [|reflexivity].
      destruct min as [| [] | |]; try reflexivity; congruence.
    + rewrite map_const_repeat. apply nondecreasing_repeat_snoc; [|reflexivity].
      destruct max as [| [] | |]; try reflexivity; congruence.
  - destruct (calculateStep fuel min max (Z.max tickCount 2) allowDecimals zero)
      as [r|] eqn:Hr; [|discriminate].
    intros H; injection H as <-.
    destruct (calculateStep_shape fuel min max (Z.max tickCount 2) allowDecimals
                zero r eq_refl eq_refl Hr) as [V [S Vt]].
    apply rangeStep_loop_sorted; [|assumption].
    now apply sign_ok_cases.
Qed.

Lemma getNiceTickValues_nondecreasing_witness :
  lt (ofZ 0) (ofZ 100) = true /\
  nondecreasing (map ofZ [0; 20; 40; 60; 80; 100]) = true.
Proof.
  split; [reflexivity|].
  apply (getNiceTickValues_nondecreasing 1 (ofZ 0) (ofZ 100) 6 true);
    vm_compute; reflexivity.
Defined.

(** ** [getTickValuesFixedDomain] *)

(** X10.  For [a < b], finite or not, swapping the bounds of
    [getTickValuesFixedDomain] reverses the ticks. *)
Theorem getTickValuesFixedDomain_reverse (a b : number) (tickCount : Z)
    (allowDecimals : bool) :
  lt a b = true ->
  getTickValuesFixedDomain (b, a) tickCount allowDecimals
    = rev (getTickValuesFixedDomain (a, b) tickCount allowDecimals).
Proof.
  intros Hlt. destruct (lt_gt_cases _ _ Hlt) as [G1 [G2 [E1 E2]]].
  unfold getTickValuesFixedDomain, getValidInterval. rewrite G1, G2, E1.
  destruct (eq a NegInfinity || eq b Infinity); reflexivity.
Qed.

Lemma getTickValuesFixedDomain_reverse_witness :
  getTickValuesFixedDomain (ofZ 100, ofZ 0) 6 true
    = rev (getTickValuesFixedDomain (ofZ 0, ofZ 100) 6 true).
Proof.
  apply (getTickValuesFixedDomain_reverse (ofZ 0) (ofZ 100) 6 true).
  reflexivity.
Defined.

(** X11.  [getTickValuesFixedDomain] never returns an empty array, and never
    more than 100001 ticks, whatever the arguments. *)
Theorem getTickValuesFixedDomain_length (min max : number) (tickCount : Z)
    (allowDecimals : bool) :
  1 <= Z.of_nat (length (getTickValuesFixedDomain (min, max) tickCount allowDecimals))
    <= 100001.
Proof.
  unfold getTickValuesFixedDomain.
  destruct (getValidInterval (min, max)) as [lo hi].
  destruct (eq lo NegInfinity || eq hi Infinity); [cbn [length]; lia|].
  destruct (eq lo hi); [cbn [length]; lia|].
  set (st := getFormatStep _ _ _).
  assert (H : 1 <= Z.of_nat (length (rangeStep lo hi st ++ [hi])) <= 100001).
  { rewrite length_app. cbn [length]. unfold rangeStep.
    pose proof (rangeStep_loop_length rangeStep_cap lo hi st) as H.
    assert (Hc : Z.of_nat rangeStep_cap = 100000)
      by (unfold rangeStep_cap; apply Z2Nat.id; lia).
    lia. }
  destruct (gt min max), (negb allowDecimals);
    rewrite ?length_rev, ?length_map; exact H.
Qed.

(** ** [Math.floor], [Math.round] and [Number.isInteger] *)

Lemma unit_pos : 0 < 2 ^ 1074.
Proof. apply Z.pow_pos_nonneg; lia. Qed.

Lemma floorZ_mono (V1 V2 : Z) : V1 <= V2 -> floorZ V1 <= floorZ V2.
Proof.
  intros H. unfold floorZ. pose proof unit_pos as Hp.
  generalize dependent (2 ^ 1074). intros U Hp.
  pose proof (Z.div_le_mono V1 V2 U Hp H). nia.
Qed.

Lemma floorZ_multiple (a : Z) : floorZ (a * 2 ^ 1074) = a * 2 ^ 1074.
Proof.
  unfold floorZ. rewrite Z.div_mul; [reflexivity|]. apply Z.pow_nonzero; lia.
Qed.

Lemma roundZ_mono (V1 V2 : Z) : V1 <= V2 -> roundZ V1 <= roundZ V2.
Proof.
  intros H. unfold roundZ. pose proof unit_pos as Hp.
  generalize dependent (2 ^ 1074). intros U Hp.
  pose proof (Z.div_le_mono (2 * V1 + U) (2 * V2 + U)
                (2 * U) ltac:(lia) ltac:(lia)). nia.
Qed.

Lemma roundZ_multiple (a : Z) : roundZ (a * 2 ^ 1074) = a * 2 ^ 1074.
Proof.
  unfold roundZ. pose proof unit_pos as Hp.
  generalize dependent (2 ^ 1074). intros U Hp. f_equal.
  replace (2 * (a * U) + U) with ((2 * a + 1) * U) by ring.
  rewrite Z.div_mul_cancel_r by lia.
  replace (2 * a + 1) with (1 + a * 2) by ring.
  rewrite Z.div_add by lia. reflexivity.
Qed.

Lemma top_multiple : top = 2 ^ 1024 * 2 ^ 1074.
Proof. unfold top. rewrite <- Z.pow_add_r by lia. reflexivity. Qed.

Lemma val_integral (s : bool) (m : positive) (e : Z) :
  0 <= e ->
  val (S754_finite s m e) = cond_Zopp s (Zpos m * 2 ^ e) * 2 ^ 1074.
Proof.
  intros He. cbn [val]. rewrite Z.pow_add_r by lia.
  generalize (2 ^ 1074) (2 ^ e). intros U P.
  destruct s; cbn [cond_Zopp]; ring.
Qed.

Lemma val_fraction (s : bool) (m : positive) (e : Z) :
  e < 0 -> -1074 <= e ->
  val (S754_finite s m e) = cond_Zopp s (Zpos m) * 2 ^ (1074 - (- e)).
Proof.
  intros He He'. cbn [val]. replace (e + 1074) with (1074 - - e) by lia.
  generalize (2 ^ (1074 - - e)). intros P.
  destruct s; cbn [cond_Zopp]; ring.
Qed.

Lemma unit_split (k : Z) : 0 <= k <= 1074 -> 2 ^ 1074 = 2 ^ k * 2 ^ (1074 - k).
Proof. intros H. rewrite <- Z.pow_add_r by lia. f_equal. lia. Qed.

Lemma floor_spec (x : number) :
  is_double x = true -> x <> S754_nan ->
  wf (floor x) /\ val (floor x) = floorZ (val x).
Proof.
  intros Hx Hn. destruct x as [s|s| |s m e]; try congruence.
  - split; [split; [reflexivity|discriminate]|reflexivity].
  - split; [split; [reflexivity|discriminate]|].
    cbn [floor val]. rewrite top_multiple.
    destruct s; cbn [cond_Zopp]; [rewrite <- Z.mul_opp_l|];
      now rewrite floorZ_multiple.
  - cbn [floor]. pose proof (valid_finite s m e Hx) as [He [Hm _]].
    destruct (Z.leb_spec 0 e) as [Hpos|Hneg].
    + split; [split; [assumption|discriminate]|].
      rewrite val_integral by lia. now rewrite floorZ_multiple.
    + cbv zeta. rewrite shiftr_div by lia.
      rewrite val_fraction by lia.
      set (k := - e) in *. set (q := Zpos m / 2 ^ k).
      assert (Hk : 0 < 2 ^ k) by (apply Z.pow_pos_nonneg; lia).
      assert (H2k : 2 <= 2 ^ k).
      { change 2 with (2 ^ 1) at 1. apply Z.pow_le_mono_r; lia. }
      pose proof (Z.div_mod (Zpos m) (2 ^ k) ltac:(lia)) as Hdm.
      pose proof (Z.mod_pos_bound (Zpos m) (2 ^ k) Hk) as Hmb.
      fold q in Hdm.
      assert (Hq : 0 <= q < 2 ^ 52) by (change (2 ^ 53) with (2 * 2 ^ 52) in Hm; nia).
      assert (Hc : forall a, floorZ (a * 2 ^ (1074 - k)) = a / 2 ^ k * 2 ^ 1074).
      { intros a. unfold floorZ. f_equal.
        rewrite (unit_split k) by lia.
        apply Z.div_mul_cancel_r; [lia|]. apply Z.pow_nonzero; lia. }
      rewrite Hc. rewrite Z.shiftl_mul_pow2 by lia.
      change (2 ^ 52) with 4503599627370496 in Hq.
      destruct s; cbn [cond_Zopp].
      * destruct (Z.eqb_spec (q * 2 ^ k) (Zpos m)) as [Hex|Hex].
        -- destruct (normalize_small (- q) true ltac:(lia)) as [Hwf Hv].
           split; [assumption|]. rewrite Hv.
           change (Z.neg m) with (- Zpos m).
           rewrite Z_div_zero_opp_full by lia. fold q. generalize (2 ^ 1074). intros U. ring.
        -- destruct (normalize_small (- (q + 1)) true ltac:(lia)) as [Hwf Hv].
           split; [assumption|]. rewrite Hv.
           change (Z.neg m) with (- Zpos m).
           rewrite Z_div_nz_opp_full by lia. fold q. generalize (2 ^ 1074). intros U. ring.
      * destruct (normalize_small q false ltac:(lia)) as [Hwf Hv].
        split; [assumption|]. rewrite Hv. reflexivity.
Qed.

Lemma round_spec (x : number) :
  is_double x = true -> x <> S754_nan ->
  wf (round x) /\ val (round x) = roundZ (val x).
Proof.
  intros Hx Hn. destruct x as [s|s| |s m e]; try congruence.
  - split; [split; [reflexivity|discriminate]|].
    cbn [round val]. exact (eq_sym (roundZ_multiple 0)).
  - split; [split; [reflexivity|discriminate]|].
    cbn [round val]. rewrite top_multiple.
    destruct s; cbn [cond_Zopp]; [rewrite <- Z.mul_opp_l|];
      now rewrite roundZ_multiple.
  - cbn [round]. pose proof (valid_finite s m e Hx) as [He [Hm _]].
    destruct (Z.leb_spec 0 e) as [Hpos|Hneg].
    + split; [split; [assumption|discriminate]|].
      rewrite val_integral by lia. now rewrite roundZ_multiple.
    + cbv zeta. rewrite val_fraction by lia.
      rewrite Z.shiftl_mul_pow2, Z.mul_1_l by lia.
      set (k := - e) in *. set (c := cond_Zopp s (Zpos m)).
      assert (Hk : 0 < 2 ^ k) by (apply Z.pow_pos_nonneg; lia).
      assert (H2k : 2 <= 2 ^ k).
      { change 2 with (2 ^ 1) at 1. apply Z.pow_le_mono_r; lia. }
      assert (Hp : 0 < 2 ^ (1074 - k)) by (apply Z.pow_pos_nonneg; lia).
      assert (Hc : roundZ (c * 2 ^ (1074 - k))
                   = (2 * c + 2 ^ k) / (2 * 2 ^ k) * 2 ^ 1074).
      { unfold roundZ. f_equal. rewrite (unit_split k) by lia.
        replace (2 * (c * 2 ^ (1074 - k)) + 2 ^ k * 2 ^ (1074 - k))
          with ((2 * c + 2 ^ k) * 2 ^ (1074 - k)) by ring.
        replace (2 * (2 ^ k * 2 ^ (1074 - k)))
          with ((2 * 2 ^ k) * 2 ^ (1074 - k)) by ring.
        apply Z.div_mul_cancel_r; lia. }
      rewrite Hc. set (n := (2 * c + 2 ^ k) / (2 * 2 ^ k)).
      assert (Hcb : - 2 ^ 53 < c < 2 ^ 53) by (unfold c; destruct s; cbn [cond_Zopp]; lia).
      assert (Hn' : - 2 ^ 53 < n < 2 ^ 53).
      { unfold n. change (2 ^ 53) with 9007199254740992 in *.
        split.
        - apply Z.lt_le_trans with (m := -9007199254740991); [lia|].
          apply Z.div_le_lower_bound; lia.
        - apply Z.div_lt_upper_bound; lia. }
      destruct (normalize_small n s Hn') as [Hwf Hv].
      split; [assumption|]. exact Hv.
Qed.

Lemma round_valid (x : number) : is_double x = true -> is_double (round x) = true.
Proof.
  intros Hx. destruct (wf_or_nan x Hx) as [->|[_ Hn]]; [reflexivity|].
  apply (round_spec x Hx Hn).
Qed.

Lemma round_le (a b : number) :
  wf a -> wf b -> le a b = true -> le (round a) (round b) = true.
Proof.
  intros Wa Wb H. unfold le in *. rewrite (SFleb_val a b Wa Wb) in H.
  apply Z.leb_le in H.
  destruct (round_spec a (proj1 Wa) (proj2 Wa)) as [Wa' Va].
  destruct (round_spec b (proj1 Wb) (proj2 Wb)) as [Wb' Vb].
  rewrite (SFleb_val _ _ Wa' Wb'), Va, Vb. apply Z.leb_le.
  now apply roundZ_mono.
Qed.

(** ** [getTickValuesFixedDomain], continued *)

Lemma rangeStep_loop_wf (end_ step : number) :
  is_double step = true ->
  forall (fuel : nat) (num : number),
    is_double num = true ->
    Forall (fun v => wf v /\ lt v end_ = true) (rangeStep_loop fuel num end_ step).
Proof.
  intros Vs. induction fuel as [|fuel IH]; intros num Vn; [constructor|].
  cbn [rangeStep_loop]. destruct (lt num end_) eqn:Hlt; [|constructor].
  constructor.
  - split; [|assumption]. split; [assumption|]. apply (lt_not_nan _ _ Hlt).
  - apply IH. now apply add_valid.
Qed.

Lemma nondecreasing_snoc (l : list number) (hi : number) :
  nondecreasing l = true -> Forall (fun v => le v hi = true) l ->
  nondecreasing (l ++ [hi]) = true.
Proof.
  induction l as [|a l IH]; intros Hs Hl; [reflexivity|].
  inversion Hl as [|? ? Ha Hl']; subst.
  destruct l as [|b t].
  - cbn [app]. rewrite nondecreasing_cons, Ha. reflexivity.
  - rewrite nondecreasing_cons in Hs. apply andb_true_iff in Hs as [Hab Hs].
    change ((a :: b :: t) ++ [hi]) with (a :: b :: (t ++ [hi])).
    rewrite nondecreasing_cons, Hab. exact (IH Hs Hl').
Qed.

Lemma nondecreasing_map_round (l : list number) :
  Forall wf l -> nondecreasing l = true -> nondecreasing (map round l) = true.
Proof.
  induction l as [|a l IH]; intros Hw Hs; [reflexivity|].
  inversion Hw as [|? ? Wa Hw']; subst.
  destruct l as [|b t]; [reflexivity|].
  inversion Hw' as [|? ? Wb _]; subst.
  rewrite nondecreasing_cons in Hs. apply andb_true_iff in Hs as [Hab Hs].
  change (map round (a :: b :: t)) with (round a :: round b :: map round t).
  rewrite nondecreasing_cons, (round_le a b Wa Wb Hab).
  exact (IH Hw' Hs).
Qed.

(** X12.  For [min < max] the ticks of [getTickValuesFixedDomain] are in
    non-decreasing order, rounded to integers or not. *)
Theorem getTickValuesFixedDomain_nondecreasing (min max : number)
    (tickCount : Z) (allowDecimals : bool) :
  is_double min = true -> is_double max = true -> lt min max = true ->
  nondecreasing (getTickValuesFixedDomain (min, max) tickCount allowDecimals) = true.
Proof.
  intros Vmin Vmax Hlt. destruct (lt_gt_cases _ _ Hlt) as [G1 [_ [E1 _]]].
  destruct (lt_not_nan _ _ Hlt) as [Nmin Nmax].
  unfold getTickValuesFixedDomain, getValidInterval. rewrite G1, E1.
  destruct (eq min NegInfinity || eq max Infinity).
  - rewrite nondecreasing_cons, (lt_le _ _ Hlt). reflexivity.
  - set (st := getFormatStep _ allowDecimals zero).
    assert (Vst : is_double st = true) by (now apply getFormatStep_valid).
    assert (Sst : sign_ok st = true) by (now apply getFormatStep_sign_ok).
    pose proof (rangeStep_loop_wf max st Vst rangeStep_cap min Vmin) as Hw.
    fold (rangeStep min max st) in Hw.
    assert (Hs : nondecreasing (rangeStep min max st ++ [max]) = true).
    { apply nondecreasing_snoc.
      - apply rangeStep_loop_sorted; [now apply sign_ok_cases|assumption].
      - revert Hw. apply Forall_impl. intros v [_ Hv]. now apply lt_le. }
    destruct allowDecimals; cbn [negb]; [exact Hs|].
    apply nondecreasing_map_round; [|exact Hs].
    apply Forall_app. split.
    + revert Hw. apply Forall_impl. now intros v [Hv _].
    + constructor; [now split|constructor].
Qed.

Lemma getTickValuesFixedDomain_nondecreasing_witness :
  nondecreasing (getTickValuesFixedDomain (ofZ 0, ofZ 100) 6 false) = true.
Proof.
  apply (getTickValuesFixedDomain_nondecreasing (ofZ 0) (ofZ 100) 6 false);
    vm_compute; reflexivity.
Defined.

(** X13.  For finite bounds that differ, the first tick of
    [getTickValuesFixedDomain] is [min] and the last is [max], each passed
    through [Math.round] when decimals are not allowed. *)
Theorem getTickValuesFixedDomain_ends (min max : number) (tickCount : Z)
    (allowDecimals : bool) :
  isFinite min = true -> isFinite max = true -> eq min max = false ->
  let ticks := getTickValuesFixedDomain (min, max) tickCount allowDecimals in
  let shown := fun v => if allowDecimals then v else round v in
  hd NaN ticks = shown min /\ last ticks NaN = shown max.
Proof.
  intros Fmin Fmax Hne. cbv zeta.
  assert (Hne' : eq max min = false) by (now rewrite eq_sym_number).
  assert (Hends : forall lo hi st, lt lo hi = true ->
            let values := rangeStep lo hi st ++ [hi] in
            let values' := if negb allowDecimals then map round values else values in
            hd NaN values' = (if allowDecimals then lo else round lo) /\
            last values' NaN = (if allowDecimals then hi else round hi) /\
            hd NaN (rev values') = (if allowDecimals then hi else round hi) /\
            last (rev values') NaN = (if allowDecimals then lo else round lo)).
  { intros lo hi st Hlt. cbv zeta.
    destruct (rangeStep_head lo hi st Hlt) as [rest ->].
    destruct allowDecimals; cbn [negb].
    - split; [reflexivity|]. split; [apply last_last|].
      split.
      + rewrite rev_app_distr. reflexivity.
      + rewrite rev_app_distr. cbn [rev app]. rewrite app_comm_cons.
        apply last_last.
    - rewrite map_app. cbn [map].
      split; [reflexivity|]. split; [apply last_last|].
      split.
      + rewrite rev_app_distr. reflexivity.
      + rewrite rev_app_distr. cbn [rev app]. rewrite app_comm_cons.
        apply last_last. }
  unfold getTickValuesFixedDomain, getValidInterval, NegInfinity, Infinity.
  destruct (finite_lt_cases min max Fmin Fmax Hne) as [[Hgt Hlt]|[Hgt Hlt]];
    rewrite Hgt.
  - rewrite (eq_infinity_finite max true Fmax), (eq_infinity_finite min false Fmin).
    cbn [orb]. rewrite Hne'.
    set (st := getFormatStep _ allowDecimals zero).
    destruct (Hends max min st Hlt) as [_ [_ [H3 H4]]].
    split; assumption.
  - rewrite (eq_infinity_finite min true Fmin), (eq_infinity_finite max false Fmax).
    cbn [orb]. rewrite Hne.
    set (st := getFormatStep _ allowDecimals zero).
    destruct (Hends min max st Hlt) as [H1 [H2 _]].
    split; assumption.
Qed.

Lemma getTickValuesFixedDomain_ends_witness :
  hd NaN (getTickValuesFixedDomain (ofZ 100, ofZ 0) 6 false) = round (ofZ 100) /\
  last (getTickValuesFixedDomain (ofZ 100, ofZ 0) 6 false) NaN = round (ofZ 0).
Proof.
  apply (getTickValuesFixedDomain_ends (ofZ 100) (ofZ 0) 6 false);
    vm_compute; reflexivity.
Defined.

(** ** [getTickOfSingleValue] *)

(** X14.  [getTickOfSingleValue] returns the value alone for a tick count of
    at most one, and exactly [tickCount] ticks otherwise. *)
Theorem getTickOfSingleValue_length (value : number) (tickCount : Z)
    (allowDecimals : bool) :
  let ticks := getTickOfSingleValue value tickCount allowDecimals in
  if tickCount <=? 1 then ticks = [value]
  else Z.of_nat (length ticks) = tickCount.
Proof.
  cbv zeta. unfold getTickOfSingleValue.
  destruct (Z.leb_spec tickCount 1) as [H|H]; [reflexivity|].
  destruct (if allowDecimals && lt (abs value) one && ne value zero
            then _ else _) as [st mid].
  rewrite length_map, range_length. lia.
Qed.

Lemma isInteger_val (x : number) :
  is_double x = true -> isFinite x = true ->
  isInteger x = (val x mod 2 ^ 1074 =? 0).
Proof.
  intros Hx Fx. destruct x as [s|s| |s m e]; try discriminate.
  - reflexivity.
  - cbn [isInteger]. pose proof (valid_finite s m e Hx) as [He _].
    pose proof unit_pos as Hu.
    destruct (Z.leb_spec 0 e) as [Hpos|Hneg].
    + rewrite val_integral by lia. rewrite Z.mod_mul by lia. reflexivity.
    + rewrite val_fraction by lia.
      rewrite shiftr_div, Z.shiftl_mul_pow2 by lia.
      set (k := - e) in *.
      assert (Hk : 0 < 2 ^ k) by (apply Z.pow_pos_nonneg; lia).
      assert (Hp : 0 < 2 ^ (1074 - k)) by (apply Z.pow_pos_nonneg; lia).
      rewrite (unit_split k) by lia.
      rewrite Z.mul_mod_distr_r by lia.
      pose proof (Z.div_mod (Zpos m) (2 ^ k) ltac:(lia)) as Hdm.
      pose proof (Z.mod_pos_bound (Zpos m) (2 ^ k) Hk) as Hmb.
      pose proof (Z.mod_pos_bound (cond_Zopp s (Zpos m)) (2 ^ k) Hk) as Hcb.
      assert (Hiff : Zpos m mod 2 ^ k = 0 <-> cond_Zopp s (Zpos m) mod 2 ^ k = 0).
      { destruct s; cbn [cond_Zopp]; [|tauto].
        change (Z.neg m) with (- Zpos m). split; intros H.
        - now apply Z_mod_zero_opp_full.
        - apply Z_mod_zero_opp_full in H. now rewrite Z.opp_involutive in H. }
      destruct (Z.eqb_spec (Zpos m / 2 ^ k * 2 ^ k) (Zpos m)) as [E|E];
        destruct (Z.eqb_spec (cond_Zopp s (Zpos m) mod 2 ^ k * 2 ^ (1074 - k)) 0)
          as [E'|E']; try reflexivity; exfalso.
      * apply E'. assert (H0 : Zpos m mod 2 ^ k = 0) by lia.
        apply Hiff in H0. rewrite H0. reflexivity.
      * apply E. assert (H0 : cond_Zopp s (Zpos m) mod 2 ^ k = 0) by nia.
        apply Hiff in H0. lia.
Qed.

Lemma ceilZ_unit (V : Z) : ceilZ V mod 2 ^ 1074 = 0.
Proof. unfold ceilZ. pose proof unit_pos. apply Z.mod_mul. lia. Qed.

Lemma ceil_isInteger (x : number) :
  is_double x = true -> isFinite (ceil x) = true -> isInteger (ceil x) = true.
Proof.
  intros Hx F.
  assert (Hn : x <> S754_nan) by (intros ->; discriminate).
  destruct (ceil_spec x Hx Hn) as [[V _] E].
  rewrite (isInteger_val _ V F), E, ceilZ_unit. reflexivity.
Qed.

(** X15.  Without decimals, a finite step returned by [getFormatStep] is an
    integer. *)
Theorem getFormatStep_integer (roughStep correctionFactor : number) :
  is_double correctionFactor = true ->
  isFinite (getFormatStep roughStep false correctionFactor) = true ->
  isInteger (getFormatStep roughStep false correctionFactor) = true.
Proof.
  intros Vc. unfold getFormatStep.
  destruct (le roughStep zero || negb (isFinite roughStep)); [reflexivity|].
  cbv zeta. cbn [negb]. apply ceil_isInteger.
  pose proof lit_valid as [[V5 _] [[V1 _] _]].
  apply mul_valid; [|apply pow10_valid].
  apply mul_valid; [|destruct (ne _ _); assumption].
  apply add_valid; [|assumption]. apply ceil_valid, div_valid.
Qed.

Lemma getFormatStep_integer_witness :
  isInteger (getFormatStep (decimal 4 1) false zero) = true.
Proof.
  apply (getFormatStep_integer (decimal 4 1) zero); vm_compute; reflexivity.
Defined.

(** ** Exact arithmetic on small integers *)

(** Two doubles of the same value, not zero, are the same double. *)
Lemma val_inj (x y : number) :
  wf x -> wf y -> val x = val y -> val x <> 0 -> x = y.
Proof.
  intros Wx Wy E H0. pose proof (compare_val x y Wx Wy) as C.
  rewrite E, Z.compare_refl in C.
  destruct Wx as [_ Nx], Wy as [_ Ny].
  destruct x as [sx|sx| |sx mx ex], y as [sy|sy| |sy my ey];
    try congruence;
    try (cbn [val] in H0; congruence);
    try (cbn [val] in E, H0; congruence).
  - destruct sx, sy; cbn in C; try discriminate; reflexivity.
  - destruct sx; cbn in C; discriminate.
  - destruct sy; cbn in C; discriminate.
  - cbn [SFcompare] in C.
    destruct sx, sy; try discriminate;
      destruct (ex ?= ey) eqn:Ee; try discriminate;
      apply Z.compare_eq in Ee; subst ey;
      fold (Pos.compare mx my) in C;
      destruct (Pos.compare mx my) eqn:Em; try discriminate;
      apply Pos.compare_eq in Em; subst my; reflexivity.
Qed.

Lemma unit_cancel (a b : Z) : a * 2 ^ 1074 = b * 2 ^ 1074 -> a = b.
Proof.
  pose proof unit_pos as HU. generalize dependent (2 ^ 1074).
  intros U HU H. nia.
Qed.

Lemma unit_nonzero (a : Z) : a <> 0 -> a * 2 ^ 1074 <> 0.
Proof.
  pose proof unit_pos as HU. generalize dependent (2 ^ 1074).
  intros U HU H. nia.
Qed.

Lemma unit_sign (a : Z) :
  (0 < a * 2 ^ 1074 <-> 0 < a) /\ (a * 2 ^ 1074 < 0 <-> a < 0).
Proof.
  pose proof unit_pos as HU. generalize dependent (2 ^ 1074).
  intros U HU. split; split; intros; nia.
Qed.

Lemma small_lt_top (z : Z) : - 2 ^ 53 < z < 2 ^ 53 -> - top < z * 2 ^ 1074 < top.
Proof.
  intros Hz.
  pose proof (scaled_lt_top z 0 ltac:(lia) ltac:(lia)) as H1.
  pose proof (scaled_lt_top (- z) 0 ltac:(lia) ltac:(lia)) as H2.
  change (0 + 1074) with 1074 in H1, H2.
  generalize dependent (2 ^ 1074). intros U H1 H2.
  generalize dependent top. intros T H1 H2. lia.
Qed.

Lemma ofZ_small (z : Z) :
  - 2 ^ 53 < z < 2 ^ 53 ->
  wf (ofZ z) /\ val (ofZ z) = z * 2 ^ 1074 /\ isFinite (ofZ z) = true.
Proof.
  intros Hz. destruct (normalize_small z false Hz) as [W V].
  split; [exact W|]. split; [exact V|].
  apply wf_finite; [exact W|]. unfold ofZ. rewrite V.
  now apply small_lt_top.
Qed.

(** A double worth the integer [z], not zero, is [ofZ z]. *)
Lemma ofZ_intro (x : number) (z : Z) :
  wf x -> - 2 ^ 53 < z < 2 ^ 53 -> z <> 0 -> val x = z * 2 ^ 1074 -> x = ofZ z.
Proof.
  intros W Hz H0 V. destruct (ofZ_small z Hz) as [W' [V' _]].
  apply val_inj; [assumption|assumption|congruence|].
  rewrite V. now apply unit_nonzero.
Qed.

Lemma finite_sum_zero (sx sy : bool) (mx my : positive) (ex ey : Z) :
  is_double (S754_finite sx mx ex) = true ->
  is_double (S754_finite sy my ey) = true ->
  val (S754_finite sx mx ex) + val (S754_finite sy my ey) = 0 ->
  add (S754_finite sx mx ex) (S754_finite sy my ey) = S754_zero false.
Proof.
  intros Hx Hy H0. unfold add. cbn [SFadd]. cbv zeta.
  pose proof (valid_finite _ _ _ Hx) as [Hex _].
  pose proof (valid_finite _ _ _ Hy) as [Hey _].
  set (ez := Z.min ex ey).
  rewrite !shl_align_fst by (unfold ez; lia).
  match goal with |- context [binary_normalize _ _ ?M _ _] => set (S := M) end.
  assert (HS : S * 2 ^ (ez + 1074) = 0).
  { unfold S. rewrite Z.mul_add_distr_r.
    rewrite !scaled_val by (unfold ez; lia). exact H0. }
  assert (Hp : 0 < 2 ^ (ez + 1074)) by (apply Z.pow_pos_nonneg; unfold ez; lia).
  assert (S = 0) as -> by nia.
  reflexivity.
Qed.

Lemma add_ofZ (a b : Z) :
  - 2 ^ 53 < a < 2 ^ 53 -> - 2 ^ 53 < b < 2 ^ 53 -> - 2 ^ 53 < a + b < 2 ^ 53 ->
  add (ofZ a) (ofZ b) = ofZ (a + b).
Proof.
  intros Ha Hb Hab.
  destruct (ofZ_small a Ha) as [Wa [Va Fa]].
  destruct (ofZ_small b Hb) as [Wb [Vb Fb]].
  destruct (ofZ_small (a + b) Hab) as [Wc [Vc Fc]].
  destruct (add_val (ofZ a) (ofZ b) (proj1 Wa) (proj1 Wb) Fa Fb) as [W V].
  assert (V' : val (add (ofZ a) (ofZ b)) = (a + b) * 2 ^ 1074).
  { rewrite V, Va, Vb, <- Z.mul_add_distr_r, <- Vc.
    apply rnd_val_finite; [exact (proj1 Wc)|exact Fc]. }
  destruct (Z.eq_dec (a + b) 0) as [E0|N0].
  - rewrite E0. change (ofZ 0) with (S754_zero false).
    destruct (Z.eq_dec a 0) as [->|Na].
    + assert (b = 0) as -> by lia. reflexivity.
    + assert (Nb : b <> 0) by lia.
      pose proof (unit_nonzero a Na) as Ua. pose proof (unit_nonzero b Nb) as Ub.
      destruct (ofZ a) as [s|s| |sa ma ea] eqn:Ea; try discriminate;
        [cbn [val] in Va; congruence|].
      destruct (ofZ b) as [s|s| |sb mb eb] eqn:Eb; try discriminate;
        [cbn [val] in Vb; congruence|].
      apply finite_sum_zero; [exact (proj1 Wa)|exact (proj1 Wb)|].
      rewrite Va, Vb, <- Z.mul_add_distr_r, E0. reflexivity.
  - now apply ofZ_intro.
Qed.

Lemma opp_val (x : number) : val (SFopp x) = - val x.
Proof. destruct x as [s|s| |s m e]; try reflexivity; destruct s; cbn; lia. Qed.

Lemma opp_ofZ (b : Z) : b <> 0 -> - 2 ^ 53 < b < 2 ^ 53 -> SFopp (ofZ b) = ofZ (- b).
Proof.
  intros N0 Hb. destruct (ofZ_small b Hb) as [Wb [Vb Fb]].
  apply ofZ_intro; [| lia | lia |].
  - split; [rewrite opp_valid; exact (proj1 Wb)|].
    destruct (ofZ b); try discriminate.
  - rewrite opp_val, Vb. generalize (2 ^ 1074). intros U. ring.
Qed.

Lemma sub_ofZ (a b : Z) :
  - 2 ^ 53 < a < 2 ^ 53 -> - 2 ^ 53 < b < 2 ^ 53 -> - 2 ^ 53 < a - b < 2 ^ 53 ->
  sub (ofZ a) (ofZ b) = ofZ (a - b).
Proof.
  intros Ha Hb Hab. destruct (Z.eq_dec b 0) as [->|Nb].
  - rewrite Z.sub_0_r. change (ofZ 0) with (S754_zero false).
    destruct (ofZ a) as [[]| | |]; reflexivity.
  - rewrite sub_as_add, opp_ofZ by assumption.
    replace (a - b) with (a + - b) by lia. apply add_ofZ; lia.
Qed.

Lemma mul_one_ofZ (a : Z) : - 2 ^ 53 < a < 2 ^ 53 -> mul (ofZ a) one = ofZ a.
Proof.
  intros Ha. destruct (Z.eq_dec a 0) as [->|Na]; [reflexivity|].
  destruct (ofZ_small a Ha) as [Wa [Va Fa]].
  destruct (ofZ_small 1 ltac:(lia)) as [W1 [V1 F1]].
  destruct (mul_val (ofZ a) (ofZ 1) (proj1 Wa) (proj1 W1) Fa F1) as [W V].
  change one with (ofZ 1).
  apply ofZ_intro; try assumption.
  rewrite V, V1, Z.mul_1_l. unfold rnd2.
  change (-2148) with (-1074 - 1074). rewrite RZ_shift by lia.
  fold (rnd (val (ofZ a))). rewrite rnd_val_finite; [exact Va|exact (proj1 Wa)|exact Fa].
Qed.

(** Half of an integer is a double: the quotient by two is exact. *)
Lemma RQ_half_gen (n U : Z) :
  0 < n < 2 ^ 53 -> 0 < U -> Qexp (n * U) (2 * U) = dig n - 54 /\
  Qman (n * U) (2 * U) = n * 2 ^ (53 - dig n).
Proof.
  intros Hn HU.
  pose proof (dig_bounds n ltac:(lia)) as [Hl Hh].
  pose proof (dig_pos n ltac:(lia)) as Hd1.
  pose proof (dig_le_53 n ltac:(lia) ltac:(lia)) as Hd53.
  set (a := n * U). set (b := 2 * U).
  assert (Ha : 0 < a) by (unfold a; nia).
  assert (Hb : 0 < b) by (unfold b; lia).
  assert (Hq : qdig a b = dig n - 1).
  { apply Z.le_antisymm.
    - apply qdig_le; [assumption|assumption|]. apply qlt_true.
      rewrite (Z.max_r (- (dig n - 1)) 0), (Z.max_l (dig n - 1) 0) by lia.
      rewrite Z.pow_0_r.
      replace (2 ^ dig n) with (2 * 2 ^ (dig n - 1)) in Hh
        by (rewrite <- Z.pow_succ_r by lia; f_equal; lia).
      unfold a, b. nia.
    - assert (dig n - 2 < qdig a b); [|lia].
      apply qdig_gt; [assumption|assumption|]. apply qlt_false.
      destruct (Z.eq_dec (dig n) 1) as [E1|N1].
      + rewrite E1. change (Z.max (1 - 2) 0) with 0.
        change (Z.max (- (1 - 2)) 0) with 1. rewrite E1 in Hl.
        change (2 ^ (1 - 1)) with 1 in Hl. unfold a, b.
        change (2 ^ 0) with 1. change (2 ^ 1) with 2. nia.
      + rewrite (Z.max_l (dig n - 2) 0), (Z.max_r (- (dig n - 2)) 0) by lia.
        rewrite Z.pow_0_r.
        replace (2 ^ (dig n - 1)) with (2 * 2 ^ (dig n - 2)) in Hl
          by (rewrite <- Z.pow_succ_r by lia; f_equal; lia).
        unfold a, b. nia. }
  assert (He : Qexp a b = dig n - 54) by (unfold Qexp, fexp64; rewrite Hq; lia).
  split; [exact He|].
  unfold Qman. rewrite He.
  rewrite (Z.max_l (- (dig n - 54)) 0), (Z.max_r (dig n - 54) 0) by lia.
  rewrite Z.pow_0_r, Z.mul_1_r.
  replace (- (dig n - 54)) with (Z.succ (53 - dig n)) by lia.
  rewrite Z.pow_succ_r by lia.
  replace (a * (2 * 2 ^ (53 - dig n))) with (n * 2 ^ (53 - dig n) * b)
    by (unfold a, b; ring).
  apply rne_exact. assumption.
Qed.

(** Half of an integer is a double: the quotient by two is exact. *)
Lemma RQ_half (n : Z) :
  0 < n < 2 ^ 53 -> RQ (n * 2 ^ 1074) (2 * 2 ^ 1074) = n * 2 ^ (-1 + 1074).
Proof.
  intros Hn. destruct (RQ_half_gen n (2 ^ 1074) Hn unit_pos) as [He Hm].
  pose proof (dig_pos n ltac:(lia)) as Hd1.
  pose proof (dig_le_53 n ltac:(lia) ltac:(lia)) as Hd53.
  unfold RQ. rewrite Hm, He.
  replace (n * 2 ^ (53 - dig n) * 2 ^ (dig n - 54 + 1074))
    with (n * 2 ^ (-1 + 1074)).
  2:{ rewrite <- Z.mul_assoc, <- Z.pow_add_r by lia. do 2 f_equal. lia. }
  apply Z.min_l. apply Z.lt_le_incl. apply scaled_lt_top; lia.
Qed.

Lemma two_val : val two = 2 * 2 ^ 1074.
Proof. exact (proj1 (proj2 (ofZ_small 2 ltac:(lia)))). Qed.

Lemma half_floor_ofZ (n : Z) :
  0 < n < 2 ^ 53 -> floor (div (ofZ n) two) = ofZ (n / 2).
Proof.
  intros Hn. destruct (Z.eq_dec n 1) as [->|N1]; [vm_compute; reflexivity|].
  destruct (ofZ_small n ltac:(lia)) as [Wn [Vn Fn]].
  destruct (positive_shape (ofZ n) (proj1 Wn) Fn) as [m [e E]].
  { rewrite Vn. apply unit_sign. lia. }
  rewrite E in *. cbn [val cond_Zopp] in Vn.
  assert (E2 : two = S754_finite false 4503599627370496 (-51))
    by (vm_compute; reflexivity).
  pose proof two_val as V2'. rewrite E2 in V2'. cbn [val cond_Zopp] in V2'.
  rewrite E2.
  assert (V2 : is_double (S754_finite false 4503599627370496 (-51)) = true)
    by (vm_compute; reflexivity).
  destruct (div_finite_val false false m 4503599627370496 e (-51) (proj1 Wn) V2)
    as [Wd Vd].
  cbv zeta in Wd, Vd. cbn [xorb cond_Zopp] in Vd.
  rewrite Vn, V2', (RQ_half n Hn) in Vd.
  destruct (floor_spec _ (proj1 Wd) (proj2 Wd)) as [Wf Vf].
  rewrite Vd in Vf.
  assert (Hfl : floorZ (n * 2 ^ (-1 + 1074)) = n / 2 * 2 ^ 1074).
  { unfold floorZ. f_equal.
    replace (2 ^ 1074) with (2 * 2 ^ (-1 + 1074))
      by (rewrite <- Z.pow_succ_r by lia; reflexivity).
    apply Z.div_mul_cancel_r; [lia|]. apply Z.pow_nonzero; lia. }
  rewrite Hfl in Vf.
  assert (Hq : 0 < n / 2 < 2 ^ 53).
  { split; [apply Z.div_str_pos; lia|].
    apply Z.div_lt_upper_bound; lia. }
  apply ofZ_intro; [exact Wf|lia|lia|exact Vf].
Qed.

(** ** [getTickOfSingleValue] on integers *)

(** An integer below one in absolute value is a zero. *)
Lemma integer_below_one (x : number) :
  is_double x = true -> isInteger x = true -> lt (abs x) one = true ->
  ne x zero = false.
Proof.
  intros Vx Ix Hlt. destruct x as [s|s| |s m e]; try discriminate.
  - destruct s; reflexivity.
  - exfalso. rewrite (isInteger_val _ Vx eq_refl) in Ix.
    apply Z.eqb_eq in Ix.
    assert (Va : is_double (abs (S754_finite s m e)) = true) by exact Vx.
    destruct (ofZ_small 1 ltac:(lia)) as [W1 [V1 _]].
    unfold lt in Hlt. change one with (ofZ 1) in Hlt.
    rewrite (SFltb_val (abs (S754_finite s m e)) (ofZ 1)) in Hlt;
      [|split; [exact Va|discriminate]|exact W1].
    apply Z.ltb_lt in Hlt. rewrite V1, Z.mul_1_l in Hlt.
    cbn [abs SFabs val cond_Zopp] in Hlt.
    pose proof (val_finite_bounds s m e Vx) as [Hpos _].
    assert (Hmod : (Zpos m * 2 ^ (e + 1074)) mod 2 ^ 1074 = 0).
    { cbn [val] in Ix. destruct s; cbn [cond_Zopp] in Ix; [|exact Ix].
      apply Z_mod_zero_opp_full in Ix. now rewrite Z.opp_involutive in Ix. }
    set (V := Zpos m * 2 ^ (e + 1074)) in *. clearbody V.
    clear - Hlt Hpos Hmod. revert Hlt Hmod. generalize (2 ^ 1074).
    intros U Hlt Hmod. rewrite Z.mod_small in Hmod by lia. lia.
Qed.

(** X16.  When decimals are not allowed, or the value is an integer, the
    ticks of [getTickOfSingleValue] are the [tickCount] consecutive integers
    that start at [floor value - floor ((tickCount - 1) / 2)]; all the
    arithmetic is exact up to [2^52]. *)
Theorem getTickOfSingleValue_integers (value : number) (tickCount : Z)
    (allowDecimals : bool) (f : Z) :
  is_double value = true -> floor value = ofZ f ->
  allowDecimals = false \/ isInteger value = true ->
  - 2 ^ 52 <= f <= 2 ^ 52 -> 2 <= tickCount <= 2 ^ 52 ->
  getTickOfSingleValue value tickCount allowDecimals
    = map (fun i => ofZ (f - (tickCount - 1) / 2 + Z.of_nat i))
        (seq 0 (Z.to_nat tickCount)).
Proof.
  intros Vv Hf Hcase Hfb Htc.
  change (2 ^ 52) with 4503599627370496 in *.
  assert (H53 : 2 ^ 53 = 9007199254740992) by reflexivity.
  unfold getTickOfSingleValue.
  destruct (Z.leb_spec tickCount 1) as [H|_]; [lia|].
  cbv zeta.
  match goal with
  | |- context [if allowDecimals && lt (abs value) one && ne value zero
                then ?A else ?B] =>
      assert (Hbranch :
        (if allowDecimals && lt (abs value) one && ne value zero
         then A else B) = (one, ofZ f))
  end.
  { destruct Hcase as [->|Hi].
    - cbn [andb negb orb]. now rewrite Hf.
    - destruct (allowDecimals && lt (abs value) one) eqn:Hc.
      + apply andb_true_iff in Hc as [_ Hlt].
        rewrite (integer_below_one value Vv Hi Hlt). cbn [andb].
        rewrite Hi, orb_true_r. now rewrite Hf.
      + cbn [andb]. rewrite Hi, orb_true_r. now rewrite Hf. }
  rewrite Hbranch.
  change one with (ofZ 1) at 1.
  rewrite sub_ofZ by lia.
  rewrite half_floor_ofZ by lia.
  set (mi := (tickCount - 1) / 2).
  assert (Hmi : 0 <= mi < tickCount).
  { unfold mi. split; [apply Z.div_pos; lia|].
    apply Z.div_lt_upper_bound; lia. }
  unfold range. rewrite map_map, Z.sub_0_r. apply map_ext_in.
  intros i Hi. apply in_seq in Hi. rewrite Z.add_0_l.
  assert (Hib : 0 <= Z.of_nat i < tickCount) by lia.
  rewrite sub_ofZ by lia. rewrite mul_one_ofZ by lia.
  rewrite add_ofZ by lia. f_equal. lia.
Qed.

Lemma getTickOfSingleValue_integers_witness :
  getTickOfSingleValue (decimal 25 1) 4 false = map ofZ [1; 2; 3; 4].
Proof.
  apply (getTickOfSingleValue_integers (decimal 25 1) 4 false 2);
    try (vm_compute; reflexivity); try (left; reflexivity);
    vm_compute; split; discriminate.
Defined.

(** ** [getTickValuesFixedDomain] with integer ticks *)

Lemma finite_val_bound (x : number) :
  is_double x = true -> isFinite x = true ->
  - ((2 ^ 53 - 1) * 2 ^ (971 + 1074)) <= val x <= (2 ^ 53 - 1) * 2 ^ (971 + 1074).
Proof.
  intros Vx Fx.
  assert (HB : 0 <= (2 ^ 53 - 1) * 2 ^ (971 + 1074)).
  { apply Z.mul_nonneg_nonneg; [|apply Z.pow_nonneg; lia].
    change (2 ^ 53) with 9007199254740992. lia. }
  destruct x as [s|s| |s m e]; try discriminate.
  - cbn [val]. revert HB. generalize ((2 ^ 53 - 1) * 2 ^ (971 + 1074)).
    intros B HB. lia.
  - pose proof (valid_finite _ _ _ Vx) as [He [Hm _]].
    assert (H : Zpos m * 2 ^ (e + 1074) <= (2 ^ 53 - 1) * 2 ^ (971 + 1074)).
    { apply Z.mul_le_mono_nonneg; [lia|lia|apply Z.pow_nonneg; lia|].
      apply Z.pow_le_mono_r; lia. }
    assert (P : 0 < Zpos m * 2 ^ (e + 1074))
      by (apply Z.mul_pos_pos; [lia|apply Z.pow_pos_nonneg; lia]).
    cbn [val]. revert H P.
    generalize ((2 ^ 53 - 1) * 2 ^ (971 + 1074)) (Zpos m * 2 ^ (e + 1074)).
    intros B V H P. destruct s; cbn [cond_Zopp]; lia.
Qed.

Lemma round_finite (x : number) :
  is_double x = true -> isFinite x = true ->
  isFinite (round x) = true /\ isInteger (round x) = true.
Proof.
  intros Vx Fx.
  assert (Nx : x <> S754_nan) by (intros ->; discriminate).
  destruct (round_spec x Vx Nx) as [W V].
  pose proof (finite_val_bound x Vx Fx) as [Hlo Hhi].
  pose proof (roundZ_mono _ _ Hlo) as Rlo. pose proof (roundZ_mono _ _ Hhi) as Rhi.
  assert (EB : (2 ^ 53 - 1) * 2 ^ (971 + 1074)
               = (2 ^ 53 - 1) * 2 ^ 971 * 2 ^ 1074).
  { rewrite Z.pow_add_r by lia. apply Z.mul_assoc. }
  assert (R1 : roundZ ((2 ^ 53 - 1) * 2 ^ (971 + 1074))
               = (2 ^ 53 - 1) * 2 ^ (971 + 1074)).
  { rewrite EB. apply roundZ_multiple. }
  assert (R2 : roundZ (- ((2 ^ 53 - 1) * 2 ^ (971 + 1074)))
               = - ((2 ^ 53 - 1) * 2 ^ (971 + 1074))).
  { rewrite EB, <- Z.mul_opp_l. apply roundZ_multiple. }
  rewrite R1 in Rhi. rewrite R2 in Rlo.
  pose proof (scaled_lt_top (2 ^ 53 - 1) 971 ltac:(lia) ltac:(lia)) as HT.
  assert (F : isFinite (round x) = true).
  { apply wf_finite; [exact W|]. rewrite V.
    revert Rlo Rhi HT. generalize ((2 ^ 53 - 1) * 2 ^ (971 + 1074)).
    generalize (roundZ (val x)). generalize top. intros T R B. lia. }
  split; [exact F|].
  rewrite (isInteger_val _ (proj1 W) F), V. unfold roundZ.
  rewrite Z.mod_mul; [reflexivity|]. apply Z.pow_nonzero; lia.
Qed.

Lemma between_finite (lo hi v : number) :
  is_double lo = true -> isFinite lo = true ->
  is_double hi = true -> isFinite hi = true ->
  wf v -> le lo v = true -> le v hi = true -> isFinite v = true.
Proof.
  intros Vlo Flo Vhi Fhi Wv H1 H2.
  assert (Wlo : wf lo) by (split; [assumption|destruct lo; discriminate]).
  assert (Whi : wf hi) by (split; [assumption|destruct hi; discriminate]).
  unfold le in *. rewrite (SFleb_val _ _ Wlo Wv) in H1.
  rewrite (SFleb_val _ _ Wv Whi) in H2.
  apply Z.leb_le in H1. apply Z.leb_le in H2.
  pose proof (val_lt_top_finite lo Vlo Flo). pose proof (val_lt_top_finite hi Vhi Fhi).
  apply wf_finite; [assumption|lia].
Qed.

(** The values before rounding: doubles between the bounds. *)
Lemma fixed_values_shape (lo hi st : number) :
  is_double lo = true -> isFinite lo = true ->
  is_double hi = true -> isFinite hi = true ->
  lt lo hi = true -> is_double st = true -> sign_ok st = true ->
  Forall (fun v => wf v /\ le lo v = true /\ le v hi = true)
    (rangeStep lo hi st ++ [hi]).
Proof.
  intros Vlo Flo Vhi Fhi Hlt Vst Sst.
  destruct (fixed_ticks_within lo hi st Vlo Flo Fhi Hlt Vst Sst) as [Hw _].
  cbv zeta in Hw. unfold all_within in Hw. rewrite forallb_forall in Hw.
  pose proof (rangeStep_loop_wf hi st Vst rangeStep_cap lo Vlo) as Hf.
  fold (rangeStep lo hi st) in Hf.
  apply Forall_forall. intros v Hv.
  specialize (Hw v Hv). apply andb_true_iff in Hw as [H1 H2].
  split; [|now split].
  apply in_app_or in Hv as [Hv|Hv].
  - rewrite Forall_forall in Hf. now apply Hf.
  - destruct Hv as [<-|[]]. split; [assumption|destruct hi; discriminate].
Qed.

Lemma fixed_values_rounded (lo hi : number) (l : list number) :
  is_double lo = true -> isFinite lo = true ->
  is_double hi = true -> isFinite hi = true ->
  Forall (fun v => wf v /\ le lo v = true /\ le v hi = true) l ->
  all_within (round lo) (round hi) (map round l) = true /\
  forallb isInteger (map round l) = true.
Proof.
  intros Vlo Flo Vhi Fhi H.
  assert (Wlo : wf lo) by (split; [assumption|destruct lo; discriminate]).
  assert (Whi : wf hi) by (split; [assumption|destruct hi; discriminate]).
  induction H as [|v l [Wv [H1 H2]] _ [IH1 IH2]]; [now split|].
  cbn [map]. unfold all_within in *. cbn [forallb].
  rewrite IH1, IH2, (round_le lo v Wlo Wv H1), (round_le v hi Wv Whi H2).
  pose proof (between_finite lo hi v Vlo Flo Vhi Fhi Wv H1 H2) as Fv.
  destruct (round_finite v (proj1 Wv) Fv) as [_ ->]. now split.
Qed.

Lemma forallb_rev {A : Type} (f : A -> bool) (l : list A) :
  forallb f (rev l) = forallb f l.
Proof.
  induction l as [|a l IH]; [reflexivity|].
  cbn [rev forallb]. rewrite forallb_app, IH. cbn [forallb].
  rewrite andb_true_r. apply andb_comm.
Qed.

(** X19.  Without decimals, and for finite bounds that differ, every tick of
    [getTickValuesFixedDomain] is an integer between the rounded bounds. *)
Theorem getTickValuesFixedDomain_integers (min max : number) (tickCount : Z) :
  is_double min = true -> is_double max = true ->
  isFinite min = true -> isFinite max = true -> eq min max = false ->
  let ticks := getTickValuesFixedDomain (min, max) tickCount false in
  let '(lo, hi) := getValidInterval (min, max) in
  forallb isInteger ticks = true /\
  all_within (round lo) (round hi) ticks = true.
Proof.
  intros Vmin Vmax Fmin Fmax Hne. cbv zeta.
  assert (Hne' : eq max min = false) by (now rewrite eq_sym_number).
  unfold getTickValuesFixedDomain, getValidInterval, NegInfinity, Infinity.
  destruct (finite_lt_cases min max Fmin Fmax Hne) as [[Hgt Hlt]|[Hgt Hlt]];
    rewrite Hgt.
  - rewrite (eq_infinity_finite max true Fmax), (eq_infinity_finite min false Fmin).
    cbn [orb negb]. rewrite Hne'.
    set (st := getFormatStep _ false zero).
    pose proof (fixed_values_shape max min st Vmax Fmax Vmin Fmin Hlt
                  (getFormatStep_valid _ false zero eq_refl)
                  (getFormatStep_sign_ok _ false zero eq_refl)) as Hs.
    destruct (fixed_values_rounded max min _ Vmax Fmax Vmin Fmin Hs) as [H1 H2].
    rewrite forallb_rev, all_within_rev. now split.
  - rewrite (eq_infinity_finite min true Fmin), (eq_infinity_finite max false Fmax).
    cbn [orb negb]. rewrite Hne.
    set (st := getFormatStep _ false zero).
    pose proof (fixed_values_shape min max st Vmin Fmin Vmax Fmax Hlt
                  (getFormatStep_valid _ false zero eq_refl)
                  (getFormatStep_sign_ok _ false zero eq_refl)) as Hs.
    destruct (fixed_values_rounded min max _ Vmin Fmin Vmax Fmax Hs) as [H1 H2].
    now split.
Qed.

Lemma getTickValuesFixedDomain_integers_witness :
  forallb isInteger (getTickValuesFixedDomain (decimal 5 1, zero) 6 false) = true /\
  all_within (round zero) (round (decimal 5 1))
    (getTickValuesFixedDomain (decimal 5 1, zero) 6 false) = true.
Proof.
  apply (getTickValuesFixedDomain_integers (decimal 5 1) zero 6);
    vm_compute; reflexivity.
Defined.

(** X20.  With an infinite bound on the side where the test of
    [getTickValuesFixedDomain] looks for it, the two bounds are returned as
    they were given, whatever the tick count. *)
Theorem getTickValuesFixedDomain_unbounded (x : number) (tickCount : Z)
    (allowDecimals : bool) :
  getTickValuesFixedDomain (x, Infinity) tickCount allowDecimals = [x; Infinity] /\
  getTickValuesFixedDomain (NegInfinity, x) tickCount allowDecimals
    = [NegInfinity; x] /\
  (x <> NaN ->
   getTickValuesFixedDomain (Infinity, x) tickCount allowDecimals = [Infinity; x] /\
   getTickValuesFixedDomain (x, NegInfinity) tickCount allowDecimals
     = [x; NegInfinity]).
Proof.
  unfold getTickValuesFixedDomain, getValidInterval.
  split; [|split; [|intros Hx; split]].
  - replace (gt x Infinity) with false by (destruct x as [| [] | |]; reflexivity).
    replace (eq Infinity Infinity) with true by reflexivity.
    now rewrite orb_true_r.
  - replace (gt NegInfinity x) with false by (destruct x as [| [] | |]; reflexivity).
    reflexivity.
  - destruct x as [s|[]| |s m e]; try reflexivity. now elim Hx.
  - destruct x as [s|[]| |s m e]; try reflexivity. now elim Hx.
Qed.

Lemma getTickValuesFixedDomain_unbounded_witness :
  getTickValuesFixedDomain (Infinity, ofZ 5) 4 true = [Infinity; ofZ 5] /\
  getTickValuesFixedDomain (ofZ 5, NegInfinity) 4 true = [ofZ 5; NegInfinity].
Proof.
  apply (getTickValuesFixedDomain_unbounded (ofZ 5) 4 true). discriminate.
Defined.
